(** * Guess_Game: the code-breaking engine and its benchmark harness

    A shallow embedding of [src/engine.ts] (module [Engine]) and of the
    benchmarking module that imports it (module [Benchmark]), followed by the
    properties stated about them.

    Conventions of the embedding.
    - A TypeScript [Digit] (the literal union 0 | ... | 9) is the enumeration
      [Digit]; a [Code] (a 4-tuple of digits) is a record of four digits.
    - A JavaScript array is a [list]; [a[i]] that may be [undefined] is the
      partial lookup [a !! i]; [a[d]++] on a counter array is [alter S d a].
    - Integer-valued JavaScript numbers are [nat] (counts, lengths, indices)
      or [Z] (values that may be negative); [null] is [None].
    - Numbers that go through [Math.log2] and division (entropies) live in an
      abstract carrier, see [JSNumber]: every statement below holds for any
      implementation of these floating-point operations.
    - Free-text fields of the analysis payload (reasoning, rationale, phase
      descriptions, summaries) are display data and are not modelled. *)

From Stdlib Require Import ZArith String Ascii QArith Lqa Sorted.
From stdpp Require Import base list numbers strings gmap sorting.
Set Warnings "-abstract-large-number".
Local Open Scope nat_scope.

(** ** Codes *)

Inductive Digit := D0 | D1 | D2 | D3 | D4 | D5 | D6 | D7 | D8 | D9.

#[global] Instance Digit_eq_dec : EqDecision Digit.
Proof. solve_decision. Defined.

Definition all_digits : list Digit := [D0; D1; D2; D3; D4; D5; D6; D7; D8; D9].

(** The number a digit stands for (digits index the counter arrays). *)
Definition digit_val (d : Digit) : nat :=
  match d with
  | D0 => 0 | D1 => 1 | D2 => 2 | D3 => 3 | D4 => 4
  | D5 => 5 | D6 => 6 | D7 => 7 | D8 => 8 | D9 => 9
  end.

Definition digit_of_nat (n : nat) : option Digit := all_digits !! n.

Record Code := mkCode { c0 : Digit; c1 : Digit; c2 : Digit; c3 : Digit }.

#[global] Instance Code_eq_dec : EqDecision Code.
Proof. solve_decision. Defined.

#[global] Instance Code_inhabited : Inhabited Code := populate (mkCode D0 D0 D0 D0).

(** [code[i]] for the indices 0..3 the source uses. *)
Definition at_ (c : Code) (i : nat) : Digit :=
  match i with 0 => c0 c | 1 => c1 c | 2 => c2 c | _ => c3 c end.

Definition digits_of (c : Code) : list Digit := [c0 c; c1 c; c2 c; c3 c].

(** How often the digit [d] occurs in the code [c]. *)
Definition occurrences (d : Digit) (c : Code) : nat :=
  length (filter (fun x => x = d) (digits_of c)).

(** ** Strided loops

    [for (let i = 0; i < pool.length; i += step) { ... pool[i] ... }] visits
    the elements at indices 0, step, 2*step, ...; [strided step pool] lists
    them in order ([skip] counts the elements still to pass over). *)

Fixpoint strided_from {A} (skip step : nat) (pool : list A) : list A :=
  match pool with
  | [] => []
  | x :: rest =>
      match skip with
      | 0 => x :: strided_from (step - 1) step rest
      | S k => strided_from k step rest
      end
  end.

Definition strided {A} (step : nat) (pool : list A) : list A := strided_from 0 step pool.

(** [Math.max(1, Math.floor(pool.length / limit))]; the division is guarded
    in the source by [limit = Math.min(pool.length, ...)], which is 0 only for
    an empty pool, where 0/0 is NaN and [Math.max(1, NaN)] is NaN: the loop
    over an empty pool does not run, whatever the step. *)
Definition stride_of (len limit : nat) : nat := Nat.max 1 (len / limit).

(** ** Floating-point numbers

    The operations of JavaScript numbers that the entropy computation uses.
    Nothing is assumed about them. *)

Class JSNumber := {
  num : Type;
  num_of_Z : Z -> num;               (* an integer literal or count as a number *)
  num_div : num -> num -> num;       (* a / b *)
  num_mul : num -> num -> num;       (* a * b *)
  num_sub : num -> num -> num;       (* a - b *)
  num_log2 : num -> num;             (* Math.log2(a) *)
  num_gt : num -> num -> bool        (* a > b *)
}.

(** A reference implementation over the rationals, exact for the arithmetic,
    with the tangent [p - 1] standing for [log2 p]. It is used to instantiate
    statements at concrete inputs only. *)
Definition Q_number : JSNumber := {|
  num := Q;
  num_of_Z := inject_Z;
  num_div := Qdiv;
  num_mul := Qmult;
  num_sub := Qminus;
  num_log2 := fun p => Qminus p (inject_Z 1);
  num_gt := fun a b => match Qcompare a b with Gt => true | _ => false end
|}.

(** ** engine.ts *)

Module Engine.

Definition computeFeedback (guess target : Code) : nat :=
  let '(gCount, tCount) :=
    foldl (fun '(g, t) i =>
             (alter S (digit_val (at_ guess i)) g,
              alter S (digit_val (at_ target i)) t))
          (replicate 10 0, replicate 10 0) (seq 0 4) in
  foldl (fun match_ d => match_ + Nat.min (gCount !!! d) (tCount !!! d)) 0 (seq 0 10).

Definition isExactMatch (guess target : Code) : bool :=
  forallb (fun i => bool_decide (at_ guess i = at_ target i)) (seq 0 4).

Definition generateAllCodes : list Code :=
  a ← all_digits; b ← all_digits; c ← all_digits; d ← all_digits; [mkCode a b c d].

(** The [feedback] argument is any integer ([===] against the computed
    count). *)
Definition filterCandidates (candidates : list Code) (guess : Code) (feedback : Z)
  : list Code :=
  List.filter (fun c => (Z.of_nat (computeFeedback guess c) =? feedback)%Z) candidates.

Definition digit_char (d : Digit) : ascii := ascii_of_nat (48 + digit_val d).

(** [code.join('')] *)
Definition codeToString (code : Code) : string :=
  string_of_list_ascii (map digit_char (digits_of code)).

(** The characters that [Number] skips as white space (StrWhiteSpaceChar),
    among the code units below 256: TAB, LF, VT, FF, CR, SP and NBSP. *)
Definition is_js_whitespace (ch : ascii) : bool :=
  let n := nat_of_ascii ch in
  (n =? 9) || (n =? 10) || (n =? 11) || (n =? 12) || (n =? 13) || (n =? 32) || (n =? 160).

Definition is_decimal_digit (ch : ascii) : bool :=
  let n := nat_of_ascii ch in (48 <=? n) && (n <=? 57).

(** [Number(ch)] for a string of one code unit; [None] is NaN. A decimal
    digit reads as its value; a white-space character is trimmed away and the
    empty rest reads as 0; nothing else is a numeric literal. *)
Definition Number_of_char (ch : ascii) : option Z :=
  if is_decimal_digit ch then Some (Z.of_nat (nat_of_ascii ch - 48))
  else if is_js_whitespace ch then Some 0%Z
  else None.

Definition digit_of_number (v : Z) : option Digit :=
  if (v <? 0)%Z then None else digit_of_nat (Z.to_nat v).

(** A string is the list of its code units (below 256 here). [None] is the
    [null] result. The final cast [digits as unknown as Code] hands the
    validated numbers over as digits. *)
Definition stringToCode (s : string) : option Code :=
  if negb (String.length s =? 4) then None
  else
    let digits := map Number_of_char (list_ascii_of_string s) in
    if existsb (fun d => match d with
                         | None => true
                         | Some v => (v <? 0)%Z || (9 <? v)%Z
                         end) digits
    then None
    else
      match mapM (fun d => d ≫= digit_of_number) digits with
      | Some [a; b; c; d] => Some (mkCode a b c d)
      | _ => None
      end.

(** *** Knowledge state *)

Record DigitKnowledge := mkDigitKnowledge {
  digit : nat;
  confirmedCount : option Z;   (* null: unknown *)
  minCount : Z;
  maxCount : Z
}.

Record KnowledgeState := mkKnowledgeState {
  digits : list DigitKnowledge;
  confirmedDigits : list nat;
  eliminatedDigits : list nat;
  unknownDigits : list nat;
  confirmedSlots : Z;
  remainingSlots : Z;
  compositionKnown : bool
}.

(** A round of the history, without its analysis payload (which
    [analyzeKnowledge] does not read). *)
Record GameRound := mkGameRound {
  round_no : nat;
  guess : Code;
  feedback : option Z;
  isCorrect : bool
}.

(** [guessCount]: the ten counters of a guess. *)
Definition guessCount_of (g : Code) : list nat :=
  foldl (fun acc i => alter S (digit_val (at_ g i)) acc) (replicate 10 0) (seq 0 4).

(** The body of [for (const round of history)]. *)
Definition analyze_round (digits : list DigitKnowledge) (round : GameRound)
  : list DigitKnowledge :=
  match feedback round with
  | None => digits
  | Some fb =>
      let guessCount := guessCount_of (guess round) in
      let uniqueDigitsInGuess := length (List.filter (fun c => 0 <? c) guessCount) in
      if uniqueDigitsInGuess =? 1 then
        let d := at_ (guess round) 0 in
        alter (fun k => {| digit := digit k; confirmedCount := Some fb;
                           minCount := fb; maxCount := fb |})
              (digit_val d) digits
      else digits
  end.

(** The three result lists and the digit table of the classifying loop; as
    the other loops over [d = 0..9], it visits the ten entries of the table
    in order. *)
Definition classify_digit
  (acc : list DigitKnowledge * list nat * list nat * list nat) (k : DigitKnowledge)
  : list DigitKnowledge * list nat * list nat * list nat :=
  let '(ds, confirmed, eliminated, unknown) := acc in
  match confirmedCount k with
  | Some c =>
      if (0 <? c)%Z then (ds ++ [k], confirmed ++ [digit k], eliminated, unknown)
      else (ds ++ [k], confirmed, eliminated ++ [digit k], unknown)
  | None =>
      if (maxCount k =? 0)%Z then
        (ds ++ [{| digit := digit k; confirmedCount := Some 0%Z;
                   minCount := minCount k; maxCount := maxCount k |}],
         confirmed, eliminated ++ [digit k], unknown)
      else (ds ++ [k], confirmed, eliminated, unknown ++ [digit k])
  end.

Definition analyzeKnowledge (history : list GameRound) : KnowledgeState :=
  let digits0 :=
    map (fun d => {| digit := d; confirmedCount := None; minCount := 0; maxCount := 4 |})
        (seq 0 10) in
  let digits1 := foldl analyze_round digits0 history in
  let '(knownSum, unknownCount) :=
    foldl (fun '(ks, uc) k =>
             match confirmedCount k with
             | Some c => ((ks + c)%Z, uc)
             | None => (ks, S uc)
             end) (0%Z, 0) digits1 in
  let remainingSlots := (4 - knownSum)%Z in
  let digits2 :=
    if (remainingSlots =? 0)%Z then
      map (fun k => match confirmedCount k with
                    | None => {| digit := digit k; confirmedCount := Some 0%Z;
                                 minCount := 0; maxCount := 0 |}
                    | Some _ => k
                    end) digits1
    else digits1 in
  let digits3 :=
    map (fun k => match confirmedCount k with
                  | None => {| digit := digit k; confirmedCount := None;
                               minCount := minCount k;
                               maxCount := Z.min (maxCount k) remainingSlots |}
                  | Some _ => k
                  end) digits2 in
  let '(digits4, confirmedDigits, eliminatedDigits, unknownDigits) :=
    foldl classify_digit ([], [], [], []) digits3 in
  let compositionKnown := (length unknownDigits =? 0) && (remainingSlots =? 0)%Z in
  let confirmedSlots := knownSum in
  {| digits := digits4;
     confirmedDigits := confirmedDigits;
     eliminatedDigits := eliminatedDigits;
     unknownDigits := unknownDigits;
     confirmedSlots := confirmedSlots;
     remainingSlots := (4 - confirmedSlots)%Z;
     compositionKnown := compositionKnown |}.

(** *** Strategy functions *)

Inductive StrategyTag :=
  | UniqueSolution | Direct | FrequencyProbe | Minimax | MaxEntropy | EntropySampled.

(** The structured part of the analysis that accompanies a guess. *)
Record DetailedAnalysis := mkDetailedAnalysis {
  strategy : StrategyTag;
  candidatesRemaining : nat;
  partitions : list (nat * nat);
  feedbackPreview : list (nat * nat);
  knowledge : KnowledgeState
}.

(** The result of [getSmartGuess]; [smart_guess] is [None] where the source
    would hand back [undefined]. *)
Record SmartGuess := mkSmartGuess {
  smart_guess : option Code;
  analysis : DetailedAnalysis
}.

(** [partitions[fb] = (partitions[fb] || 0) + 1] on a [Record<number, number>]:
    an object lists its integer keys in ascending order. *)
Fixpoint record_incr (fb : nat) (partitions : list (nat * nat)) : list (nat * nat) :=
  match partitions with
  | [] => [(fb, 1)]
  | (k, v) :: rest =>
      if fb =? k then (k, v + 1) :: rest
      else if fb <? k then (fb, 1) :: (k, v) :: rest
      else (k, v) :: record_incr fb rest
  end.

Definition computePartitions (guess : Code) (candidates : list Code) : list (nat * nat) :=
  foldl (fun partitions c => record_incr (computeFeedback guess c) partitions) [] candidates.

(** [partitions[fb] || 0] *)
Definition record_get (fb : nat) (partitions : list (nat * nat)) : nat :=
  default 0 (snd <$> List.find (fun kv => fst kv =? fb) partitions).

Definition buildFeedbackPreview (guess : Code) (candidates : list Code) : list (nat * nat) :=
  let partitions := computePartitions guess candidates in
  foldl (fun result fb =>
           let remaining := record_get fb partitions in
           if remaining =? 0 then result else result ++ [(fb, remaining)])
        [] (seq 0 5).

(** [c[0] === guess[0] && c[1] === guess[1] && c[2] === guess[2] && c[3] === guess[3]] *)
Definition same_code (c guess : Code) : bool :=
  bool_decide (c0 c = c0 guess) && bool_decide (c1 c = c1 guess)
  && bool_decide (c2 c = c2 guess) && bool_decide (c3 c = c3 guess).

(** [Math.max(...Object.values(partitions))]; every call site has a non-empty
    candidate list, hence at least one partition. *)
Definition worst_of (partitions : list (nat * nat)) : nat := max_list (snd <$> partitions).

Definition probes : list Code :=
  [mkCode D0 D1 D2 D3; mkCode D4 D5 D6 D7; mkCode D8 D9 D0 D1].

Section Strategies.
Context {N : JSNumber}.

Definition computeEntropy (partitions : list (nat * nat)) (total : nat) : num :=
  foldl (fun entropy count =>
           let p := num_div (num_of_Z (Z.of_nat count)) (num_of_Z (Z.of_nat total)) in
           if num_gt p (num_of_Z 0) then num_sub entropy (num_mul p (num_log2 p))
           else entropy)
        (num_of_Z 0) (snd <$> partitions).

(** The minimax loop of [getSmartGuess]: one iteration on the loop variables
    [(bestGuess, bestWorst, bestPartitions, bestIsCandidate)]. *)
Definition minimax_body (candidates : list Code)
  (best : option Code * nat * list (nat * nat) * bool) (guess : Code)
  : option Code * nat * list (nat * nat) * bool :=
  let '(bestGuess, bestWorst, bestPartitions, bestIsCandidate) := best in
  let partitions := computePartitions guess candidates in
  let worstCase := worst_of partitions in
  let isCandidate := existsb (fun c => same_code c guess) candidates in
  if (worstCase <? bestWorst) || ((worstCase =? bestWorst) && isCandidate && negb bestIsCandidate)
  then (Some guess, worstCase, partitions, isCandidate)
  else best.

(** The entropy loops of [getSmartGuess]: one iteration on
    [(bestGuess, bestEntropy, bestPartitions)]. *)
Definition entropy_body (candidates : list Code) (n : nat)
  (best : option Code * num * list (nat * nat)) (guess : Code)
  : option Code * num * list (nat * nat) :=
  let '(bestGuess, bestEntropy, bestPartitions) := best in
  let partitions := computePartitions guess candidates in
  let entropy := computeEntropy partitions n in
  if num_gt entropy bestEntropy then (Some guess, entropy, partitions) else best.

Definition partitions_for (guess : option Code) (candidates : list Code) : list (nat * nat) :=
  from_option (fun g => computePartitions g candidates) [] guess.

Definition preview_for (guess : option Code) (candidates : list Code) : list (nat * nat) :=
  from_option (fun g => buildFeedbackPreview g candidates) [] guess.

Definition getSmartGuess (candidates allCodes : list Code) (round : nat)
  (history : list GameRound) : SmartGuess :=
  let n := length candidates in
  let knowledge := analyzeKnowledge history in
  if n <=? 1 then
    (* candidates[0] || [0, 0, 0, 0] *)
    let guess := default (mkCode D0 D0 D0 D0) (head candidates) in
    {| smart_guess := Some guess;
       analysis := {| strategy := UniqueSolution; candidatesRemaining := n;
                      partitions := [(4, 1)]; feedbackPreview := [(4, 1)];
                      knowledge := knowledge |} |}
  else if n =? 2 then
    let guess := head candidates in
    {| smart_guess := guess;
       analysis := {| strategy := Direct; candidatesRemaining := n;
                      partitions := partitions_for guess candidates;
                      feedbackPreview := preview_for guess candidates;
                      knowledge := knowledge |} |}
  else if (round <? 3) && (5000 <? n) then
    let guess := probes !! round in
    {| smart_guess := guess;
       analysis := {| strategy := FrequencyProbe; candidatesRemaining := n;
                      partitions := partitions_for guess candidates;
                      feedbackPreview := preview_for guess candidates;
                      knowledge := knowledge |} |}
  else if n <=? 200 then
    let searchPool := if n <=? 50 then allCodes else candidates in
    let limit := Nat.min (length searchPool) (if n <=? 50 then 10000 else 5000) in
    let step := stride_of (length searchPool) limit in
    let '(bestGuess, bestWorst, bestPartitions, bestIsCandidate) :=
      foldl (minimax_body candidates) (head candidates, n, [], true)
            (strided step searchPool) in
    {| smart_guess := bestGuess;
       analysis := {| strategy := Minimax; candidatesRemaining := n;
                      partitions := bestPartitions;
                      feedbackPreview := preview_for bestGuess candidates;
                      knowledge := knowledge |} |}
  else if n <=? 1000 then
    let searchPool := if n <=? 500 then allCodes else candidates in
    let limit := Nat.min (length searchPool) 3000 in
    let step := stride_of (length searchPool) limit in
    let '(bestGuess, bestEntropy, bestPartitions) :=
      foldl (entropy_body candidates n) (head candidates, num_of_Z (-1), [])
            (strided step searchPool) in
    {| smart_guess := bestGuess;
       analysis := {| strategy := MaxEntropy; candidatesRemaining := n;
                      partitions := bestPartitions;
                      feedbackPreview := preview_for bestGuess candidates;
                      knowledge := knowledge |} |}
  else
    let limit := 2000 in
    let step := stride_of (length candidates) limit in
    let '(bestGuess, bestEntropy, bestPartitions) :=
      foldl (entropy_body candidates n) (head candidates, num_of_Z (-1), [])
            (strided step candidates) in
    {| smart_guess := bestGuess;
       analysis := {| strategy := EntropySampled; candidatesRemaining := n;
                      partitions := bestPartitions;
                      feedbackPreview := preview_for bestGuess candidates;
                      knowledge := knowledge |} |}.

End Strategies.

End Engine.

(** ** The benchmarking module *)

Module Benchmark.
Import Engine.

Inductive StrategyName := frequency_probe | max_entropy | minimax | hybrid.

#[global] Instance StrategyName_eq_dec : EqDecision StrategyName.
Proof. solve_decision. Defined.

(** [partitions.set(fb, (partitions.get(fb) || 0) + 1)] on a
    [Map<number, number>]: a map lists its entries in insertion order. *)
Fixpoint map_incr (fb : nat) (partitions : list (nat * nat)) : list (nat * nat) :=
  match partitions with
  | [] => [(fb, 1)]
  | (k, v) :: rest =>
      if fb =? k then (k, v + 1) :: rest else (k, v) :: map_incr fb rest
  end.

Definition computePartitions (guess : Code) (candidates : list Code) : list (nat * nat) :=
  foldl (fun partitions c => map_incr (computeFeedback guess c) partitions) [] candidates.

Definition worstPartition (partitions : list (nat * nat)) : nat :=
  foldl (fun worst v => if worst <? v then v else worst) 0 (snd <$> partitions).

Definition probeSequence : list Code :=
  [mkCode D0 D1 D2 D3; mkCode D4 D5 D6 D7; mkCode D8 D9 D0 D1;
   mkCode D2 D3 D4 D5; mkCode D6 D7 D8 D9].

(** One iteration of the loop of [frequencyProbeGuess] on
    [(bestGuess, bestWorst)]. *)
Definition probe_body (candidates : list Code) (best : option Code * nat) (guess : Code)
  : option Code * nat :=
  let '(bestGuess, bestWorst) := best in
  let parts := computePartitions guess candidates in
  let w := worstPartition parts in
  if w <? bestWorst then (Some guess, w) else best.

(** A strategy returns [None] where the source returns [undefined]. *)
Definition frequencyProbeGuess (candidates _allCodes : list Code) (round : nat)
  : option Code :=
  let n := length candidates in
  if (round <? length probeSequence) && (100 <? n) then probeSequence !! round
  else if n <=? 2 then head candidates
  else
    let limit := Nat.min (length candidates) 500 in
    let step := stride_of (length candidates) limit in
    fst (foldl (probe_body candidates) (head candidates, n) (strided step candidates)).

(** One iteration of the loop of [minimaxGuess] on
    [(bestGuess, bestWorst, bestIsCandidate)]. *)
Definition minimax_body (candidates : list Code) (best : option Code * nat * bool)
  (guess : Code) : option Code * nat * bool :=
  let '(bestGuess, bestWorst, bestIsCandidate) := best in
  let parts := computePartitions guess candidates in
  let w := worstPartition parts in
  let isCand := existsb (fun c => same_code c guess) candidates in
  if (w <? bestWorst) || ((w =? bestWorst) && isCand && negb bestIsCandidate)
  then (Some guess, w, isCand)
  else best.

Definition minimaxGuess (candidates allCodes : list Code) (_round : nat) : option Code :=
  let n := length candidates in
  if n <=? 2 then head candidates
  else
    let searchPool := if n <=? 50 then allCodes else candidates in
    let limit := Nat.min (length searchPool) (if n <=? 50 then 5000 else 2000) in
    let step := stride_of (length searchPool) limit in
    fst (fst (foldl (minimax_body candidates) (head candidates, n, false)
                    (strided step searchPool))).

Section Strategies.
Context {N : JSNumber}.

Definition computeEntropy (partitions : list (nat * nat)) (total : nat) : num :=
  foldl (fun entropy count =>
           let p := num_div (num_of_Z (Z.of_nat count)) (num_of_Z (Z.of_nat total)) in
           if num_gt p (num_of_Z 0) then num_sub entropy (num_mul p (num_log2 p))
           else entropy)
        (num_of_Z 0) (snd <$> partitions).

(** One iteration of the loop of [maxEntropyGuess] on
    [(bestGuess, bestEntropy)]. *)
Definition entropy_body (candidates : list Code) (n : nat) (best : option Code * num)
  (guess : Code) : option Code * num :=
  let '(bestGuess, bestEntropy) := best in
  let parts := computePartitions guess candidates in
  let entropy := computeEntropy parts n in
  if num_gt entropy bestEntropy then (Some guess, entropy) else best.

Definition maxEntropyGuess (candidates allCodes : list Code) (_round : nat) : option Code :=
  let n := length candidates in
  if n <=? 2 then head candidates
  else
    let searchPool := if n <=? 500 then allCodes else candidates in
    let limit := Nat.min (length searchPool) (if n <=? 200 then 5000 else 2000) in
    let step := stride_of (length searchPool) limit in
    fst (foldl (entropy_body candidates n) (head candidates, num_of_Z (-1))
               (strided step searchPool)).

Definition hybridGuess (candidates allCodes : list Code) (round : nat) : option Code :=
  let n := length candidates in
  let probes := [mkCode D0 D1 D2 D3; mkCode D4 D5 D6 D7; mkCode D8 D9 D0 D1] in
  if (round <? 3) && (5000 <? n) then probes !! round
  else if n <=? 200 then minimaxGuess candidates allCodes round
  else maxEntropyGuess candidates allCodes round.

Definition getGuess (strategy : StrategyName) (candidates allCodes : list Code)
  (round : nat) : option Code :=
  match strategy with
  | frequency_probe => frequencyProbeGuess candidates allCodes round
  | max_entropy => maxEntropyGuess candidates allCodes round
  | minimax => minimaxGuess candidates allCodes round
  | hybrid => hybridGuess candidates allCodes round
  end.

(** *** Single game simulation *)

Record GameResult := mkGameResult {
  target : string;
  steps : nat;
  guesses : list string
}.

(** Which of the three [return] statements of [simulateGame] was taken. *)
Inductive Exit := ExactMatch | EmptyCandidates | StepCap.

(** The loop variables of [simulateGame]. *)
Record SimState := mkSimState {
  sim_round : nat;
  sim_candidates : list Code;
  sim_guesses : list string
}.

(** What one iteration of the loop does: it returns, goes on to the next
    round, or throws ([codeToString] of an [undefined] guess). *)
Inductive RoundOutcome :=
  | Returned (exit : Exit) (result : GameResult)
  | Continue (st : SimState)
  | Thrown.

Definition simulate_round (strategy : StrategyName) (target : Code)
  (allCodes : list Code) (maxSteps : nat) (st : SimState) : RoundOutcome :=
  match getGuess strategy (sim_candidates st) allCodes (sim_round st) with
  | None => Thrown
  | Some guess =>
      let guesses := sim_guesses st ++ [codeToString guess] in
      if isExactMatch guess target then
        Returned ExactMatch
          {| target := codeToString target; steps := sim_round st + 1; guesses := guesses |}
      else
        let fb := computeFeedback guess target in
        let candidates := filterCandidates (sim_candidates st) guess (Z.of_nat fb) in
        if length candidates =? 0 then
          Returned EmptyCandidates
            {| target := codeToString target; steps := maxSteps; guesses := guesses |}
        else
          Continue {| sim_round := sim_round st + 1; sim_candidates := candidates;
                      sim_guesses := guesses |}
  end.

(** [for (let round = 0; round < maxSteps; round++)]: [remaining] is
    [maxSteps - round]. [None] is a thrown exception. *)
Fixpoint simulate_rounds (strategy : StrategyName) (target : Code)
  (allCodes : list Code) (maxSteps remaining : nat) (st : SimState)
  : option (Exit * GameResult) :=
  match remaining with
  | 0 => Some (StepCap, {| target := codeToString target; steps := maxSteps;
                           guesses := sim_guesses st |})
  | S remaining' =>
      match simulate_round strategy target allCodes maxSteps st with
      | Returned exit result => Some (exit, result)
      | Continue st' => simulate_rounds strategy target allCodes maxSteps remaining' st'
      | Thrown => None
      end
  end.

Definition simulateGame (strategy : StrategyName) (target : Code)
  (allCodes : list Code) (maxSteps : nat) : option (Exit * GameResult) :=
  simulate_rounds strategy target allCodes maxSteps maxSteps
    {| sim_round := 0; sim_candidates := allCodes; sim_guesses := [] |}.

(** The loop states [simulateGame] goes through. *)
Inductive sim_reachable (strategy : StrategyName) (target : Code)
  (allCodes : list Code) (maxSteps : nat) : SimState -> Prop :=
  | reach_start :
      sim_reachable strategy target allCodes maxSteps
        {| sim_round := 0; sim_candidates := allCodes; sim_guesses := [] |}
  | reach_next st st' :
      sim_reachable strategy target allCodes maxSteps st ->
      sim_round st < maxSteps ->
      simulate_round strategy target allCodes maxSteps st = Continue st' ->
      sim_reachable strategy target allCodes maxSteps st'.

(** *** Random target generation *)

(** 32-bit integer operations on [Z]. *)
Definition toInt32 (x : Z) : Z := ((x + 2 ^ 31) mod 2 ^ 32 - 2 ^ 31)%Z.
Definition toUint32 (x : Z) : Z := (x mod 2 ^ 32)%Z.
(** [a | b], [a ^ b], [a >>> k] and [Math.imul(a, b)] *)
Definition or32 (a b : Z) : Z := toInt32 (Z.lor (toInt32 a) (toInt32 b)).
Definition xor32 (a b : Z) : Z := toInt32 (Z.lxor (toInt32 a) (toInt32 b)).
Definition ushr32 (a k : Z) : Z := Z.shiftr (toUint32 a) k.
Definition imul (a b : Z) : Z := toInt32 (toInt32 a * toInt32 b).

(** One call of the closure [rand] (mulberry32) on the captured state [s]:
    the new state, and the numerator [u] of the returned number
    [u / 4294967296], an unsigned 32-bit integer. *)
Definition rand (s : Z) : Z * Z :=
  let s := or32 s 0 in
  let s := or32 (s + 0x6D2B79F5) 0 in
  let t := imul (xor32 s (ushr32 s 15)) (or32 1 s) in
  let t := xor32 (t + imul (xor32 t (ushr32 t 7)) (or32 61 t)) t in
  (s, ushr32 (xor32 t (ushr32 t 14)) 0).

(** [Math.floor(rand() * 10) as Digit] for [rand() = u / 4294967296]: both
    the division by a power of two and the product with 10 (below 2^36) are
    exact in double precision, so the digit is the integer quotient. The
    quotient is below 10 (see [floor10_val]); the default is never taken. *)
Definition floor10 (u : Z) : Digit :=
  default D9 (digit_of_nat (Z.to_nat (u * 10 / 4294967296))).

(** The variables of the generation loop: the generator state and the two
    collections. *)
Record GenState := mkGenState {
  gen_s : Z;
  gen_targets : list Code;
  gen_seen : gset string
}.

(** The body of [while (targets.length < count)]. *)
Definition generate_body (st : GenState) : GenState :=
  let '(s1, u1) := rand (gen_s st) in
  let '(s2, u2) := rand s1 in
  let '(s3, u3) := rand s2 in
  let '(s4, u4) := rand s3 in
  let code := mkCode (floor10 u1) (floor10 u2) (floor10 u3) (floor10 u4) in
  let key := codeToString code in
  if bool_decide (key ∈ gen_seen st)
  then {| gen_s := s4; gen_targets := gen_targets st; gen_seen := gen_seen st |}
  else {| gen_s := s4; gen_targets := gen_targets st ++ [code];
          gen_seen := {[key]} ∪ gen_seen st |}.

(** The loop, run for at most [fuel] iterations; [None]: still running. *)
Fixpoint generate_loop (fuel : nat) (count : Z) (st : GenState) : option GenState :=
  match fuel with
  | 0 => if (Z.of_nat (length (gen_targets st)) <? count)%Z then None else Some st
  | S fuel' =>
      if (Z.of_nat (length (gen_targets st)) <? count)%Z
      then generate_loop fuel' count (generate_body st)
      else Some st
  end.

(** [now] is the value of [Date.now()], read when no seed is given. *)
Definition generateRandomTargets (fuel : nat) (now : Z) (count : Z) (seed : option Z)
  : option (list Code) :=
  gen_targets <$>
    generate_loop fuel count
      {| gen_s := default now seed; gen_targets := []; gen_seen := ∅ |}.

(** *** The chunked benchmark *)

Record BenchmarkConfig := mkBenchmarkConfig {
  numTargets : Z;
  strategies : list StrategyName;
  seed : option Z
}.

(** The progress report, without its elapsed time. *)
Record BenchmarkProgress := mkBenchmarkProgress {
  progress_strategy : option StrategyName;
  strategyIndex : nat;
  totalStrategies : nat;
  gamesCompleted : nat;
  totalGames : nat;
  currentTarget : string
}.

(** The result of a strategy: the step counts its statistics (mean, extremes,
    deviation, median) summarise, the histogram and the sample. *)
Record StrategyResult := mkStrategyResult {
  result_strategy : StrategyName;
  result_totalGames : nat;
  result_steps : list nat;
  result_distribution : list (nat * nat);
  result_sampleGames : list GameResult
}.

Inductive Event :=
  | OnProgress (progress : BenchmarkProgress)
  | OnComplete (results : list StrategyResult).

(** The variables [processNextChunk] closes over. *)
Record BenchState := mkBenchState {
  bench_targets : list Code;
  bench_results : list StrategyResult;
  strategyIdx : nat;
  gameIdx : nat;
  stepResults : list nat;
  sampleGames : list GameResult;
  distribution : list (nat * nat)
}.

(** The loop over the games of a chunk, [i] games still allowed; [None] when
    [simulateGame] throws. *)
Fixpoint chunk_games (allCodes : list Code) (strategy : option StrategyName)
  (i : nat) (st : BenchState) : option BenchState :=
  match i with
  | 0 => Some st
  | S i' =>
      match bench_targets st !! gameIdx st with
      | None => Some st
      | Some target =>
          match strategy ≫= (fun name => simulateGame name target allCodes 20) with
          | None => None
          | Some (_, result) =>
              let keep :=
                ((length (sampleGames st) <? 10) || (10 <=? steps result)
                 || (steps result <=? 2))
                && (length (sampleGames st) <? 30) in
              chunk_games allCodes strategy i'
                {| bench_targets := bench_targets st;
                   bench_results := bench_results st;
                   strategyIdx := strategyIdx st;
                   gameIdx := gameIdx st + 1;
                   stepResults := stepResults st ++ [steps result];
                   sampleGames := if keep then sampleGames st ++ [result]
                                  else sampleGames st;
                   distribution := record_incr (steps result) (distribution st) |}
          end
      end
  end.

(** How a frame ends: another frame is requested, none is, or an exception
    escaped. *)
Inductive Next := Reschedule (st : BenchState) | Stop | Crash.

Definition processNextChunk (config : BenchmarkConfig) (allCodes : list Code)
  (cancelled : bool) (st : BenchState) : list Event * Next :=
  if cancelled then ([], Stop)
  else
    let chunkSize := 5 in
    let strategy := strategies config !! strategyIdx st in
    match chunk_games allCodes strategy chunkSize st with
    | None => ([], Crash)
    | Some st1 =>
        let total := length (bench_targets st1) in
        let progress :=
          OnProgress {| progress_strategy := strategy;
                        strategyIndex := strategyIdx st1;
                        totalStrategies := length (strategies config);
                        gamesCompleted := gameIdx st1;
                        totalGames := total;
                        currentTarget :=
                          from_option codeToString EmptyString
                                      (bench_targets st1 !! gameIdx st1) |} in
        if total <=? gameIdx st1 then
          match strategy with
          | None => ([progress], Crash)      (* info.displayName of undefined *)
          | Some name =>
              let results :=
                bench_results st1 ++
                  [{| result_strategy := name; result_totalGames := total;
                      result_steps := stepResults st1;
                      result_distribution := distribution st1;
                      result_sampleGames := sampleGames st1 |}] in
              let st2 := {| bench_targets := bench_targets st1;
                            bench_results := results;
                            strategyIdx := strategyIdx st1 + 1;
                            gameIdx := 0; stepResults := []; sampleGames := [];
                            distribution := [] |} in
              if length (strategies config) <=? strategyIdx st2
              then ([progress; OnComplete results], Stop)
              else ([progress], Reschedule st2)
          end
        else ([progress], Reschedule st1)
    end.

(** The synchronous part of [runBenchmarkAsync], up to its first
    [requestAnimationFrame]; [None]: [generateRandomTargets] is still
    running after [fuel] iterations of its loop. *)
Definition runBenchmarkAsync (fuel : nat) (now : Z) (config : BenchmarkConfig)
  : option BenchState :=
  let allCodes := generateAllCodes in
  targets ← generateRandomTargets fuel now (numTargets config) (seed config);
  Some {| bench_targets := targets; bench_results := []; strategyIdx := 0;
          gameIdx := 0; stepResults := []; sampleGames := []; distribution := [] |}.

(** The frames that follow; [cancels] tells for each frame whether [cancel]
    was called before it. *)
Fixpoint run_frames (config : BenchmarkConfig) (cancels : list bool) (st : BenchState)
  : list Event :=
  match cancels with
  | [] => []
  | cancelled :: rest =>
      let '(events, next) := processNextChunk config generateAllCodes cancelled st in
      events ++ match next with
                | Reschedule st' => run_frames config rest st'
                | Stop | Crash => []
                end
  end.

(** The callbacks invoked by a run that has been given [fuel] iterations of
    the generation loop and the frames of [cancels]. *)
Definition callbacks_invoked (fuel : nat) (now : Z) (config : BenchmarkConfig)
  (cancels : list bool) : list Event :=
  match runBenchmarkAsync fuel now config with
  | None => []
  | Some st => run_frames config cancels st
  end.

End Strategies.

End Benchmark.

(** * The vocabulary of the properties *)

Import Engine.
Import Benchmark.

(** ** Feedback and filtering *)

(** The multiset intersection in the words of the data model: the sum over
    the digit values of the smaller of the two occurrence counts. *)
Definition multiset_intersection (g t : Code) : nat :=
  sum_list ((fun d => Nat.min (occurrences d g) (occurrences d t)) <$> all_digits).

(** The number of candidates that answer [fb] to the guess [g], and the size
    of the largest of these classes over the feedback values 0..4. *)
Definition partition_size (g : Code) (cs : list Code) (fb : nat) : nat :=
  length (List.filter (fun c => computeFeedback g c =? fb) cs).

Definition max_partition (g : Code) (cs : list Code) : nat :=
  max_list ((fun fb => partition_size g cs fb) <$> seq 0 5).

(** ** Parsing *)


(** ** Knowledge deduction *)

(** A guess whose four digits are equal. *)
Definition monochromatic (c : Code) : Prop := c1 c = c0 c /\ c2 c = c0 c /\ c3 c = c0 c.

(** The sum of the feedbacks of a history (a round without feedback counts
    for nothing). *)
Definition feedback_total (h : list GameRound) : Z :=
  foldr (fun r acc => (default 0 (feedback r) + acc)%Z) 0%Z h.

(** The sum of the confirmed counts of a digit table. *)
Definition confirmed_sum (ds : list DigitKnowledge) : Z :=
  foldr (fun k acc => (default 0 (confirmedCount k) + acc)%Z) 0%Z ds.

Definition set_confirmed (fb : Z) (k : DigitKnowledge) : DigitKnowledge :=
  {| digit := digit k; confirmedCount := Some fb; minCount := fb; maxCount := fb |}.

(** ** Random targets *)

(** What the generation loop maintains: the targets are pairwise distinct
    and [seen] holds exactly their keys. *)
Definition gen_invariant (st : GenState) : Prop :=
  NoDup (gen_targets st)
  /\ forall c, codeToString c ∈ gen_seen st <-> c ∈ gen_targets st.

(** ** Partition tables *)

Definition keys_ascending (parts : list (nat * nat)) : Prop :=
  StronglySorted lt (fst <$> parts).

(** ** Minimax selection *)

(** One iteration of either minimax loop on
    [(bestGuess, bestWorst, bestIsCandidate)], in terms of the largest class. *)
Definition minimax_next (cs : list Code) (best : option Code * nat * bool) (g : Code)
  : option Code * nat * bool :=
  let '(bestGuess, bestWorst, bestIsCandidate) := best in
  let w := max_partition g cs in
  let isCand := existsb (fun c => same_code c g) cs in
  if (w <? bestWorst) || ((w =? bestWorst) && isCand && negb bestIsCandidate)
  then (Some g, w, isCand)
  else best.

(** What the minimax loop maintains after the guesses [seen], for the first
    candidate [first]. *)
Definition minimax_invariant (cs : list Code) (first : Code) (seen : list Code)
  (best : option Code * nat * bool) : Prop :=
  exists r,
    fst (fst best) = Some r
    /\ (In r seen \/ r = first)
    /\ max_partition r cs <= snd (fst best)
    /\ (snd best = true -> In r cs)
    /\ (forall g, In g seen -> snd (fst best) <= max_partition g cs)
    /\ ((exists g, In g seen /\ In g cs /\ max_partition g cs = snd (fst best)) -> In r cs)
    /\ (snd (fst best) = length cs
        \/ exists g, In g seen /\ max_partition g cs = snd (fst best)).

(** The guesses the minimax loop of [minimaxGuess] visits. *)
Definition bench_minimax_sample (cs allCodes : list Code) : list Code :=
  let n := length cs in
  let searchPool := if n <=? 50 then allCodes else cs in
  let limit := Nat.min (length searchPool) (if n <=? 50 then 5000 else 2000) in
  strided (stride_of (length searchPool) limit) searchPool.

(** The guesses the minimax phase of [getSmartGuess] visits. *)
Definition smart_minimax_sample (cs allCodes : list Code) : list Code :=
  let n := length cs in
  let searchPool := if n <=? 50 then allCodes else cs in
  let limit := Nat.min (length searchPool) (if n <=? 50 then 10000 else 5000) in
  strided (stride_of (length searchPool) limit) searchPool.

(** What the minimax selection guarantees about the guess [r] it returns,
    for the candidates [cs] and the visited guesses [sample]. *)
Definition minimax_selection (cs sample : list Code) (r : Code) : Prop :=
  (In r sample \/ head cs = Some r)
  /\ (forall g, In g sample -> max_partition r cs <= max_partition g cs)
  /\ ((exists g, In g sample /\ In g cs
                 /\ forall g', In g' sample -> max_partition g cs <= max_partition g' cs)
      -> In r cs).

(** ** The dispatch of the hybrid strategy *)

Inductive Phase := ProbePhase | MinimaxPhase | EntropyFullSpace | EntropyCandidatesOnly.

(** The phase for a pool of [n] candidates in round [round], with the
    boundaries as the overview of the strategy words them: full-space entropy
    search up to 1,000 candidates. *)
Definition specified_phase (n round : nat) : Phase :=
  if (round <? 3) && (5000 <? n) then ProbePhase
  else if n <=? 200 then MinimaxPhase
  else if n <=? 1000 then EntropyFullSpace
  else EntropyCandidatesOnly.

(** The same with the full-space entropy search ending at 500 candidates. *)
Definition dispatched_phase (n round : nat) : Phase :=
  if (round <? 3) && (5000 <? n) then ProbePhase
  else if n <=? 200 then MinimaxPhase
  else if n <=? 500 then EntropyFullSpace
  else EntropyCandidatesOnly.

Section Searches.
Context {N : JSNumber}.

(** Maximum-entropy search of the benchmark module over the strided sample of
    [pool] that [limit] evaluations allow. *)
Definition bench_entropy_search (pool cs : list Code) (limit : nat) : option Code :=
  fst (foldl (Benchmark.entropy_body cs (length cs)) (head cs, num_of_Z (-1))
             (strided (stride_of (length pool) (Nat.min (length pool) limit)) pool)).

(** Maximum-entropy search of [getSmartGuess] over the sample of [pool] with
    stride [step]. *)
Definition smart_entropy_search (pool cs : list Code) (step : nat) : option Code :=
  fst (fst (foldl (Engine.entropy_body cs (length cs)) (head cs, num_of_Z (-1), [])
                  (strided step pool))).

(** The minimax phase of [getSmartGuess]. *)
Definition smart_minimax_search (cs allCodes : list Code) : option Code :=
  fst (fst (fst (foldl (Engine.minimax_body cs) (head cs, length cs, [], true)
                       (smart_minimax_sample cs allCodes)))).

(** What [hybridGuess] computes in each phase. *)
Definition bench_phase_guess (phase : Phase) (cs allCodes : list Code) (round : nat)
  : option Code :=
  match phase with
  | ProbePhase => probes !! round
  | MinimaxPhase => minimaxGuess cs allCodes round
  | EntropyFullSpace => bench_entropy_search allCodes cs 2000
  | EntropyCandidatesOnly => bench_entropy_search cs cs 2000
  end.

(** What [getSmartGuess] computes in each phase; its two candidate-only
    searches differ in their evaluation limit (3000 up to 1,000 candidates,
    2000 above). *)
Definition smart_phase_guess (phase : Phase) (cs allCodes : list Code) (round : nat)
  : option Code :=
  match phase with
  | ProbePhase => probes !! round
  | MinimaxPhase => smart_minimax_search cs allCodes
  | EntropyFullSpace =>
      smart_entropy_search allCodes cs
        (stride_of (length allCodes) (Nat.min (length allCodes) 3000))
  | EntropyCandidatesOnly =>
      smart_entropy_search cs cs
        (if length cs <=? 1000
         then stride_of (length cs) (Nat.min (length cs) 3000)
         else stride_of (length cs) 2000)
  end.

End Searches.

(** The entropy of a guess over a non-empty candidate list exceeds the
    initial value -1 of [bestEntropy] (it is a sum of terms [-p * log2 p] for
    proportions [p] in (0, 1]); this is what a number implementation is
    expected to satisfy. *)
Definition entropy_above_sentinel (N : JSNumber) : Prop :=
  forall (g : Code) (cs : list Code),
    cs <> [] ->
    num_gt (Benchmark.computeEntropy (Benchmark.computePartitions g cs) (length cs))
           (num_of_Z (-1)) = true
    /\ num_gt (Engine.computeEntropy (Engine.computePartitions g cs) (length cs))
              (num_of_Z (-1)) = true.

(** The 667 codes that end in 1 and whose digit sum is not a multiple of 3:
    a pool between 500 and 1,000 that avoids every fifth and every third code
    of the full space. *)
Definition gap_candidates : list Code :=
  List.filter (fun c => bool_decide (c3 c = D1)
                        && negb ((digit_val (c0 c) + digit_val (c1 c) + digit_val (c2 c)
                                  + digit_val (c3 c)) mod 3 =? 0))
              generateAllCodes.

(** ** The code space *)

(** The position of a code in the lexicographic enumeration. *)
Definition code_index (c : Code) : nat :=
  1000 * digit_val (c0 c) + 100 * digit_val (c1 c) + 10 * digit_val (c2 c)
  + digit_val (c3 c).

(** ** Rounds and table entries *)

#[global] Instance monochromatic_dec (c : Code) : Decision (monochromatic c).
Proof. unfold monochromatic. apply _. Defined.

(** A round [analyzeKnowledge] learns from: it has a feedback and its guess
    is monochromatic. *)
Definition informative_round (r : GameRound) : bool :=
  match feedback r with
  | Some _ => bool_decide (monochromatic (guess r))
  | None => false
  end.

(** The empty digit table [analyzeKnowledge] starts from. *)
Definition initial_table : list DigitKnowledge :=
  map (fun d => {| digit := d; confirmedCount := None; minCount := 0; maxCount := 4 |})
      (seq 0 10).

(** What the classifying loop writes back for an entry of the digit table. *)
Definition classified_entry (k : DigitKnowledge) : DigitKnowledge :=
  match confirmedCount k with
  | Some _ => k
  | None =>
      if (maxCount k =? 0)%Z
      then {| digit := digit k; confirmedCount := Some 0%Z;
              minCount := minCount k; maxCount := maxCount k |}
      else k
  end.

(** ** The fallback search of the frequency probe *)

(** The guesses the fallback search of [frequencyProbeGuess] visits. *)
Definition probe_sample (cs : list Code) : list Code :=
  strided (stride_of (length cs) (Nat.min (length cs) 500)) cs.

(** What the search loop of [frequencyProbeGuess] maintains after the guesses
    [seen], for the first candidate [first]. *)
Definition probe_invariant (cs : list Code) (first : Code) (seen : list Code)
  (best : option Code * nat) : Prop :=
  exists r,
    fst best = Some r
    /\ (In r seen \/ r = first)
    /\ max_partition r cs <= snd best
    /\ (forall g, In g seen -> snd best <= max_partition g cs).

(** ** The benchmark harness *)

(** What the result of a strategy played on [total] targets reports. *)
Definition result_consistent (total : nat) (r : StrategyResult) : Prop :=
  result_totalGames r = total
  /\ length (result_steps r) = total
  /\ Forall (fun s => 1 <= s <= 20) (result_steps r)
  /\ sum_list (snd <$> result_distribution r) = total
  /\ length (result_sampleGames r) <= 30.

(** What a progress report shows during a run of [names] on [total]
    targets. *)
Definition progress_consistent (names : list StrategyName) (total : nat)
  (p : BenchmarkProgress) : Prop :=
  totalGames p = total
  /\ gamesCompleted p <= total
  /\ totalStrategies p = length names
  /\ progress_strategy p = names !! strategyIndex p
  /\ (currentTarget p = EmptyString <-> gamesCompleted p = total).

(** What the variables of [runBenchmarkAsync] satisfy between two frames. *)
Definition bench_invariant (config : BenchmarkConfig) (st : BenchState) : Prop :=
  result_strategy <$> bench_results st = take (strategyIdx st) (strategies config)
  /\ Forall (result_consistent (length (bench_targets st))) (bench_results st)
  /\ length (stepResults st) = gameIdx st
  /\ Forall (fun s => 1 <= s <= 20) (stepResults st)
  /\ sum_list (snd <$> distribution st) = gameIdx st
  /\ length (sampleGames st) <= 30
  /\ gameIdx st <= length (bench_targets st).

(** What the [i]-th callback of a run shows, [events] being all of them. *)
Definition callback_consistent (config : BenchmarkConfig) (total : nat)
  (events : list Event) (i : nat) (e : Event) : Prop :=
  match e with
  | OnProgress p => progress_consistent (strategies config) total p
  | OnComplete results =>
      i + 1 = length events
      /\ result_strategy <$> results = strategies config
      /\ Forall (result_consistent total) results
  end.

(** * Properties *)

(** ** Strided loops *)

(** [strided step pool] lists [pool[0]], [pool[step]], [pool[2 * step]], ... *)
Lemma strided_from_lookup {A} (step : nat) (l : list A) :
  1 <= step ->
  forall skip k, strided_from skip step l !! k = l !! (skip + k * step).
Proof.
  intros Hstep. induction l as [|x l IH]; intros skip k; [reflexivity |].
  destruct skip as [|skip]; simpl.
  - destruct k as [|k]; [reflexivity |]. simpl. rewrite IH.
    replace (step + k * step) with (S (step - 1 + k * step)) by lia. reflexivity.
  - rewrite IH. reflexivity.
Qed.

Lemma strided_lookup {A} (step : nat) (l : list A) (k : nat) :
  1 <= step -> strided step l !! k = l !! (k * step).
Proof. intros Hstep. apply (strided_from_lookup step l Hstep 0 k). Qed.

Lemma stride_of_positive len limit : 1 <= stride_of len limit.
Proof. unfold stride_of. lia. Qed.

(** ** Feedback *)

Lemma digit_val_inj d e : digit_val d = digit_val e -> d = e.
Proof. destruct d, e; simpl; intros H; try reflexivity; discriminate H. Qed.

Lemma digit_val_lt d : digit_val d < 10.
Proof. destruct d; simpl; lia. Qed.

Lemma digit_of_nat_val d : digit_of_nat (digit_val d) = Some d.
Proof. destruct d; reflexivity. Qed.

Lemma histogram_lookup (ds : list Digit) (init : list nat) (k : Digit) :
  length init = 10 ->
  foldl (fun acc d => alter S (digit_val d) acc) init ds !!! digit_val k
  = init !!! digit_val k + length (filter (fun x => x = k) ds).
Proof.
  revert init. induction ds as [|a ds IH]; intros init Hlen; simpl.
  - lia.
  - rewrite IH by (rewrite length_alter; exact Hlen).
    rewrite list_lookup_total_alter, filter_cons.
    pose proof (digit_val_lt a) as Ha.
    destruct (decide (a = k)) as [->|Hne].
    + rewrite decide_True by (split; [reflexivity | lia]). simpl. lia.
    + rewrite decide_False; [lia |].
      intros [Heq _]. apply Hne, digit_val_inj, Heq.
Qed.

Lemma guessCount_lookup (g : Code) (k : Digit) :
  guessCount_of g !!! digit_val k = occurrences k g.
Proof.
  unfold guessCount_of, occurrences.
  change (foldl (fun acc i => alter S (digit_val (at_ g i)) acc) (replicate 10 0) (seq 0 4))
    with (foldl (fun acc d => alter S (digit_val d) acc) (replicate 10 0) (digits_of g)).
  rewrite histogram_lookup by reflexivity.
  destruct k; reflexivity.
Qed.

Lemma computeFeedback_counts (g t : Code) :
  computeFeedback g t
  = foldl (fun match_ d => match_ + Nat.min (guessCount_of g !!! d) (guessCount_of t !!! d))
          0 (seq 0 10).
Proof. reflexivity. Qed.

Lemma computeFeedback_spec (g t : Code) : computeFeedback g t = multiset_intersection g t.
Proof.
  rewrite computeFeedback_counts. unfold multiset_intersection. simpl.
  rewrite <- (guessCount_lookup g D0), <- (guessCount_lookup g D1),
    <- (guessCount_lookup g D2), <- (guessCount_lookup g D3),
    <- (guessCount_lookup g D4), <- (guessCount_lookup g D5),
    <- (guessCount_lookup g D6), <- (guessCount_lookup g D7),
    <- (guessCount_lookup g D8), <- (guessCount_lookup g D9).
  rewrite <- (guessCount_lookup t D0), <- (guessCount_lookup t D1),
    <- (guessCount_lookup t D2), <- (guessCount_lookup t D3),
    <- (guessCount_lookup t D4), <- (guessCount_lookup t D5),
    <- (guessCount_lookup t D6), <- (guessCount_lookup t D7),
    <- (guessCount_lookup t D8), <- (guessCount_lookup t D9).
  simpl. lia.
Qed.

Lemma occurrences_total (ds : list Digit) :
  sum_list ((fun d => length (filter (fun x => x = d) ds)) <$> all_digits) = length ds.
Proof.
  induction ds as [|a ds IH]; [reflexivity |].
  simpl in *. rewrite !filter_cons.
  destruct a; simpl; lia.
Qed.

Lemma multiset_intersection_le (g t : Code) : multiset_intersection g t <= 4.
Proof.
  pose proof (occurrences_total (digits_of g)) as H.
  unfold multiset_intersection. change (length (digits_of g)) with 4 in H.
  unfold occurrences. simpl in *. lia.
Qed.

(** C1. For all codes [g] and [t], [computeFeedback g t] is the sum over the
    digit values [d] of the smaller of the number of occurrences of [d] in
    [g] and in [t]; it lies between 0 and 4; and the feedback of the guess
    4527 against the target 1302 is 1. *)
Theorem C1_computeFeedback_multiset_intersection :
  forall g t : Code,
    computeFeedback g t
    = sum_list ((fun d => Nat.min (occurrences d g) (occurrences d t)) <$> all_digits)
    /\ 0 <= computeFeedback g t <= 4
    /\ computeFeedback (mkCode D4 D5 D2 D7) (mkCode D1 D3 D0 D2) = 1.
Proof.
  intros g t. split; [apply computeFeedback_spec |]. split; [| reflexivity].
  rewrite computeFeedback_spec. split; [lia | apply multiset_intersection_le].
Qed.

(** ** Filtering *)

Lemma filterCandidates_In cs g f c :
  In c (filterCandidates cs g f) <-> In c cs /\ Z.of_nat (computeFeedback g c) = f.
Proof.
  unfold filterCandidates. rewrite filter_In, Z.eqb_eq. reflexivity.
Qed.

Lemma filterCandidates_sublist cs g f : sublist (filterCandidates cs g f) cs.
Proof.
  unfold filterCandidates. induction cs as [|c cs IH]; simpl.
  - constructor.
  - destruct (Z.of_nat (computeFeedback g c) =? f)%Z; constructor; exact IH.
Qed.

Lemma filterCandidates_idem cs g f :
  filterCandidates (filterCandidates cs g f) g f = filterCandidates cs g f.
Proof.
  unfold filterCandidates. induction cs as [|c cs IH]; simpl; [reflexivity |].
  destruct (Z.of_nat (computeFeedback g c) =? f)%Z eqn:E; simpl.
  - rewrite E, IH. reflexivity.
  - exact IH.
Qed.

(** C2. For every candidate list [cs], guess [g] and feedback value [f],
    [filterCandidates cs g f] is the sublist of [cs] (same order, same
    multiplicities) made of exactly the members [c] with
    [computeFeedback g c = f]; it is no longer than [cs]; and filtering the
    result again by the same [(g, f)] returns it unchanged. *)
Theorem C2_filterCandidates_exact_sublist_idempotent :
  forall (cs : list Code) (g : Code) (f : Z),
    sublist (filterCandidates cs g f) cs
    /\ (forall c, In c (filterCandidates cs g f)
                  <-> In c cs /\ Z.of_nat (computeFeedback g c) = f)
    /\ length (filterCandidates cs g f) <= length cs
    /\ filterCandidates (filterCandidates cs g f) g f = filterCandidates cs g f.
Proof.
  intros cs g f. split; [apply filterCandidates_sublist |].
  split; [intros c; apply filterCandidates_In |].
  split; [apply sublist_length, filterCandidates_sublist |].
  apply filterCandidates_idem.
Qed.

(** ** Parsing a code *)


Lemma digit_of_number_val d : digit_of_number (Z.of_nat (digit_val d)) = Some d.
Proof. destruct d; reflexivity. Qed.

Lemma digit_range_test d :
  ((Z.of_nat (digit_val d) <? 0)%Z || (9 <? Z.of_nat (digit_val d))%Z) = false.
Proof. destruct d; reflexivity. Qed.


(** C8. [stringToCode] accepts a string that is not made of four decimal
    digits: on the four characters 1, 2, space, 3 it returns the code 1203
    (the space reads as the number 0), where a failure is specified. *)
Theorem C8_stringToCode_accepts_whitespace :
  stringToCode "12 3" = Some (mkCode D1 D2 D0 D3)
  /\ forallb is_decimal_digit (list_ascii_of_string "12 3") = false.
Proof. split; reflexivity. Qed.

(** ** Knowledge deduction *)

Lemma monochromatic_eta c : monochromatic c -> c = mkCode (c0 c) (c0 c) (c0 c) (c0 c).
Proof. destruct c as [a b c d]; intros (H1 & H2 & H3); simpl in *; subst; reflexivity. Qed.

Lemma analyze_round_monochromatic ds r fb :
  monochromatic (guess r) -> feedback r = Some fb ->
  analyze_round ds r = alter (set_confirmed fb) (digit_val (c0 (guess r))) ds.
Proof.
  intros Hm Hf. unfold analyze_round. rewrite Hf.
  rewrite (monochromatic_eta _ Hm). destruct (c0 (guess r)); reflexivity.
Qed.

Lemma confirmed_sum_cons k ds :
  confirmed_sum (k :: ds) = (default 0 (confirmedCount k) + confirmed_sum ds)%Z.
Proof. reflexivity. Qed.

Lemma confirmed_sum_alter (ds : list DigitKnowledge) (i : nat) k fb :
  ds !! i = Some k -> confirmedCount k = None ->
  confirmed_sum (alter (set_confirmed fb) i ds) = (confirmed_sum ds + fb)%Z.
Proof.
  revert i. induction ds as [|x ds IH]; intros i Hi Hk; [discriminate Hi |].
  destruct i as [|i].
  - injection Hi as ->.
    change (confirmed_sum (set_confirmed fb k :: ds)
            = (confirmed_sum (k :: ds) + fb)%Z).
    rewrite !confirmed_sum_cons, Hk. simpl. lia.
  - change (confirmed_sum (x :: alter (set_confirmed fb) i ds)
            = (confirmed_sum (x :: ds) + fb)%Z).
    rewrite !confirmed_sum_cons, (IH i Hi Hk). lia.
Qed.

Lemma digit_alter_set_confirmed fb (i : nat) (ds : list DigitKnowledge) :
  digit <$> alter (set_confirmed fb) i ds = digit <$> ds.
Proof.
  revert i. induction ds as [|x ds IH]; intros [|i]; simpl; try reflexivity.
  f_equal. apply IH.
Qed.

(** After the rounds of a history of monochromatic guesses on pairwise
    distinct digits, the confirmed counts add up to the feedbacks. *)
Lemma rounds_confirmed_sum (h : list GameRound) :
  forall ds : list DigitKnowledge,
    length ds = 10 ->
    Forall (fun r => monochromatic (guess r) /\ is_Some (feedback r)) h ->
    NoDup ((fun r => c0 (guess r)) <$> h) ->
    (forall r, In r h ->
       exists k, ds !! digit_val (c0 (guess r)) = Some k /\ confirmedCount k = None) ->
    confirmed_sum (foldl analyze_round ds h) = (confirmed_sum ds + feedback_total h)%Z
    /\ digit <$> foldl analyze_round ds h = digit <$> ds.
Proof.
  induction h as [|r h IH]; intros ds Hlen Hall Hnd Hnone; simpl.
  - split; [lia | reflexivity].
  - inversion Hall as [|? ? [Hm [fb Hfb]] Hall']; subst.
    inversion Hnd as [|? ? Hnotin Hnd']; subst.
    destruct (Hnone r (or_introl eq_refl)) as (k & Hk & Hkc).
    rewrite (analyze_round_monochromatic ds r fb Hm Hfb).
    destruct (IH (alter (set_confirmed fb) (digit_val (c0 (guess r))) ds)) as [IH1 IH2].
    + rewrite length_alter. exact Hlen.
    + exact Hall'.
    + exact Hnd'.
    + intros r' Hr'.
      destruct (Hnone r' (or_intror Hr')) as (k' & Hk' & Hkc').
      exists k'. split; [| exact Hkc'].
      rewrite list_lookup_alter_ne; [exact Hk' |].
      intros Heq. apply digit_val_inj in Heq.
      apply Hnotin. rewrite list_elem_of_In. apply in_map_iff.
      exists r'. split; [symmetry; exact Heq | exact Hr'].
    + rewrite IH1, IH2, (confirmed_sum_alter ds _ k fb Hk Hkc), Hfb.
      rewrite digit_alter_set_confirmed. simpl. split; [lia | reflexivity].
Qed.

Lemma knownSum_confirmed_sum (ds : list DigitKnowledge) (ks : Z) (uc : nat) :
  fst (foldl (fun '(ks, uc) k =>
                match confirmedCount k with
                | Some c => ((ks + c)%Z, uc)
                | None => (ks, S uc)
                end) (ks, uc) ds)
  = (ks + confirmed_sum ds)%Z.
Proof.
  revert ks uc. induction ds as [|k ds IH]; intros ks uc; simpl.
  - lia.
  - destruct (confirmedCount k); rewrite IH; simpl; lia.
Qed.

Lemma classify_known_step acc k v :
  confirmedCount k = Some v ->
  snd (classify_digit acc k) = snd acc
  /\ forall d, d = digit k \/ In d (snd (fst (fst acc))) \/ In d (snd (fst acc)) ->
               In d (snd (fst (fst (classify_digit acc k))))
               \/ In d (snd (fst (classify_digit acc k))).
Proof.
  intros Hv. destruct acc as [[[a c] e] u]. unfold classify_digit. rewrite Hv.
  destruct (0 <? v)%Z; simpl; (split; [reflexivity |]);
    intros d Hd; rewrite ?in_app_iff; simpl; intuition auto.
Qed.

(** The classifying loop on a table without unknown counts: the list of
    undetermined digits stays as it is and every digit of the table lands among
    the confirmed or the eliminated ones. *)
Lemma classify_all_known (ds : list DigitKnowledge) :
  forall acc,
    Forall (fun k => is_Some (confirmedCount k)) ds ->
    snd (foldl classify_digit acc ds) = snd acc
    /\ forall d, In d (digit <$> ds) \/ In d (snd (fst (fst acc))) \/ In d (snd (fst acc)) ->
                 In d (snd (fst (fst (foldl classify_digit acc ds))))
                 \/ In d (snd (fst (foldl classify_digit acc ds))).
Proof.
  induction ds as [|k ds IH]; intros acc Hall.
  - split; [reflexivity |]. intros d [[]|H]; exact H.
  - inversion Hall as [|? ? [v Hv] Hall']; subst.
    change (foldl classify_digit acc (k :: ds))
      with (foldl classify_digit (classify_digit acc k) ds).
    destruct (IH (classify_digit acc k) Hall') as [IH1 IH2].
    destruct (classify_known_step acc k v Hv) as [S1 S2].
    split; [rewrite IH1; exact S1 |].
    intros d Hd. apply IH2.
    destruct Hd as [[Hd|Hd]|Hd].
    + right. apply S2. left. symmetry. exact Hd.
    + left. exact Hd.
    + right. apply S2. right. exact Hd.
Qed.

Lemma digit_map_preserved (f : DigitKnowledge -> DigitKnowledge) (l : list DigitKnowledge) :
  (forall k, digit (f k) = digit k) -> digit <$> map f l = digit <$> l.
Proof.
  intros Hf. induction l as [|k l IH]; simpl; [reflexivity |].
  rewrite Hf. f_equal. exact IH.
Qed.

Lemma initial_table_unknown (d : Digit) :
  exists k,
    ((fun d => {| digit := d; confirmedCount := None; minCount := 0; maxCount := 4 |})
       <$> seq 0 10) !! digit_val d = Some k
    /\ confirmedCount k = None.
Proof. destruct d; eexists; split; reflexivity. Qed.

(** C5 (amended). For every history that consists only of monochromatic
    guesses on pairwise distinct digits, each with a feedback, whose
    feedbacks sum to 4, [analyzeKnowledge] returns a state with
    [compositionKnown = true], no undetermined digit, and every digit 0..9
    among the confirmed or the eliminated ones. *)
Theorem C5_monochromatic_distinct_composition_known :
  forall h : list GameRound,
    Forall (fun r => monochromatic (guess r) /\ is_Some (feedback r)) h ->
    NoDup ((fun r => c0 (guess r)) <$> h) ->
    feedback_total h = 4%Z ->
    compositionKnown (analyzeKnowledge h) = true
    /\ unknownDigits (analyzeKnowledge h) = []
    /\ forall d, d < 10 ->
         In d (confirmedDigits (analyzeKnowledge h))
         \/ In d (eliminatedDigits (analyzeKnowledge h)).
Proof.
  intros h Hall Hnd Hsum.
  unfold analyzeKnowledge.
  set (digits0 := map _ (seq 0 10)).
  destruct (rounds_confirmed_sum h digits0 eq_refl Hall Hnd) as [Hcs Hdig].
  { intros r _. apply initial_table_unknown. }
  set (ds1 := foldl analyze_round digits0 h) in *.
  pose proof (knownSum_confirmed_sum ds1 0 0) as Hks.
  destruct (foldl _ (0%Z, 0) ds1) as [ks uc]. simpl in Hks.
  change (confirmed_sum digits0) with 0%Z in Hcs.
  assert (ks = 4%Z) as -> by lia.
  change (4 - 4 =? 0)%Z with true. cbv iota.
  set (digits3 := map _ (map _ ds1)).
  assert (Forall (fun k => is_Some (confirmedCount k)) digits3) as Hknown.
  { subst digits3. rewrite !Forall_map. apply Forall_forall. intros k _.
    destruct k as [dg [v|] mn mx]; simpl; eexists; reflexivity. }
  assert (digit <$> digits3 = seq 0 10) as Hdigits.
  { transitivity (digit <$> ds1); [| rewrite Hdig; reflexivity].
    subst digits3.
    rewrite !digit_map_preserved; [reflexivity | |];
      intros k; destruct k as [dg [v|] mn mx]; reflexivity. }
  destruct (classify_all_known digits3 ([], [], [], []) Hknown) as [Hu Hd].
  destruct (foldl classify_digit ([], [], [], []) digits3) as [[[a c] e] u].
  simpl in Hu, Hd. subst u. simpl.
  split; [reflexivity |]. split; [reflexivity |].
  intros d Hlt. apply Hd. left. rewrite Hdigits. apply in_seq. lia.
Qed.

Lemma C5_monochromatic_distinct_witness :
  let h := [mkGameRound 0 (mkCode D0 D0 D0 D0) (Some 1%Z) false;
            mkGameRound 1 (mkCode D1 D1 D1 D1) (Some 3%Z) false] in
  compositionKnown (analyzeKnowledge h) = true
  /\ unknownDigits (analyzeKnowledge h) = []
  /\ forall d, d < 10 ->
       In d (confirmedDigits (analyzeKnowledge h))
       \/ In d (eliminatedDigits (analyzeKnowledge h)).
Proof.
  apply C5_monochromatic_distinct_composition_known.
  - repeat constructor; eexists; reflexivity.
  - simpl. repeat constructor; rewrite ?list_elem_of_In; simpl; intuition discriminate.
  - reflexivity.
Defined.

(** The history that guesses 3333 twice, with feedback 2 each time: it
    consists of monochromatic guesses only and its feedbacks sum to 4, yet
    the composition is not known and nine digits stay undetermined. *)
Lemma C5_repeated_digit_counterexample :
  let h := [mkGameRound 0 (mkCode D3 D3 D3 D3) (Some 2%Z) false;
            mkGameRound 1 (mkCode D3 D3 D3 D3) (Some 2%Z) false] in
  Forall (fun r => monochromatic (guess r) /\ is_Some (feedback r)) h
  /\ feedback_total h = 4%Z
  /\ compositionKnown (analyzeKnowledge h) = false
  /\ unknownDigits (analyzeKnowledge h) = [0; 1; 2; 4; 5; 6; 7; 8; 9].
Proof.
  split; [| repeat split; reflexivity].
  repeat constructor; eexists; reflexivity.
Qed.

(** ** Every strategy yields a guess *)

(** A loop keeps what its body keeps. *)
Lemma foldl_invariant {S A} (P : S -> Prop) (body : S -> A -> S) (l : list A) :
  forall init,
    P init -> (forall s x, In x l -> P s -> P (body s x)) -> P (foldl body init l).
Proof.
  induction l as [|x l IH]; intros init Hinit Hbody; simpl; [exact Hinit |].
  apply IH.
  - apply Hbody; [left; reflexivity | exact Hinit].
  - intros s y Hy. apply Hbody. right. exact Hy.
Qed.

Lemma probe_body_some cs best g :
  is_Some (fst best) -> is_Some (fst (probe_body cs best g)).
Proof.
  destruct best as [bg bw]. unfold probe_body.
  destruct (_ <? _); simpl; [eexists; reflexivity | trivial].
Qed.

Lemma bench_minimax_body_some cs best g :
  is_Some (fst (fst best)) -> is_Some (fst (fst (Benchmark.minimax_body cs best g))).
Proof.
  destruct best as [[bg bw] bic]. unfold Benchmark.minimax_body.
  destruct (_ || _); simpl; [eexists; reflexivity | trivial].
Qed.

Lemma engine_minimax_body_some cs best g :
  is_Some (fst (fst (fst best)))
  -> is_Some (fst (fst (fst (Engine.minimax_body cs best g)))).
Proof.
  destruct best as [[[bg bw] bp] bic]. unfold Engine.minimax_body.
  destruct (_ || _); simpl; [eexists; reflexivity | trivial].
Qed.

Section Totality.
Context {N : JSNumber}.

Lemma bench_entropy_body_some cs n best g :
  is_Some (fst best) -> is_Some (fst (Benchmark.entropy_body cs n best g)).
Proof.
  destruct best as [bg be]. unfold Benchmark.entropy_body.
  destruct (num_gt _ _); simpl; [eexists; reflexivity | trivial].
Qed.

Lemma engine_entropy_body_some cs n best g :
  is_Some (fst (fst best)) -> is_Some (fst (fst (Engine.entropy_body cs n best g))).
Proof.
  destruct best as [[bg be] bp]. unfold Engine.entropy_body.
  destruct (num_gt _ _); simpl; [eexists; reflexivity | trivial].
Qed.

Lemma frequencyProbeGuess_some c cs all round :
  is_Some (frequencyProbeGuess (c :: cs) all round).
Proof.
  unfold frequencyProbeGuess.
  destruct (_ && _) eqn:E.
  - apply andb_true_iff in E as [E _]. apply Nat.ltb_lt in E.
    apply lookup_lt_is_Some. exact E.
  - destruct (_ <=? 2); [eexists; reflexivity |].
    apply (foldl_invariant (fun s => is_Some (fst s))); [eexists; reflexivity |].
    intros s x _. apply probe_body_some.
Qed.

Lemma minimaxGuess_some c cs all round : is_Some (minimaxGuess (c :: cs) all round).
Proof.
  unfold minimaxGuess.
  destruct (_ <=? 2); [eexists; reflexivity |].
  apply (foldl_invariant (fun s => is_Some (fst (fst s)))); [eexists; reflexivity |].
  intros s x _. apply bench_minimax_body_some.
Qed.

Lemma maxEntropyGuess_some c cs all round : is_Some (maxEntropyGuess (c :: cs) all round).
Proof.
  unfold maxEntropyGuess.
  destruct (_ <=? 2); [eexists; reflexivity |].
  apply (foldl_invariant (fun s => is_Some (fst s))); [eexists; reflexivity |].
  intros s x _. apply bench_entropy_body_some.
Qed.

Lemma hybridGuess_some c cs all round : is_Some (hybridGuess (c :: cs) all round).
Proof.
  unfold hybridGuess. cbv zeta.
  destruct (_ && _) eqn:E.
  - apply andb_true_iff in E as [E _]. apply Nat.ltb_lt in E.
    apply lookup_lt_is_Some. exact E.
  - destruct (_ <=? 200); [apply minimaxGuess_some | apply maxEntropyGuess_some].
Qed.

Lemma getGuess_some strategy c cs all round :
  is_Some (getGuess strategy (c :: cs) all round).
Proof.
  destruct strategy; simpl.
  - apply frequencyProbeGuess_some.
  - apply maxEntropyGuess_some.
  - apply minimaxGuess_some.
  - apply hybridGuess_some.
Qed.

Lemma getSmartGuess_some cs all round h : is_Some (smart_guess (getSmartGuess cs all round h)).
Proof.
  unfold getSmartGuess. cbv zeta.
  destruct (length cs <=? 1) eqn:E1; [eexists; reflexivity |].
  apply Nat.leb_gt in E1.
  destruct cs as [|c cs]; [simpl in E1; lia |].
  destruct (_ =? 2); [eexists; reflexivity |].
  destruct (_ && _) eqn:E.
  { apply andb_true_iff in E as [E _]. apply Nat.ltb_lt in E.
    apply lookup_lt_is_Some. exact E. }
  destruct (_ <=? 200).
  { destruct (foldl _ _ _) as [[[bg bw] bp] bic] eqn:F. simpl.
    change bg with (fst (fst (fst (bg, bw, bp, bic)))). rewrite <- F.
    apply (foldl_invariant (fun s => is_Some (fst (fst (fst s))))); [eexists; reflexivity |].
    intros s x _. apply engine_minimax_body_some. }
  destruct (_ <=? 1000).
  { destruct (foldl _ _ _) as [[bg be] bp] eqn:F. simpl.
    change bg with (fst (fst (bg, be, bp))). rewrite <- F.
    apply (foldl_invariant (fun s => is_Some (fst (fst s)))); [eexists; reflexivity |].
    intros s x _. apply engine_entropy_body_some. }
  destruct (foldl _ _ _) as [[bg be] bp] eqn:F. simpl.
  change bg with (fst (fst (bg, be, bp))). rewrite <- F.
  apply (foldl_invariant (fun s => is_Some (fst (fst s)))); [eexists; reflexivity |].
  intros s x _. apply engine_entropy_body_some.
Qed.

(** With one candidate every strategy returns it, with two the first. *)
Lemma strategies_one_candidate strategy c all round h :
  getGuess strategy [c] all round = Some c
  /\ smart_guess (getSmartGuess [c] all round h) = Some c.
Proof.
  split; [| reflexivity].
  destruct strategy; unfold getGuess, hybridGuess, frequencyProbeGuess; cbv zeta;
    rewrite ?andb_false_r; reflexivity.
Qed.

Lemma strategies_two_candidates strategy c c' all round h :
  getGuess strategy [c; c'] all round = Some c
  /\ smart_guess (getSmartGuess [c; c'] all round h) = Some c.
Proof.
  split; [| reflexivity].
  destruct strategy; unfold getGuess, hybridGuess, frequencyProbeGuess; cbv zeta;
    rewrite ?andb_false_r; reflexivity.
Qed.

End Totality.


(** ** The simulator keeps the target among the candidates *)

Lemma all_digits_complete (d : Digit) : d ∈ all_digits.
Proof. destruct d; unfold all_digits; set_solver. Qed.

Lemma generateAllCodes_complete (c : Code) : In c generateAllCodes.
Proof.
  apply list_elem_of_In. destruct c as [a b c d]. unfold generateAllCodes.
  apply list_elem_of_bind. exists a. split; [| apply all_digits_complete].
  apply list_elem_of_bind. exists b. split; [| apply all_digits_complete].
  apply list_elem_of_bind. exists c. split; [| apply all_digits_complete].
  apply list_elem_of_bind. exists d. split; [| apply all_digits_complete].
  apply list_elem_of_singleton. reflexivity.
Qed.

Section Simulation.
Context {N : JSNumber}.
Variables (strategy : StrategyName) (target : Code) (allCodes : list Code) (maxSteps : nat).

Lemma simulate_round_continue st st' :
  simulate_round strategy target allCodes maxSteps st = Continue st' ->
  sim_round st' = sim_round st + 1
  /\ exists guess,
       sim_candidates st'
       = filterCandidates (sim_candidates st) guess
           (Z.of_nat (computeFeedback guess target)).
Proof.
  unfold simulate_round.
  destruct (getGuess _ _ _ _) as [guess|]; [| discriminate].
  destruct (isExactMatch _ _); [discriminate |].
  destruct (_ =? 0); [discriminate |].
  intros H. injection H as <-. simpl. split; [reflexivity |].
  exists guess. reflexivity.
Qed.

Lemma target_stays_candidate st :
  In target allCodes ->
  sim_reachable strategy target allCodes maxSteps st -> In target (sim_candidates st).
Proof.
  intros Hin Hreach. induction Hreach as [|st st' _ IH _ Hstep]; [exact Hin |].
  apply simulate_round_continue in Hstep as [_ [guess ->]].
  apply filterCandidates_In. split; [exact IH | reflexivity].
Qed.

Lemma simulate_round_sound st :
  In target (sim_candidates st) ->
  simulate_round strategy target allCodes maxSteps st <> Thrown
  /\ forall result,
       simulate_round strategy target allCodes maxSteps st
       <> Returned EmptyCandidates result.
Proof.
  intros Hin. unfold simulate_round.
  destruct (sim_candidates st) as [|c cs] eqn:Ecs; [destruct Hin |].
  destruct (getGuess_some strategy c cs allCodes (sim_round st)) as [guess ->].
  destruct (isExactMatch _ _); [split; [|intros result]; discriminate |].
  destruct (_ =? 0) eqn:E; [| split; [|intros result]; discriminate].
  exfalso. apply Nat.eqb_eq in E.
  assert (In target (filterCandidates (c :: cs) guess
                       (Z.of_nat (computeFeedback guess target)))) as Hf.
  { apply filterCandidates_In. split; [exact Hin | reflexivity]. }
  destruct (filterCandidates _ _ _); [destruct Hf | discriminate E].
Qed.

Lemma simulate_rounds_sound remaining :
  forall st,
    In target allCodes ->
    sim_reachable strategy target allCodes maxSteps st ->
    sim_round st + remaining = maxSteps ->
    simulate_rounds strategy target allCodes maxSteps remaining st <> None
    /\ forall result,
         simulate_rounds strategy target allCodes maxSteps remaining st
         <> Some (EmptyCandidates, result).
Proof.
  induction remaining as [|remaining IH]; intros st Hin Hreach Hround; simpl.
  - split; [|intros result]; discriminate.
  - destruct (simulate_round_sound st (target_stays_candidate st Hin Hreach)) as [H1 H2].
    destruct (simulate_round _ _ _ _ st) as [exit result|st'|] eqn:E.
    + split; [discriminate |]. intros result' Heq. injection Heq as -> ->.
      apply (H2 result'). reflexivity.
    + destruct (simulate_round_continue st st' E) as [Hr _].
      apply IH; [exact Hin | | lia].
      apply (reach_next _ _ _ _ st st' Hreach); [lia | exact E].
    + exfalso. apply H1. reflexivity.
Qed.

End Simulation.

(** C7. For every strategy and every target, in a game simulated over the
    full code space the target is a member of the candidate list of every loop
    state, hence after every filtering step; no iteration takes the
    empty-candidates return nor throws; and [simulateGame] itself returns a
    result that does not come from the empty-candidates return. *)
Theorem C7_target_remains_candidate :
  forall (N : JSNumber) (strategy : StrategyName) (target : Code) (maxSteps : nat),
    (forall st,
       sim_reachable strategy target generateAllCodes maxSteps st ->
       In target (sim_candidates st)
       /\ sim_candidates st <> []
       /\ simulate_round strategy target generateAllCodes maxSteps st <> Thrown
       /\ forall result,
            simulate_round strategy target generateAllCodes maxSteps st
            <> Returned EmptyCandidates result)
    /\ (exists exit result,
          simulateGame strategy target generateAllCodes maxSteps = Some (exit, result)
          /\ exit <> EmptyCandidates).
Proof.
  intros N strategy target maxSteps.
  pose proof (generateAllCodes_complete target) as Hin. split.
  - intros st Hreach.
    pose proof (target_stays_candidate strategy target _ maxSteps st Hin Hreach) as Ht.
    split; [exact Ht |]. split.
    + intros Hnil. rewrite Hnil in Ht. destruct Ht.
    + apply simulate_round_sound. exact Ht.
  - destruct (simulate_rounds_sound strategy target generateAllCodes maxSteps maxSteps
                {| sim_round := 0; sim_candidates := generateAllCodes; sim_guesses := [] |}
                Hin (reach_start _ _ _ _) eq_refl) as [H1 H2].
    unfold simulateGame.
    destruct (simulate_rounds _ _ _ _ _ _) as [[exit result]|]; [| exfalso; apply H1; reflexivity].
    exists exit, result. split; [reflexivity |].
    intros ->. apply (H2 result). reflexivity.
Qed.

(** ** Random targets *)

Lemma digit_char_inj d e : digit_char d = digit_char e -> d = e.
Proof. destruct d, e; intros H; try reflexivity; discriminate H. Qed.

Lemma codeToString_inj c c' : codeToString c = codeToString c' -> c = c'.
Proof.
  destruct c as [a b c d], c' as [a' b' c' d']. unfold codeToString. simpl.
  intros H. injection H as Ha Hb Hc Hd.
  apply digit_char_inj in Ha, Hb, Hc, Hd. subst. reflexivity.
Qed.

Lemma gen_invariant_start s :
  gen_invariant {| gen_s := s; gen_targets := []; gen_seen := ∅ |}.
Proof. split; [constructor |]. intros c. simpl. set_solver. Qed.

Lemma generate_body_invariant st : gen_invariant st -> gen_invariant (generate_body st).
Proof.
  intros [Hnd Hseen]. unfold generate_body.
  destruct (rand (gen_s st)) as [s1 u1]. destruct (rand s1) as [s2 u2].
  destruct (rand s2) as [s3 u3]. destruct (rand s3) as [s4 u4].
  set (code := mkCode _ _ _ _).
  destruct (bool_decide _) eqn:E.
  - split; [exact Hnd | exact Hseen].
  - apply bool_decide_eq_false in E. split; simpl.
    + apply NoDup_app. split; [exact Hnd |]. split; [| apply NoDup_singleton].
      intros x Hx Hx'. apply list_elem_of_singleton in Hx'. subst x.
      apply E, Hseen, Hx.
    + intros c. rewrite elem_of_union, elem_of_singleton, elem_of_app,
        list_elem_of_singleton, Hseen.
      split; intros [H|H].
      * right. apply codeToString_inj. exact H.
      * left. exact H.
      * right. exact H.
      * left. rewrite H. reflexivity.
Qed.





(** ** The generation loop beyond 10,000 targets *)

Lemma distinct_codes_bound (l : list Code) : NoDup l -> (Z.of_nat (length l) <= 10000)%Z.
Proof.
  intros Hnd. apply NoDup_ListNoDup in Hnd.
  assert (length l <= length generateAllCodes) as Hle.
  { apply NoDup_incl_length; [exact Hnd |]. intros c _. apply generateAllCodes_complete. }
  assert (Z.of_nat (length generateAllCodes) = 10000%Z) as Hall by (vm_compute; reflexivity).
  lia.
Qed.

Lemma generate_loop_diverges fuel count :
  (10000 < count)%Z ->
  forall st, gen_invariant st -> generate_loop fuel count st = None.
Proof.
  intros Hcount. induction fuel as [|fuel IH]; intros st Hinv; simpl;
    pose proof (distinct_codes_bound _ (proj1 Hinv)) as Hle;
    (destruct (_ <? _)%Z eqn:E; [| apply Z.ltb_ge in E; lia]).
  - reflexivity.
  - apply IH, generate_body_invariant, Hinv.
Qed.

(** C10. For every count above 10,000, [generateRandomTargets] has not
    returned after any number of iterations of its loop, whatever the seed
    and the clock; a benchmark configured with so many targets therefore
    never gets past its synchronous part, and no progress or completion
    callback is ever invoked. A run that returns has a count of at most
    10,000. *)
Theorem C10_generateRandomTargets_diverges_above_10000 :
  forall (count : Z) (seed : option Z) (strategies : list StrategyName),
    (10000 < count)%Z ->
    forall (N : JSNumber) (fuel : nat) (now : Z) (cancels : list bool),
      generateRandomTargets fuel now count seed = None
      /\ runBenchmarkAsync fuel now (mkBenchmarkConfig count strategies seed) = None
      /\ callbacks_invoked fuel now (mkBenchmarkConfig count strategies seed) cancels = [].
Proof.
  intros count seed strategies Hcount N fuel now cancels.
  assert (generateRandomTargets fuel now count seed = None) as Hgen.
  { unfold generateRandomTargets.
    rewrite (generate_loop_diverges fuel count Hcount _ (gen_invariant_start _)).
    reflexivity. }
  assert (runBenchmarkAsync fuel now (mkBenchmarkConfig count strategies seed) = None) as Hrun.
  { unfold runBenchmarkAsync. simpl. rewrite Hgen. reflexivity. }
  split; [exact Hgen |]. split; [exact Hrun |].
  unfold callbacks_invoked. rewrite Hrun. reflexivity.
Qed.

Lemma C10_generateRandomTargets_witness :
  generateRandomTargets 50 0 10001 (Some 42%Z) = None
  /\ runBenchmarkAsync 50 0 (mkBenchmarkConfig 10001 [hybrid] (Some 42%Z)) = None
  /\ @callbacks_invoked Q_number 50 0 (mkBenchmarkConfig 10001 [hybrid] (Some 42%Z))
       [false; false] = [].
Proof.
  apply (C10_generateRandomTargets_diverges_above_10000 10001 (Some 42%Z) [hybrid]).
  reflexivity.
Defined.

(** ** Partitions *)

Lemma record_get_absent fb parts :
  Forall (fun k => fb < k) (fst <$> parts) -> record_get fb parts = 0.
Proof.
  unfold record_get. induction parts as [|[k v] parts IH]; intros H; [reflexivity |].
  inversion H as [|? ? Hk H']; subst. simpl in *.
  destruct (k =? fb) eqn:E; [apply Nat.eqb_eq in E; lia | apply IH, H'].
Qed.

Lemma record_incr_keys fb k parts :
  In k (fst <$> record_incr fb parts) <-> k = fb \/ In k (fst <$> parts).
Proof.
  induction parts as [|[k0 v0] parts IH]; simpl.
  - intuition congruence.
  - destruct (fb =? k0) eqn:E1.
    { apply Nat.eqb_eq in E1. subst k0. simpl. intuition congruence. }
    destruct (fb <? k0); simpl; [intuition congruence |].
    rewrite IH. tauto.
Qed.

Lemma record_incr_ascending fb parts :
  keys_ascending parts -> keys_ascending (record_incr fb parts).
Proof.
  unfold keys_ascending. induction parts as [|[k0 v0] parts IH]; intros Hs; simpl.
  - repeat constructor.
  - inversion Hs as [|? ? Hs' Hall]; subst.
    destruct (fb =? k0) eqn:E1; [constructor; assumption |].
    destruct (fb <? k0) eqn:E2.
    + apply Nat.ltb_lt in E2. constructor; [exact Hs |].
      constructor; [exact E2 |]. simpl.
      eapply Forall_impl; [exact Hall |]. simpl. intros; lia.
    + apply Nat.eqb_neq in E1. apply Nat.ltb_ge in E2. simpl.
      constructor; [apply IH, Hs' |].
      apply Forall_forall. intros k Hk. apply list_elem_of_In, record_incr_keys in Hk.
      destruct Hk as [->|Hk]; [lia |].
      rewrite Forall_forall in Hall. apply Hall, list_elem_of_In, Hk.
Qed.

Lemma record_incr_get fb k parts :
  keys_ascending parts ->
  record_get k (record_incr fb parts)
  = if k =? fb then record_get k parts + 1 else record_get k parts.
Proof.
  unfold keys_ascending. induction parts as [|[k0 v0] parts IH]; intros Hs.
  - unfold record_get. simpl. rewrite (Nat.eqb_sym fb k). destruct (k =? fb); reflexivity.
  - inversion Hs as [|? ? Hs' Hall]; subst. simpl.
    destruct (fb =? k0) eqn:E1.
    + apply Nat.eqb_eq in E1. subst k0. unfold record_get. simpl.
      rewrite (Nat.eqb_sym fb k). destruct (k =? fb); reflexivity.
    + destruct (fb <? k0) eqn:E2.
      * apply Nat.ltb_lt in E2.
        destruct (k =? fb) eqn:E3.
        -- apply Nat.eqb_eq in E3. subst k.
           rewrite (record_get_absent fb ((k0, v0) :: parts)).
           ++ unfold record_get. simpl. rewrite Nat.eqb_refl. reflexivity.
           ++ simpl. constructor; [exact E2 |].
              eapply Forall_impl; [exact Hall |]. simpl. intros; lia.
        -- unfold record_get. simpl. rewrite (Nat.eqb_sym fb k), E3. reflexivity.
      * specialize (IH Hs'). unfold record_get in *. simpl.
        destruct (k0 =? k) eqn:E3; [| exact IH].
        apply Nat.eqb_eq in E3. subst k0. rewrite (Nat.eqb_sym k fb), E1. reflexivity.
Qed.

Lemma map_incr_keys fb k parts :
  In k (fst <$> map_incr fb parts) <-> k = fb \/ In k (fst <$> parts).
Proof.
  induction parts as [|[k0 v0] parts IH]; simpl.
  - intuition congruence.
  - destruct (fb =? k0) eqn:E1.
    { apply Nat.eqb_eq in E1. subst k0. simpl. intuition congruence. }
    simpl. rewrite IH. tauto.
Qed.

Lemma map_incr_NoDup fb parts :
  NoDup (fst <$> parts) -> NoDup (fst <$> map_incr fb parts).
Proof.
  induction parts as [|[k0 v0] parts IH]; intros Hnd; simpl.
  - repeat constructor. set_solver.
  - inversion Hnd as [|? ? Hnotin Hnd']; subst.
    destruct (fb =? k0) eqn:E1; [constructor; assumption |].
    apply Nat.eqb_neq in E1. simpl. constructor; [| apply IH, Hnd'].
    rewrite list_elem_of_In, map_incr_keys. intros [->|H]; [congruence |].
    apply Hnotin, list_elem_of_In, H.
Qed.

Lemma map_incr_get fb k parts :
  record_get k (map_incr fb parts)
  = if k =? fb then record_get k parts + 1 else record_get k parts.
Proof.
  induction parts as [|[k0 v0] parts IH].
  - unfold record_get. simpl. rewrite (Nat.eqb_sym fb k). destruct (k =? fb); reflexivity.
  - simpl. destruct (fb =? k0) eqn:E1.
    + apply Nat.eqb_eq in E1. subst k0. unfold record_get. simpl.
      rewrite (Nat.eqb_sym fb k). destruct (k =? fb); reflexivity.
    + unfold record_get in *. simpl.
      destruct (k0 =? k) eqn:E3; [| exact IH].
      apply Nat.eqb_eq in E3. subst k0. rewrite (Nat.eqb_sym k fb), E1. reflexivity.
Qed.

Lemma partition_size_snoc g cs c k :
  partition_size g (cs ++ [c]) k
  = if k =? computeFeedback g c then partition_size g cs k + 1 else partition_size g cs k.
Proof.
  unfold partition_size. rewrite List.filter_app, length_app. simpl.
  rewrite (Nat.eqb_sym k). destruct (_ =? _); simpl; lia.
Qed.

Lemma computeFeedback_le g t : computeFeedback g t <= 4.
Proof. rewrite computeFeedback_spec. apply multiset_intersection_le. Qed.

(** The partition table of [engine.ts]: for each feedback value the size of
    its class, under keys in ascending order, all below 5. *)
Lemma engine_partitions_represent g cs :
  keys_ascending (Engine.computePartitions g cs)
  /\ (forall k, record_get k (Engine.computePartitions g cs) = partition_size g cs k)
  /\ (forall k, In k (fst <$> Engine.computePartitions g cs) -> k < 5).
Proof.
  unfold Engine.computePartitions.
  induction cs as [|c cs IH] using rev_ind.
  - split; [constructor |]. split; [reflexivity | intros k []].
  - destruct IH as (Hs & Hget & Hkeys). rewrite foldl_snoc.
    split; [apply record_incr_ascending, Hs |]. split.
    + intros k. rewrite (record_incr_get _ _ _ Hs), Hget, partition_size_snoc. reflexivity.
    + intros k Hk. apply record_incr_keys in Hk as [->|Hk]; [| apply Hkeys, Hk].
      pose proof (computeFeedback_le g c). lia.
Qed.

(** The same for the insertion-ordered table of the benchmark module. *)
Lemma bench_partitions_represent g cs :
  NoDup (fst <$> Benchmark.computePartitions g cs)
  /\ (forall k, record_get k (Benchmark.computePartitions g cs) = partition_size g cs k)
  /\ (forall k, In k (fst <$> Benchmark.computePartitions g cs) -> k < 5).
Proof.
  unfold Benchmark.computePartitions.
  induction cs as [|c cs IH] using rev_ind.
  - split; [constructor |]. split; [reflexivity | intros k []].
  - destruct IH as (Hs & Hget & Hkeys). rewrite foldl_snoc.
    split; [apply map_incr_NoDup, Hs |]. split.
    + intros k. rewrite map_incr_get, Hget, partition_size_snoc. reflexivity.
    + intros k Hk. apply map_incr_keys in Hk as [->|Hk]; [| apply Hkeys, Hk].
      pose proof (computeFeedback_le g c). lia.
Qed.

Lemma keys_ascending_NoDup parts : keys_ascending parts -> NoDup (fst <$> parts).
Proof.
  unfold keys_ascending. induction (fst <$> parts) as [|k ks IH]; intros Hs.
  - constructor.
  - inversion Hs as [|? ? Hs' Hall]; subst. constructor; [| apply IH, Hs'].
    intros Hin. rewrite Forall_forall in Hall. specialize (Hall k Hin). lia.
Qed.

Lemma record_get_entry parts k v :
  NoDup (fst <$> parts) -> In (k, v) parts -> record_get k parts = v.
Proof.
  unfold record_get. induction parts as [|[k0 v0] parts IH]; intros Hnd Hin; [destruct Hin |].
  inversion Hnd as [|? ? Hnotin Hnd']; subst. simpl.
  destruct Hin as [Heq|Hin].
  - injection Heq as -> ->. rewrite Nat.eqb_refl. reflexivity.
  - destruct (k0 =? k) eqn:E; [| apply IH; assumption].
    apply Nat.eqb_eq in E. subst k0. exfalso. apply Hnotin.
    apply list_elem_of_In, in_map_iff. exists (k, v). split; [reflexivity | exact Hin].
Qed.

Lemma record_get_zero_or_entry parts k :
  record_get k parts = 0 \/ In (record_get k parts) (snd <$> parts).
Proof.
  unfold record_get. induction parts as [|[k0 v0] parts IH]; [left; reflexivity |].
  simpl. destruct (k0 =? k); simpl; [right; left; reflexivity |].
  destruct IH as [IH|IH]; [left; exact IH | right; right; exact IH].
Qed.

Lemma max_list_le (l : list nat) (m : nat) : (forall x, In x l -> x <= m) -> max_list l <= m.
Proof.
  induction l as [|x l IH]; intros H; simpl; [lia |].
  pose proof (H x (or_introl eq_refl)). specialize (IH (fun y Hy => H y (or_intror Hy))). lia.
Qed.

(** The largest value of a table is the largest class size. *)
Lemma largest_value parts g cs :
  NoDup (fst <$> parts) ->
  (forall k, record_get k parts = partition_size g cs k) ->
  (forall k, In k (fst <$> parts) -> k < 5) ->
  max_list (snd <$> parts) = max_partition g cs.
Proof.
  intros Hnd Hget Hkeys. unfold max_partition. apply Nat.le_antisymm.
  - apply max_list_le. intros v Hv. apply in_map_iff in Hv as [[k v'] [Heq Hin]].
    simpl in Heq. subst v'.
    rewrite <- (record_get_entry parts k v Hnd Hin), Hget.
    apply max_list_elem_of_le, list_elem_of_In, in_map_iff. exists k. split; [reflexivity |].
    apply in_seq. split; [lia |]. simpl.
    apply Hkeys, in_map_iff. exists (k, v). split; [reflexivity | exact Hin].
  - apply max_list_le. intros x Hx. apply in_map_iff in Hx as [k [<- _]].
    rewrite <- Hget. destruct (record_get_zero_or_entry parts k) as [->|Hin]; [lia |].
    apply max_list_elem_of_le, list_elem_of_In, Hin.
Qed.

Lemma worstPartition_max parts : worstPartition parts = max_list (snd <$> parts).
Proof.
  unfold worstPartition.
  assert (forall l a, foldl (fun worst v => if worst <? v then v else worst) a l
                      = Nat.max a (max_list l)) as H.
  { induction l as [|v l IH]; intros a; simpl; [lia |].
    rewrite IH. destruct (a <? v) eqn:E; [apply Nat.ltb_lt in E | apply Nat.ltb_ge in E]; lia. }
  rewrite H. lia.
Qed.

Lemma bench_worst g cs :
  worstPartition (Benchmark.computePartitions g cs) = max_partition g cs.
Proof.
  destruct (bench_partitions_represent g cs) as (H1 & H2 & H3).
  rewrite worstPartition_max. apply largest_value; assumption.
Qed.

Lemma engine_worst g cs : worst_of (Engine.computePartitions g cs) = max_partition g cs.
Proof.
  destruct (engine_partitions_represent g cs) as (H1 & H2 & H3).
  apply largest_value; [apply keys_ascending_NoDup, H1 | assumption | assumption].
Qed.

Lemma max_partition_le g cs : max_partition g cs <= length cs.
Proof.
  apply max_list_le. intros x Hx. apply in_map_iff in Hx as [k [<- _]].
  unfold partition_size. apply List.filter_length_le.
Qed.

(** ** Minimax selection *)

(** A loop invariant may mention the elements visited so far. *)
Lemma foldl_prefix_invariant {S A} (P : list A -> S -> Prop) (body : S -> A -> S)
  (l : list A) (init : S) :
  P [] init ->
  (forall seen x s, P seen s -> P (seen ++ [x]) (body s x)) ->
  P l (foldl body init l).
Proof.
  intros Hinit Hstep. induction l as [|x l IH] using rev_ind; [exact Hinit |].
  rewrite foldl_snoc. apply Hstep, IH.
Qed.

Lemma foldl_project {S T A} (proj : S -> T) (body : S -> A -> S) (body' : T -> A -> T)
  (l : list A) :
  (forall s x, proj (body s x) = body' (proj s) x) ->
  forall init, proj (foldl body init l) = foldl body' (proj init) l.
Proof.
  intros H. induction l as [|x l IH]; intros init; simpl; [reflexivity |].
  rewrite IH, H. reflexivity.
Qed.

Lemma foldl_same {S A} (body body' : S -> A -> S) (l : list A) :
  (forall s x, body s x = body' s x) ->
  forall init, foldl body init l = foldl body' init l.
Proof. intros H. apply (foldl_project id), H. Qed.

Lemma same_code_eq c g : same_code c g = true <-> c = g.
Proof.
  destruct c as [a b c d], g as [a' b' c' d']. unfold same_code. simpl.
  rewrite !andb_true_iff, !bool_decide_eq_true.
  split; [intros [[[-> ->] ->] ->]; reflexivity | intros H; injection H; intuition].
Qed.

Lemma is_candidate_In cs g : existsb (fun c => same_code c g) cs = true <-> In g cs.
Proof.
  rewrite existsb_exists. split.
  - intros [c [Hc Heq]]. apply same_code_eq in Heq. subst. exact Hc.
  - intros H. exists g. split; [exact H | apply same_code_eq; reflexivity].
Qed.

Lemma bench_minimax_body_next cs best g :
  Benchmark.minimax_body cs best g = minimax_next cs best g.
Proof.
  destruct best as [[bg bw] bic]. unfold Benchmark.minimax_body, minimax_next.
  rewrite bench_worst. reflexivity.
Qed.

Lemma engine_minimax_body_next cs best g :
  (fun '(bg, bw, _, bic) => (bg, bw, bic)) (Engine.minimax_body cs best g)
  = minimax_next cs ((fun '(bg, bw, _, bic) => (bg, bw, bic)) best) g.
Proof.
  destruct best as [[[bg bw] bp] bic]. unfold Engine.minimax_body, minimax_next.
  rewrite engine_worst. destruct (_ || _); reflexivity.
Qed.

Lemma minimax_invariant_start cs first bic :
  In first cs -> minimax_invariant cs first [] (Some first, length cs, bic).
Proof.
  intros Hin. exists first. simpl.
  split; [reflexivity |]. split; [right; reflexivity |].
  split; [apply max_partition_le |]. split; [intros _; exact Hin |].
  split; [intros g [] |]. split; [intros _; exact Hin | left; reflexivity].
Qed.

Lemma minimax_invariant_step cs first seen g best :
  minimax_invariant cs first seen best ->
  minimax_invariant cs first (seen ++ [g]) (minimax_next cs best g).
Proof.
  destruct best as [[bg bw] bic].
  intros (r & Hr & Hfrom & Hle & Hbic & Hmin & Htie & Hatt). simpl in *.
  unfold minimax_next.
  destruct (existsb _ cs) eqn:Ecand.
  - (* the guess is a candidate *)
    apply is_candidate_In in Ecand.
    destruct (max_partition g cs <? bw) eqn:E1; simpl.
    + apply Nat.ltb_lt in E1. exists g. simpl.
      split; [reflexivity |]. split; [left; apply in_app_iff; right; left; reflexivity |].
      split; [lia |]. split; [intros _; exact Ecand |].
      split; [| split; [intros _; exact Ecand |
                        right; exists g; split; [apply in_app_iff; right; left |]; reflexivity]].
      intros g' Hg'. apply in_app_iff in Hg' as [Hg'|[<-|[]]]; [| lia].
      specialize (Hmin g' Hg'). lia.
    + apply Nat.ltb_ge in E1.
      destruct (max_partition g cs =? bw) eqn:E2; simpl.
      * apply Nat.eqb_eq in E2. destruct bic; simpl.
        -- exists r. simpl. split; [exact Hr |].
           split; [destruct Hfrom; [left; apply in_app_iff; left; assumption | right; assumption] |].
           split; [exact Hle |]. split; [exact Hbic |].
           split; [| split; [intros _; apply Hbic; reflexivity |
                             right; exists g; split; [apply in_app_iff; right; left; reflexivity | exact E2]]].
           intros g' Hg'. apply in_app_iff in Hg' as [Hg'|[<-|[]]]; [apply Hmin, Hg' | lia].
        -- exists g. simpl. split; [reflexivity |].
           split; [left; apply in_app_iff; right; left; reflexivity |].
           split; [lia |]. split; [intros _; exact Ecand |].
           split; [| split; [intros _; exact Ecand |
                             right; exists g; split; [apply in_app_iff; right; left |]; reflexivity]].
           intros g' Hg'. apply in_app_iff in Hg' as [Hg'|[<-|[]]]; [| lia].
           specialize (Hmin g' Hg'). lia.
      * apply Nat.eqb_neq in E2. exists r. simpl. split; [exact Hr |].
        split; [destruct Hfrom; [left; apply in_app_iff; left; assumption | right; assumption] |].
        split; [exact Hle |]. split; [exact Hbic |].
        split; [intros g' Hg'; apply in_app_iff in Hg' as [Hg'|[<-|[]]];
                [apply Hmin, Hg' | lia] |].
        split.
        -- intros (g' & Hg' & Hc & Hw). apply in_app_iff in Hg' as [Hg'|[<-|[]]]; [| lia].
           apply Htie. exists g'. split; [exact Hg' |]. split; assumption.
        -- destruct Hatt as [Hatt|(g' & Hg' & Hw)]; [left; exact Hatt |].
           right. exists g'. split; [apply in_app_iff; left; exact Hg' | exact Hw].
  - (* the guess is not a candidate *)
    assert (~ In g cs) as Hnot.
    { intros Hin. apply is_candidate_In in Hin. congruence. }
    rewrite andb_false_r, andb_false_l, orb_false_r.
    destruct (max_partition g cs <? bw) eqn:E1.
    + apply Nat.ltb_lt in E1. exists g. simpl.
      split; [reflexivity |]. split; [left; apply in_app_iff; right; left; reflexivity |].
      split; [lia |]. split; [discriminate |].
      split; [intros g' Hg'; apply in_app_iff in Hg' as [Hg'|[<-|[]]];
              [specialize (Hmin g' Hg'); lia | lia] |].
      split.
      * intros (g' & Hg' & Hc & Hw). apply in_app_iff in Hg' as [Hg'|[<-|[]]].
        -- specialize (Hmin g' Hg'). lia.
        -- contradiction.
      * right. exists g. split; [apply in_app_iff; right; left |]; reflexivity.
    + apply Nat.ltb_ge in E1. exists r. simpl. split; [exact Hr |].
      split; [destruct Hfrom; [left; apply in_app_iff; left; assumption | right; assumption] |].
      split; [exact Hle |]. split; [exact Hbic |].
      split; [intros g' Hg'; apply in_app_iff in Hg' as [Hg'|[<-|[]]];
              [apply Hmin, Hg' | lia] |].
      split.
      * intros (g' & Hg' & Hc & Hw). apply in_app_iff in Hg' as [Hg'|[<-|[]]].
        -- apply Htie. exists g'. split; [exact Hg' |]. split; assumption.
        -- contradiction.
      * destruct Hatt as [Hatt|(g' & Hg' & Hw)]; [left; exact Hatt |].
        right. exists g'. split; [apply in_app_iff; left; exact Hg' | exact Hw].
Qed.

Lemma minimax_invariant_selection cs first sample best :
  head cs = Some first ->
  minimax_invariant cs first sample best ->
  exists r, fst (fst best) = Some r /\ minimax_selection cs sample r.
Proof.
  intros Hfirst (r & Hr & Hfrom & Hle & Hbic & Hmin & Htie & Hatt).
  exists r. split; [exact Hr |]. split; [| split].
  - destruct Hfrom as [H| ->]; [left; exact H | right; exact Hfirst].
  - intros g Hg. specialize (Hmin g Hg). lia.
  - intros (g & Hg & Hc & Hbest). apply Htie. exists g. split; [exact Hg |].
    split; [exact Hc |]. apply Nat.le_antisymm; [| apply Hmin, Hg].
    destruct Hatt as [->|(g0 & Hg0 & <-)]; [apply max_partition_le | apply Hbest, Hg0].
Qed.

Lemma minimax_loop_selection cs first sample bic :
  head cs = Some first ->
  exists r,
    fst (fst (foldl (minimax_next cs) (Some first, length cs, bic) sample)) = Some r
    /\ minimax_selection cs sample r.
Proof.
  intros Hfirst. apply (minimax_invariant_selection cs first); [exact Hfirst |].
  apply (foldl_prefix_invariant (minimax_invariant cs first)).
  - apply minimax_invariant_start. destruct cs; [discriminate |].
    injection Hfirst as ->. left. reflexivity.
  - intros seen x s. apply minimax_invariant_step.
Qed.

(** C4 (amended). For every candidate list with more than 2 elements, the
    minimax selection of [minimaxGuess], and that of [getSmartGuess] for up to
    200 candidates, returns a guess that is one of its strided search sample
    or the first candidate; whose largest partition over the candidates is no
    larger than that of any sampled guess; and that is a member of the
    candidate list whenever a sampled guess of minimal worst case is one. *)
Theorem C4_minimax_selection :
  forall (N : JSNumber) (cs allCodes : list Code) (round : nat) (h : list GameRound),
    2 < length cs ->
    (exists r,
       minimaxGuess cs allCodes round = Some r
       /\ minimax_selection cs (bench_minimax_sample cs allCodes) r)
    /\ (length cs <= 200 ->
        exists r,
          smart_guess (getSmartGuess cs allCodes round h) = Some r
          /\ minimax_selection cs (smart_minimax_sample cs allCodes) r).
Proof.
  intros N cs allCodes round h Hn.
  destruct cs as [|first rest] eqn:Ecs; [simpl in Hn; lia |]. rewrite <- Ecs in *.
  assert (head cs = Some first) as Hfirst by (rewrite Ecs; reflexivity).
  split.
  - unfold minimaxGuess. cbv zeta.
    destruct (length cs <=? 2) eqn:E; [apply Nat.leb_le in E; lia |].
    rewrite Hfirst.
    rewrite (foldl_same _ (minimax_next cs)) by apply bench_minimax_body_next.
    apply minimax_loop_selection, Hfirst.
  - intros H200. unfold getSmartGuess. cbv zeta.
    destruct (length cs <=? 1) eqn:E1; [apply Nat.leb_le in E1; lia |].
    destruct (length cs =? 2) eqn:E2; [apply Nat.eqb_eq in E2; lia |].
    assert ((5000 <? length cs) = false) as -> by (apply Nat.ltb_ge; lia).
    rewrite andb_false_r.
    destruct (length cs <=? 200) eqn:E3; [| apply Nat.leb_gt in E3; lia].
    rewrite Hfirst.
    destruct (minimax_loop_selection cs first (smart_minimax_sample cs allCodes) true Hfirst)
      as (r & Hr & Hsel).
    exists r. split; [| exact Hsel].
    pose proof (foldl_project (fun '(bg, bw, _, bic) => (bg, bw, bic))
                  (Engine.minimax_body cs) (minimax_next cs)
                  (smart_minimax_sample cs allCodes)
                  (engine_minimax_body_next cs) (Some first, length cs, [], true)) as Hp.
    unfold smart_minimax_sample in Hp, Hr. cbv zeta in Hp, Hr.
    destruct (foldl (Engine.minimax_body cs) _ _) as [[[bg bw] bp] bic].
    rewrite <- Hp in Hr. exact Hr.
Qed.

Lemma C4_minimax_selection_witness :
  let cs := [mkCode D0 D0 D0 D1; mkCode D0 D0 D1 D0; mkCode D0 D1 D0 D0] in
  (exists r,
     minimaxGuess cs generateAllCodes 3 = Some r
     /\ minimax_selection cs (bench_minimax_sample cs generateAllCodes) r)
  /\ (length cs <= 200 ->
      exists r,
        smart_guess (@getSmartGuess Q_number cs generateAllCodes 3 []) = Some r
        /\ minimax_selection cs (smart_minimax_sample cs generateAllCodes) r).
Proof.
  apply (C4_minimax_selection Q_number
           [mkCode D0 D0 D0 D1; mkCode D0 D0 D1 D0; mkCode D0 D1 D0 D0]).
  simpl. lia.
Defined.

(** The 24 arrangements of the digits 1, 3, 5, 7 as candidates, over the full
    code space: [minimaxGuess] samples every other code (those with an even
    last digit), none of which is a candidate or splits the candidates, and
    returns the first candidate 1357, which is not in its sample. *)
Lemma C4_outside_sample_counterexample :
  let cs := filterCandidates generateAllCodes (mkCode D1 D3 D5 D7) 4 in
  2 < length cs
  /\ minimaxGuess cs generateAllCodes 0 = Some (mkCode D1 D3 D5 D7)
  /\ ~ In (mkCode D1 D3 D5 D7) (bench_minimax_sample cs generateAllCodes).
Proof.
  cbv zeta. split; [vm_compute; lia |]. split; [vm_compute; reflexivity |].
  intros Hin. apply is_candidate_In in Hin. vm_compute in Hin. discriminate Hin.
Qed.

(** ** The dispatch of the hybrid strategy *)

Section Dispatch.
Context {N : JSNumber}.

Lemma hybridGuess_dispatch cs allCodes round :
  hybridGuess cs allCodes round
  = bench_phase_guess (dispatched_phase (length cs) round) cs allCodes round.
Proof.
  unfold hybridGuess, dispatched_phase. cbv zeta.
  destruct (_ && _); [reflexivity |].
  destruct (length cs <=? 200) eqn:E200; [reflexivity |].
  apply Nat.leb_gt in E200.
  unfold maxEntropyGuess, bench_phase_guess, bench_entropy_search. cbv zeta.
  assert ((length cs <=? 2) = false) as -> by (apply Nat.leb_gt; lia).
  assert ((length cs <=? 200) = false) as -> by (apply Nat.leb_gt; lia).
  destruct (length cs <=? 500); reflexivity.
Qed.

Lemma getSmartGuess_dispatch cs allCodes round h :
  2 < length cs ->
  smart_guess (getSmartGuess cs allCodes round h)
  = smart_phase_guess (dispatched_phase (length cs) round) cs allCodes round.
Proof.
  intros Hn. unfold getSmartGuess, dispatched_phase. cbv zeta.
  assert ((length cs <=? 1) = false) as -> by (apply Nat.leb_gt; lia).
  assert ((length cs =? 2) = false) as -> by (apply Nat.eqb_neq; lia).
  destruct (_ && _); [reflexivity |].
  destruct (length cs <=? 200) eqn:E200.
  { unfold smart_phase_guess, smart_minimax_search, smart_minimax_sample. cbv zeta.
    destruct (foldl _ _ _) as [[[bg bw] bp] bic]. reflexivity. }
  apply Nat.leb_gt in E200.
  destruct (length cs <=? 1000) eqn:E1000.
  - destruct (length cs <=? 500) eqn:E500;
      unfold smart_phase_guess, smart_entropy_search; rewrite ?E1000;
      destruct (foldl _ _ _) as [[bg be] bp]; reflexivity.
  - apply Nat.leb_gt in E1000.
    assert ((length cs <=? 500) = false) as -> by (apply Nat.leb_gt; lia).
    unfold smart_phase_guess, smart_entropy_search. 
    assert ((length cs <=? 1000) = false) as -> by (apply Nat.leb_gt; lia).
    destruct (foldl _ _ _) as [[bg be] bp]. reflexivity.
Qed.

End Dispatch.

(** C3 (amended). For a pool of more than two candidates, [hybridGuess] and
    [getSmartGuess] dispatch alike: in rounds 0 to 2 while the pool exceeds
    5,000 they return the fixed probes 0123, 4567, 8901; for a pool of at most
    200 they use minimax; for a pool of more than 200 and at most 500 they use
    maximum-entropy search over a strided sample of the full code space; for a
    larger pool they use maximum-entropy search over a strided sample of the
    candidates only. *)
Theorem C3_hybrid_dispatch :
  forall (N : JSNumber) (cs allCodes : list Code) (round : nat) (h : list GameRound),
    2 < length cs ->
    hybridGuess cs allCodes round
    = bench_phase_guess (dispatched_phase (length cs) round) cs allCodes round
    /\ smart_guess (getSmartGuess cs allCodes round h)
       = smart_phase_guess (dispatched_phase (length cs) round) cs allCodes round.
Proof.
  intros N cs allCodes round h Hn. split.
  - apply hybridGuess_dispatch.
  - apply getSmartGuess_dispatch, Hn.
Qed.

Lemma C3_hybrid_dispatch_witness :
  let cs := [mkCode D0 D0 D0 D1; mkCode D0 D0 D1 D0; mkCode D0 D1 D0 D0] in
  @hybridGuess Q_number cs generateAllCodes 3
  = @bench_phase_guess Q_number (dispatched_phase (length cs) 3) cs generateAllCodes 3
  /\ smart_guess (@getSmartGuess Q_number cs generateAllCodes 3 [])
     = @smart_phase_guess Q_number (dispatched_phase (length cs) 3) cs generateAllCodes 3.
Proof.
  apply (C3_hybrid_dispatch Q_number
           [mkCode D0 D0 D0 D1; mkCode D0 D0 D1 D0; mkCode D0 D1 D0 D0]).
  simpl. lia.
Defined.

(** *** Where the boundary at 1,000 candidates fails *)

Lemma strided_from_In {A} (x : A) step (l : list A) :
  forall skip, In x (strided_from skip step l) -> In x l.
Proof.
  induction l as [|y l IH]; intros skip; simpl; [tauto |].
  destruct skip; simpl.
  - intros [H|H]; [left; exact H | right; apply (IH _ H)].
  - intros H. right. apply (IH _ H).
Qed.

Lemma strided_In {A} (x : A) step (l : list A) : In x (strided step l) -> In x l.
Proof. apply strided_from_In. Qed.

Lemma strided_cons {A} step (x : A) (l : list A) :
  strided step (x :: l) = x :: strided_from (step - 1) step l.
Proof. reflexivity. Qed.

Lemma foldl_first {S A} (body : S -> A -> S) init (x : A) (l : list A) :
  foldl body init (x :: l) = foldl body (body init x) l.
Proof. reflexivity. Qed.

Lemma disjoint_check (cs sample : list Code) :
  forallb (fun g => negb (existsb (fun c => same_code c g) cs)) sample = true ->
  forall g, In g sample -> ~ In g cs.
Proof.
  intros H g Hg Hin. rewrite forallb_forall in H. specialize (H g Hg).
  apply is_candidate_In in Hin. rewrite Hin in H. discriminate H.
Qed.

Section EntropyLoops.
Context {N : JSNumber}.

Lemma bench_entropy_loop_from cs l :
  forall best,
    fst (foldl (Benchmark.entropy_body cs (length cs)) best l) = fst best
    \/ exists g, fst (foldl (Benchmark.entropy_body cs (length cs)) best l) = Some g
                 /\ In g l.
Proof.
  induction l as [|x l IH]; intros best; simpl; [left; reflexivity |].
  destruct (IH (Benchmark.entropy_body cs (length cs) best x)) as [->|(g & Hg & Hin)].
  - destruct best as [bg be]. unfold Benchmark.entropy_body.
    destruct (num_gt _ _); simpl; [right; exists x; split; [reflexivity | left; reflexivity] |
                                   left; reflexivity].
  - right. exists g. split; [exact Hg | right; exact Hin].
Qed.

Lemma engine_entropy_loop_from cs l :
  forall best,
    fst (fst (foldl (Engine.entropy_body cs (length cs)) best l)) = fst (fst best)
    \/ exists g, fst (fst (foldl (Engine.entropy_body cs (length cs)) best l)) = Some g
                 /\ In g l.
Proof.
  induction l as [|x l IH]; intros best; simpl; [left; reflexivity |].
  destruct (IH (Engine.entropy_body cs (length cs) best x)) as [->|(g & Hg & Hin)].
  - destruct best as [[bg be] bp]. unfold Engine.entropy_body.
    destruct (num_gt _ _); simpl; [right; exists x; split; [reflexivity | left; reflexivity] |
                                   left; reflexivity].
  - right. exists g. split; [exact Hg | right; exact Hin].
Qed.

(** A candidate-only search returns a candidate. *)
Lemma bench_entropy_search_candidates cs limit :
  cs <> [] -> exists g, bench_entropy_search cs cs limit = Some g /\ In g cs.
Proof.
  intros Hne. unfold bench_entropy_search.
  destruct (bench_entropy_loop_from cs
              (strided (stride_of (length cs) (Nat.min (length cs) limit)) cs)
              (head cs, num_of_Z (-1))) as [->|(g & -> & Hin)].
  - destruct cs as [|c cs]; [congruence |]. exists c. split; [reflexivity | left; reflexivity].
  - exists g. split; [reflexivity | apply (strided_In _ _ _ Hin)].
Qed.

Lemma smart_entropy_search_candidates cs step :
  cs <> [] -> exists g, smart_entropy_search cs cs step = Some g /\ In g cs.
Proof.
  intros Hne. unfold smart_entropy_search.
  destruct (engine_entropy_loop_from cs (strided step cs) (head cs, num_of_Z (-1), []))
    as [->|(g & -> & Hin)].
  - destruct cs as [|c cs]; [congruence |]. exists c. split; [reflexivity | left; reflexivity].
  - exists g. split; [reflexivity | apply (strided_In _ _ _ Hin)].
Qed.

(** A search over a non-empty pool returns a sampled guess, as the first
    evaluated entropy beats the initial -1. *)
Lemma bench_entropy_search_sampled pool cs limit :
  entropy_above_sentinel N -> cs <> [] -> pool <> [] ->
  exists g,
    bench_entropy_search pool cs limit = Some g
    /\ In g (strided (stride_of (length pool) (Nat.min (length pool) limit)) pool).
Proof.
  intros Habove Hcs Hpool. unfold bench_entropy_search.
  destruct pool as [|x pool]; [congruence |].
  set (step := stride_of _ _). rewrite strided_cons, foldl_first.
  destruct (bench_entropy_loop_from cs (strided_from (step - 1) step pool)
              (Benchmark.entropy_body cs (length cs) (head cs, num_of_Z (-1)) x))
    as [->|(g & -> & Hin)].
  - unfold Benchmark.entropy_body. rewrite (proj1 (Habove x cs Hcs)).
    exists x. split; [reflexivity | left; reflexivity].
  - exists g. split; [reflexivity | right; exact Hin].
Qed.

Lemma smart_entropy_search_sampled pool cs step :
  entropy_above_sentinel N -> cs <> [] -> pool <> [] ->
  exists g, smart_entropy_search pool cs step = Some g /\ In g (strided step pool).
Proof.
  intros Habove Hcs Hpool. unfold smart_entropy_search.
  destruct pool as [|x pool]; [congruence |].
  rewrite strided_cons, foldl_first.
  destruct (engine_entropy_loop_from cs (strided_from (step - 1) step pool)
              (Engine.entropy_body cs (length cs) (head cs, num_of_Z (-1), []) x))
    as [->|(g & -> & Hin)].
  - unfold Engine.entropy_body. rewrite (proj2 (Habove x cs Hcs)).
    exists x. split; [reflexivity | left; reflexivity].
  - exists g. split; [reflexivity | right; exact Hin].
Qed.

(** Between 500 and 1,000 candidates, on a pool none of whose sampled codes
    is a candidate, the code does not do what the boundary at 1,000 says. *)
Lemma specified_boundary_refuted cs allCodes round h :
  entropy_above_sentinel N ->
  500 < length cs <= 1000 -> allCodes <> [] ->
  (forall g, In g (strided (stride_of (length allCodes) (Nat.min (length allCodes) 2000))
                           allCodes) -> ~ In g cs) ->
  (forall g, In g (strided (stride_of (length allCodes) (Nat.min (length allCodes) 3000))
                           allCodes) -> ~ In g cs) ->
  hybridGuess cs allCodes round
  <> bench_phase_guess (specified_phase (length cs) round) cs allCodes round
  /\ smart_guess (getSmartGuess cs allCodes round h)
     <> smart_phase_guess (specified_phase (length cs) round) cs allCodes round.
Proof.
  intros Habove [Hlo Hhi] Hall Hd2000 Hd3000.
  assert (cs <> []) as Hcs by (intros ->; simpl in Hlo; lia).
  assert (specified_phase (length cs) round = EntropyFullSpace) as ->.
  { unfold specified_phase.
    assert ((5000 <? length cs) = false) as -> by (apply Nat.ltb_ge; lia).
    rewrite andb_false_r.
    assert ((length cs <=? 200) = false) as -> by (apply Nat.leb_gt; lia).
    assert ((length cs <=? 1000) = true) as -> by (apply Nat.leb_le; lia).
    reflexivity. }
  assert (dispatched_phase (length cs) round = EntropyCandidatesOnly) as Hphase.
  { unfold dispatched_phase.
    assert ((5000 <? length cs) = false) as -> by (apply Nat.ltb_ge; lia).
    rewrite andb_false_r.
    assert ((length cs <=? 200) = false) as -> by (apply Nat.leb_gt; lia).
    assert ((length cs <=? 500) = false) as -> by (apply Nat.leb_gt; lia).
    reflexivity. }
  split.
  - rewrite hybridGuess_dispatch, Hphase. simpl.
    destruct (bench_entropy_search_candidates cs 2000 Hcs) as (g & -> & Hg).
    destruct (bench_entropy_search_sampled allCodes cs 2000 Habove Hcs Hall) as (g' & -> & Hg').
    intros Heq. injection Heq as ->. apply (Hd2000 g' Hg' Hg).
  - rewrite getSmartGuess_dispatch by lia. rewrite Hphase. simpl.
    destruct (smart_entropy_search_candidates cs
                (if length cs <=? 1000
                 then stride_of (length cs) (Nat.min (length cs) 3000)
                 else stride_of (length cs) 2000) Hcs) as (g & -> & Hg).
    destruct (smart_entropy_search_sampled allCodes cs
                (stride_of (length allCodes) (Nat.min (length allCodes) 3000))
                Habove Hcs Hall) as (g' & -> & Hg').
    intros Heq. injection Heq as ->. apply (Hd3000 g' Hg' Hg).
Qed.

End EntropyLoops.

(** On the pool [gap_candidates] in round 3, whatever the implementation of
    numbers (with entropies above the initial -1), neither [hybridGuess] nor
    [getSmartGuess] returns what a maximum-entropy search over the full
    code space returns: they search the candidates only. *)
Lemma C3_full_space_boundary_counterexample :
  length gap_candidates = 667
  /\ specified_phase (length gap_candidates) 3 = EntropyFullSpace
  /\ forall N : JSNumber,
       entropy_above_sentinel N ->
       @hybridGuess N gap_candidates generateAllCodes 3
       <> @bench_phase_guess N (specified_phase (length gap_candidates) 3)
            gap_candidates generateAllCodes 3
       /\ smart_guess (@getSmartGuess N gap_candidates generateAllCodes 3 [])
          <> @smart_phase_guess N (specified_phase (length gap_candidates) 3)
               gap_candidates generateAllCodes 3.
Proof.
  assert (length gap_candidates = 667) as Hlen by (vm_compute; reflexivity).
  split; [exact Hlen |]. split; [vm_compute; reflexivity |].
  intros N Habove. apply specified_boundary_refuted.
  - exact Habove.
  - rewrite Hlen. lia.
  - discriminate.
  - apply disjoint_check. vm_compute. reflexivity.
  - apply disjoint_check. vm_compute. reflexivity.
Qed.

(** The reference numbers meet the expectation. *)
Lemma Q_entropy_fold (n : nat) (values : list nat) :
  0 < n -> Forall (fun v => v <= n) values ->
  forall e : Q,
    (0 <= e)%Q ->
    (0 <= foldl (fun entropy count =>
                   let p := @num_div Q_number (@num_of_Z Q_number (Z.of_nat count))
                                     (@num_of_Z Q_number (Z.of_nat n)) in
                   if @num_gt Q_number p (@num_of_Z Q_number 0)
                   then @num_sub Q_number entropy
                          (@num_mul Q_number p (@num_log2 Q_number p))
                   else entropy) e values)%Q.
Proof.
  intros Hn Hall. induction Hall as [|v values Hv _ IH]; intros e He; simpl; [exact He |].
  apply IH.
  set (p := (inject_Z (Z.of_nat v) / inject_Z (Z.of_nat n))%Q).
  destruct (p ?= inject_Z 0)%Q eqn:E; try exact He.
  apply Qgt_alt in E. change (inject_Z 0) with 0%Q in E.
  assert (p <= 1)%Q as Hp1.
  { unfold p. apply Qle_shift_div_r.
    - change 0%Q with (inject_Z 0). rewrite <- Zlt_Qlt. lia.
    - rewrite Qmult_1_l. rewrite <- Zle_Qle. lia. }
  change (inject_Z 1) with 1%Q. nra.
Qed.

Lemma partition_values_le (parts : list (nat * nat)) g cs :
  NoDup (fst <$> parts) ->
  (forall k, record_get k parts = partition_size g cs k) ->
  Forall (fun v => v <= length cs) (snd <$> parts).
Proof.
  intros Hnd Hget. apply Forall_forall. intros v Hv.
  apply list_elem_of_In, in_map_iff in Hv as [[k v'] [Heq Hin]]. simpl in Heq. subst v'.
  rewrite <- (record_get_entry parts k v Hnd Hin), Hget.
  unfold partition_size. apply List.filter_length_le.
Qed.

Lemma Q_gt_true (a b : Q) : (b < a)%Q -> @num_gt Q_number a b = true.
Proof. intros H. apply Qgt_alt in H. simpl. rewrite H. reflexivity. Qed.

Lemma Q_number_above_sentinel : entropy_above_sentinel Q_number.
Proof.
  intros g cs Hcs.
  assert (0 < length cs) as Hn by (destruct cs; [congruence | simpl; lia]).
  destruct (bench_partitions_represent g cs) as (B1 & B2 & _).
  destruct (engine_partitions_represent g cs) as (E1 & E2 & _).
  split; apply Q_gt_true.
  - apply Qlt_le_trans with (y := 0%Q); [reflexivity |].
    apply (Q_entropy_fold _ _ Hn (partition_values_le _ g cs B1 B2) 0%Q). apply Qle_refl.
  - apply Qlt_le_trans with (y := 0%Q); [reflexivity |].
    apply (Q_entropy_fold _ _ Hn
             (partition_values_le _ g cs (keys_ascending_NoDup _ E1) E2) 0%Q).
    apply Qle_refl.
Qed.

(** * Further properties *)

(** ** Feedback *)

Lemma occurrences_sum (c : Code) :
  sum_list ((fun d => occurrences d c) <$> all_digits) = 4.
Proof. apply (occurrences_total (digits_of c)). Qed.

Ltac name_minima :=
  repeat match goal with
         | |- context [Nat.min ?a ?b] =>
             let m := fresh "m" in
             pose proof (Nat.le_min_l a b); pose proof (Nat.le_min_r a b);
             set (m := Nat.min a b) in *; clearbody m
         end.

(** X1. The feedback is symmetric: exchanging the guess and the target does
    not change it. *)
Theorem X1_computeFeedback_symmetric :
  forall g t : Code, computeFeedback g t = computeFeedback t g.
Proof.
  intros g t. rewrite !computeFeedback_spec. unfold multiset_intersection.
  f_equal. apply list_fmap_ext. intros _ d _. apply Nat.min_comm.
Qed.

Lemma feedback_four_occurrences (g t : Code) :
  computeFeedback g t = 4 <-> forall d, occurrences d g = occurrences d t.
Proof.
  rewrite computeFeedback_spec. unfold multiset_intersection.
  pose proof (occurrences_sum g) as Hg. pose proof (occurrences_sum t) as Ht.
  cbn [fmap list_fmap all_digits sum_list sum_list_with] in *. split.
  - intros Hsum d. revert Hsum. name_minima. intros Hsum. unfold id in *. destruct d; lia.
  - intros H. rewrite <- !H, !Nat.min_id. exact Hg.
Qed.

Lemma isExactMatch_eq (g t : Code) : isExactMatch g t = true <-> g = t.
Proof.
  destruct g as [a b c e], t as [a' b' c' e']. unfold isExactMatch. simpl.
  rewrite !andb_true_iff, !bool_decide_eq_true. split.
  - intros (-> & -> & -> & -> & _). reflexivity.
  - intros H. injection H as -> -> -> ->. repeat split.
Qed.

(** X2. The feedback is 4 exactly when the guess and the target hold the
    same digits, each as many times, in whatever order. A code scores 4
    against itself, and so does every exact match. *)
Theorem X2_feedback_four_iff_same_digits :
  forall g t : Code,
    (computeFeedback g t = 4 <-> forall d, occurrences d g = occurrences d t)
    /\ computeFeedback g g = 4
    /\ (isExactMatch g t = true -> computeFeedback g t = 4).
Proof.
  intros g t. split; [apply feedback_four_occurrences |].
  split; [apply feedback_four_occurrences; reflexivity |].
  intros H. apply isExactMatch_eq in H. subst t.
  apply feedback_four_occurrences. reflexivity.
Qed.

(** X3. [isExactMatch] holds exactly when the two codes are equal. *)
Theorem X3_isExactMatch_iff_equal :
  forall g t : Code, isExactMatch g t = true <-> g = t.
Proof. exact isExactMatch_eq. Qed.

Lemma occurrences_monochromatic d e :
  occurrences e (mkCode d d d d) = if decide (d = e) then 4 else 0.
Proof. destruct d, e; reflexivity. Qed.

(** X4. Against a guess that repeats one digit four times, the feedback is
    the number of times the target holds this digit. *)
Theorem X4_monochromatic_feedback_counts_digit :
  forall (d : Digit) (t : Code),
    computeFeedback (mkCode d d d d) t = occurrences d t.
Proof.
  intros d t. rewrite computeFeedback_spec. unfold multiset_intersection.
  pose proof (occurrences_sum t) as Ht.
  cbn [fmap list_fmap all_digits sum_list sum_list_with] in *.
  rewrite !occurrences_monochromatic.
  unfold id in *.
  destruct d;
    repeat match goal with
           | |- context [decide (?a = ?b)] =>
               first [ rewrite (decide_True (P := a = b)) by reflexivity
                     | rewrite (decide_False (P := a = b)) by discriminate ]
           end;
    rewrite !Nat.min_0_l, Nat.min_r by lia; lia.
Qed.

(** ** The code space *)

Lemma combine_seq_lookup {A} (l : list A) :
  forall start i x, l !! i = Some x -> In (start + i, x) (combine (seq start (length l)) l).
Proof.
  induction l as [|y l IH]; intros start i x H; [discriminate H |].
  destruct i as [|i]; simpl in *.
  - injection H as ->. left. f_equal. lia.
  - right. replace (start + S i) with (S start + i) by lia. apply IH, H.
Qed.

Lemma generateAllCodes_index i c : generateAllCodes !! i = Some c -> code_index c = i.
Proof.
  intros H. apply (combine_seq_lookup _ 0) in H.
  assert (forallb (fun p => code_index (snd p) =? fst p)
            (combine (seq 0 (length generateAllCodes)) generateAllCodes) = true) as Hall
    by (vm_compute; reflexivity).
  rewrite forallb_forall in Hall. specialize (Hall _ H). simpl in Hall.
  apply Nat.eqb_eq in Hall. exact Hall.
Qed.

(** X5. [generateAllCodes] lists the 10,000 codes without repetition, in
    lexicographic order: the code abcd stands at index 1000a + 100b + 10c + d. *)
Theorem X5_generateAllCodes_enumeration :
  Z.of_nat (length generateAllCodes) = 10000%Z
  /\ NoDup generateAllCodes
  /\ forall c : Code, generateAllCodes !! code_index c = Some c.
Proof.
  split; [vm_compute; reflexivity |]. split.
  - apply NoDup_alt. intros i j c Hi Hj.
    rewrite <- (generateAllCodes_index i c Hi). apply generateAllCodes_index, Hj.
  - intros c. pose proof (generateAllCodes_complete c) as Hin.
    apply list_elem_of_In, list_elem_of_lookup in Hin as [i Hi].
    rewrite (generateAllCodes_index i c Hi). exact Hi.
Qed.

(** ** Filtering *)

Lemma filter_commute {A} (f g : A -> bool) (l : list A) :
  List.filter f (List.filter g l) = List.filter g (List.filter f l).
Proof.
  induction l as [|x l IH]; simpl; [reflexivity |].
  destruct (f x) eqn:Ef, (g x) eqn:Eg; simpl; rewrite ?Ef, ?Eg, IH; reflexivity.
Qed.

Lemma filter_none {A} (f : A -> bool) (l : list A) :
  (forall x, f x = false) -> List.filter f l = [].
Proof.
  intros H. induction l as [|x l IH]; simpl; [reflexivity |]. rewrite H. exact IH.
Qed.

(** X6. Filtering by two rounds gives the same list whichever round is
    applied first. *)
Theorem X6_filterCandidates_commute :
  forall (cs : list Code) (g1 g2 : Code) (f1 f2 : Z),
    filterCandidates (filterCandidates cs g1 f1) g2 f2
    = filterCandidates (filterCandidates cs g2 f2) g1 f1.
Proof. intros cs g1 g2 f1 f2. apply filter_commute. Qed.

(** X7. Filtering by a feedback that no pair of codes produces, a negative
    one or one above 4, removes every candidate. *)
Theorem X7_filterCandidates_out_of_range :
  forall (cs : list Code) (g : Code) (f : Z),
    (f < 0 \/ 4 < f)%Z -> filterCandidates cs g f = [].
Proof.
  intros cs g f Hf. apply filter_none. intros c.
  pose proof (computeFeedback_le g c) as Hle. apply Z.eqb_neq. lia.
Qed.

Lemma X7_filterCandidates_out_of_range_witness :
  filterCandidates generateAllCodes (mkCode D0 D1 D2 D3) 5 = [].
Proof.
  apply (X7_filterCandidates_out_of_range generateAllCodes (mkCode D0 D1 D2 D3) 5).
  right. lia.
Defined.

(** ** Codes as strings *)

Lemma Number_of_digit_char d : Number_of_char (digit_char d) = Some (Z.of_nat (digit_val d)).
Proof. destruct d; reflexivity. Qed.

Lemma decimal_digit_char ch :
  is_decimal_digit ch = true ->
  exists d, Number_of_char ch = Some (Z.of_nat (digit_val d)) /\ digit_char d = ch.
Proof.
  destruct ch as [[] [] [] [] [] [] [] []]; vm_compute; intros H; try discriminate H;
    first [ exists D0; split; reflexivity | exists D1; split; reflexivity
          | exists D2; split; reflexivity | exists D3; split; reflexivity
          | exists D4; split; reflexivity | exists D5; split; reflexivity
          | exists D6; split; reflexivity | exists D7; split; reflexivity
          | exists D8; split; reflexivity | exists D9; split; reflexivity ].
Qed.

Lemma stringToCode_four a b c d da db dc dd :
  Number_of_char a = Some (Z.of_nat (digit_val da)) ->
  Number_of_char b = Some (Z.of_nat (digit_val db)) ->
  Number_of_char c = Some (Z.of_nat (digit_val dc)) ->
  Number_of_char d = Some (Z.of_nat (digit_val dd)) ->
  stringToCode (String a (String b (String c (String d EmptyString))))
  = Some (mkCode da db dc dd).
Proof.
  intros Ha Hb Hc Hd. unfold stringToCode.
  cbn [String.length Nat.eqb negb list_ascii_of_string map existsb].
  rewrite Ha, Hb, Hc, Hd, !digit_range_test.
  cbn [orb mapM mbind option_bind]. rewrite !digit_of_number_val. reflexivity.
Qed.


(** X9. Parsing the string of a code gives the code back. *)
Theorem X9_stringToCode_codeToString :
  forall c : Code, stringToCode (codeToString c) = Some c.
Proof.
  intros [a b c d]. unfold codeToString. simpl.
  apply stringToCode_four; apply Number_of_digit_char.
Qed.

(** X10. On a string of decimal digits, printing the parsed code gives the
    string back, and the string has four characters. *)
Theorem X10_codeToString_stringToCode :
  forall (s : string) (c : Code),
    stringToCode s = Some c ->
    forallb is_decimal_digit (list_ascii_of_string s) = true ->
    codeToString c = s /\ String.length s = 4.
Proof.
  intros s c Hs Hd.
  destruct s as [|a [|b [|c' [|d [|e s]]]]]; try discriminate Hs.
  simpl in Hd. rewrite !andb_true_iff in Hd. destruct Hd as (Ha & Hb & Hc & Hd & _).
  destruct (decimal_digit_char a Ha) as (da & Na & <-).
  destruct (decimal_digit_char b Hb) as (db & Nb & <-).
  destruct (decimal_digit_char c' Hc) as (dc & Nc & <-).
  destruct (decimal_digit_char d Hd) as (dd & Nd & <-).
  rewrite (stringToCode_four _ _ _ _ da db dc dd Na Nb Nc Nd) in Hs.
  injection Hs as <-. split; reflexivity.
Qed.

Lemma X10_codeToString_stringToCode_witness :
  codeToString (mkCode D0 D4 D2 D9) = "0429"%string /\ String.length "0429" = 4.
Proof.
  apply (X10_codeToString_stringToCode "0429" (mkCode D0 D4 D2 D9)); reflexivity.
Defined.

(** ** Knowledge deduction *)

Lemma unique_digit_test (c : Code) :
  (length (List.filter (fun n => 0 <? n) (guessCount_of c)) =? 1)
  = bool_decide (monochromatic c).
Proof.
  assert (forallb (fun c => Bool.eqb
                     (length (List.filter (fun n => 0 <? n) (guessCount_of c)) =? 1)
                     (bool_decide (monochromatic c))) generateAllCodes = true) as H
    by (vm_compute; reflexivity).
  rewrite forallb_forall in H. specialize (H c (generateAllCodes_complete c)).
  apply Bool.eqb_prop in H. exact H.
Qed.

Lemma analyze_round_uninformative ds r :
  informative_round r = false -> analyze_round ds r = ds.
Proof.
  unfold informative_round, analyze_round. destruct (feedback r); [| reflexivity].
  intros H. cbv zeta. rewrite unique_digit_test, H. reflexivity.
Qed.

Lemma analyze_round_digit ds r : digit <$> analyze_round ds r = digit <$> ds.
Proof.
  unfold analyze_round. destruct (feedback r) as [fb|]; [| reflexivity]. cbv zeta.
  destruct (_ =? 1); [| reflexivity]. apply (digit_alter_set_confirmed fb).
Qed.

Lemma rounds_digit h : forall ds, digit <$> foldl analyze_round ds h = digit <$> ds.
Proof.
  induction h as [|r h IH]; intros ds; simpl; [reflexivity |].
  rewrite IH. apply analyze_round_digit.
Qed.

(** The classifying loop sorts every digit of the table into one of the
    three lists and keeps the digits of the table. *)
Lemma three_lists_first (c e u : list nat) x :
  (c ++ [x]) ++ e ++ u ≡ₚ x :: (c ++ e ++ u).
Proof. rewrite <- app_assoc. simpl. symmetry. apply Permutation_middle. Qed.

Lemma three_lists_second (c e u : list nat) x :
  c ++ (e ++ [x]) ++ u ≡ₚ x :: (c ++ e ++ u).
Proof.
  rewrite <- app_assoc. simpl. rewrite (app_assoc c e), (app_assoc c e u).
  symmetry. apply Permutation_middle.
Qed.

Lemma three_lists_third (c e u : list nat) x :
  c ++ e ++ (u ++ [x]) ≡ₚ x :: (c ++ e ++ u).
Proof.
  rewrite !app_assoc. rewrite <- Permutation_cons_append. reflexivity.
Qed.

Lemma classify_digit_step acc k :
  snd (fst (fst (classify_digit acc k))) ++ snd (fst (classify_digit acc k))
    ++ snd (classify_digit acc k)
  ≡ₚ digit k :: (snd (fst (fst acc)) ++ snd (fst acc) ++ snd acc)
  /\ digit <$> fst (fst (fst (classify_digit acc k)))
     = (digit <$> fst (fst (fst acc))) ++ [digit k].
Proof.
  destruct acc as [[[a c] e] u]. unfold classify_digit.
  destruct (confirmedCount k) as [v|]; [destruct (0 <? v)%Z | destruct (maxCount k =? 0)%Z];
    simpl; rewrite fmap_app; (split; [| reflexivity]).
  - apply three_lists_first.
  - apply three_lists_second.
  - apply three_lists_second.
  - apply three_lists_third.
Qed.

Lemma classify_digits ds :
  forall acc,
    snd (fst (fst (foldl classify_digit acc ds))) ++ snd (fst (foldl classify_digit acc ds))
      ++ snd (foldl classify_digit acc ds)
    ≡ₚ (digit <$> ds) ++ (snd (fst (fst acc)) ++ snd (fst acc) ++ snd acc)
    /\ digit <$> fst (fst (fst (foldl classify_digit acc ds)))
       = (digit <$> fst (fst (fst acc))) ++ (digit <$> ds).
Proof.
  induction ds as [|k ds IH]; intros acc.
  - simpl. rewrite app_nil_r. split; reflexivity.
  - change (foldl classify_digit acc (k :: ds))
      with (foldl classify_digit (classify_digit acc k) ds).
    destruct (IH (classify_digit acc k)) as [IH1 IH2].
    destruct (classify_digit_step acc k) as [S1 S2].
    split.
    + rewrite IH1, S1. simpl. symmetry. apply Permutation_middle.
    + rewrite IH2, S2, <- app_assoc. reflexivity.
Qed.

Lemma analyzeKnowledge_shape (h : list GameRound) :
  exists digits3 : list DigitKnowledge,
    digit <$> digits3 = seq 0 10
    /\ (confirmed_sum (foldl analyze_round initial_table h) = 4%Z ->
        Forall (fun k => is_Some (confirmedCount k)) digits3)
    /\ analyzeKnowledge h
       = let '(digits4, confirmedDigits, eliminatedDigits, unknownDigits) :=
           foldl classify_digit ([], [], [], []) digits3 in
         let knownSum := confirmed_sum (foldl analyze_round initial_table h) in
         {| digits := digits4;
            confirmedDigits := confirmedDigits;
            eliminatedDigits := eliminatedDigits;
            unknownDigits := unknownDigits;
            confirmedSlots := knownSum;
            remainingSlots := (4 - knownSum)%Z;
            compositionKnown := (length unknownDigits =? 0) && (4 - knownSum =? 0)%Z |}.
Proof.
  unfold analyzeKnowledge. fold initial_table.
  set (ds1 := foldl analyze_round initial_table h).
  pose proof (knownSum_confirmed_sum ds1 0 0) as Hks.
  destruct (foldl _ (0%Z, 0) ds1) as [ks uc]. simpl in Hks. rewrite Z.add_0_l in Hks.
  subst ks.
  assert (digit <$> ds1 = seq 0 10) as Hds1.
  { unfold ds1. rewrite rounds_digit. reflexivity. }
  eexists. split; [| split; [| reflexivity]].
  - rewrite digit_map_preserved by (intros k; destruct k as [dg [v|] mn mx]; reflexivity).
    destruct (_ =? 0)%Z; [| exact Hds1].
    rewrite digit_map_preserved by (intros k; destruct k as [dg [v|] mn mx]; reflexivity).
    exact Hds1.
  - intros H4. rewrite H4. change (4 - 4 =? 0)%Z with true. cbv iota.
    rewrite !Forall_map. apply Forall_forall. intros k _.
    destruct k as [dg [v|] mn mx]; simpl; eexists; reflexivity.
Qed.

(** X11. Whatever the history, [analyzeKnowledge] sorts each of the digits
    0..9 into exactly one of the lists of confirmed, eliminated and
    undetermined digits, and its digit table keeps the ten digits in order. *)
Theorem X11_analyzeKnowledge_classifies_each_digit_once :
  forall h : list GameRound,
    confirmedDigits (analyzeKnowledge h) ++ eliminatedDigits (analyzeKnowledge h)
      ++ unknownDigits (analyzeKnowledge h)
    ≡ₚ seq 0 10
    /\ digit <$> digits (analyzeKnowledge h) = seq 0 10.
Proof.
  intros h. destruct (analyzeKnowledge_shape h) as (digits3 & Hd & _ & ->).
  destruct (classify_digits digits3 ([], [], [], [])) as [H1 H2].
  destruct (foldl classify_digit _ digits3) as [[[a c] e] u]. simpl in *.
  rewrite Hd in H1, H2. rewrite app_nil_r in H1. split; assumption.
Qed.

(** X12. The composition is reported as known exactly when the confirmed
    counts add up to 4; then no digit is left undetermined and no slot
    remains. *)
Theorem X12_compositionKnown_iff_four_confirmed :
  forall h : list GameRound,
    (compositionKnown (analyzeKnowledge h) = true
     <-> confirmedSlots (analyzeKnowledge h) = 4%Z)
    /\ (compositionKnown (analyzeKnowledge h) = true ->
        unknownDigits (analyzeKnowledge h) = []
        /\ remainingSlots (analyzeKnowledge h) = 0%Z).
Proof.
  intros h. destruct (analyzeKnowledge_shape h) as (digits3 & _ & Hknown & ->).
  set (ks := confirmed_sum _) in *.
  assert (ks = 4%Z -> snd (foldl classify_digit ([], [], [], []) digits3) = []) as Hu.
  { intros H4. apply (classify_all_known digits3 ([], [], [], []) (Hknown H4)). }
  destruct (foldl classify_digit _ digits3) as [[[a c] e] u]. simpl in *.
  split; [split |].
  - intros H. apply andb_true_iff in H as [_ H]. apply Z.eqb_eq in H. lia.
  - intros H4. rewrite (Hu H4). simpl. apply Z.eqb_eq. lia.
  - intros H. apply andb_true_iff in H as [_ H]. apply Z.eqb_eq in H.
    split; [apply Hu; lia | lia].
Qed.

(** X13. Rounds without a feedback and rounds whose guess mixes digits
    teach [analyzeKnowledge] nothing: dropping them from the history does not
    change its result. *)
Theorem X13_analyzeKnowledge_ignores_uninformative_rounds :
  forall h : list GameRound,
    analyzeKnowledge h = analyzeKnowledge (List.filter informative_round h).
Proof.
  intros h.
  assert (forall ds, foldl analyze_round ds h
                     = foldl analyze_round ds (List.filter informative_round h)) as H.
  { induction h as [|r h IH]; intros ds; simpl; [reflexivity |].
    destruct (informative_round r) eqn:E; simpl.
    - apply IH.
    - rewrite (analyze_round_uninformative ds r E). apply IH. }
  unfold analyzeKnowledge. rewrite <- H. reflexivity.
Qed.

Lemma lookup_map {A B} (f : A -> B) (l : list A) (i : nat) :
  map f l !! i = f <$> (l !! i).
Proof.
  revert i. induction l as [|x l IH]; intros [|i]; simpl; try reflexivity. apply IH.
Qed.

Lemma classify_digits_table ds :
  forall acc,
    fst (fst (fst (foldl classify_digit acc ds)))
    = fst (fst (fst acc)) ++ map classified_entry ds.
Proof.
  induction ds as [|k ds IH]; intros acc; simpl; [rewrite app_nil_r; reflexivity |].
  rewrite IH. destruct acc as [[[a c] e] u]. unfold classify_digit, classified_entry.
  destruct (confirmedCount k) as [v|]; [destruct (0 <? v)%Z | destruct (maxCount k =? 0)%Z];
    simpl; rewrite <- app_assoc; reflexivity.
Qed.

(** A confirmed entry of the table built from the rounds is an entry of the
    result. *)
Lemma analyzeKnowledge_confirmed_entry h i k :
  foldl analyze_round initial_table h !! i = Some k ->
  is_Some (confirmedCount k) ->
  digits (analyzeKnowledge h) !! i = Some k.
Proof.
  intros Hi [v Hv]. unfold analyzeKnowledge. fold initial_table.
  set (ds1 := foldl analyze_round initial_table h) in *.
  destruct (foldl _ (0%Z, 0) ds1) as [ks uc].
  set (digits3 := map _ _).
  assert (digits3 !! i = Some k) as H3.
  { unfold digits3. rewrite lookup_map.
    destruct (_ =? 0)%Z; [rewrite lookup_map |]; rewrite Hi; simpl; rewrite ?Hv; simpl;
      rewrite ?Hv; reflexivity. }
  pose proof (classify_digits_table digits3 ([], [], [], [])) as Ht.
  destruct (foldl classify_digit _ digits3) as [[[a c] e] u]. simpl in *. subst a.
  rewrite lookup_map, H3. simpl. unfold classified_entry. rewrite Hv. reflexivity.
Qed.

(** The table built from the rounds: the last informative round on a digit
    sets its entry. *)
Lemma rounds_last_wins h' :
  forall ds r fb,
    length ds = 10 ->
    informative_round r = true -> feedback r = Some fb ->
    (forall r', In r' h' -> informative_round r' = true ->
                c0 (guess r') <> c0 (guess r)) ->
    exists k,
      foldl analyze_round (analyze_round ds r) h' !! digit_val (c0 (guess r)) = Some k
      /\ confirmedCount k = Some fb /\ minCount k = fb /\ maxCount k = fb.
Proof.
  assert (forall l ds i k,
            (forall r', In r' l -> informative_round r' = true ->
                        digit_val (c0 (guess r')) <> i) ->
            ds !! i = Some k -> foldl analyze_round ds l !! i = Some k) as Hkeep.
  { clear h'. intros l. induction l as [|r' l IH]; intros ds i k Hother Hk; [exact Hk |].
    simpl.
    apply IH; [intros r'' Hin; apply Hother; right; exact Hin |].
    destruct (informative_round r') eqn:E.
    - unfold informative_round in E. destruct (feedback r') as [fb'|] eqn:Ef; [| discriminate E].
      apply bool_decide_eq_true in E.
      rewrite (analyze_round_monochromatic ds r' fb' E Ef).
      rewrite list_lookup_alter_ne; [exact Hk |].
      apply Hother; [left; reflexivity |].
      unfold informative_round. rewrite Ef. apply bool_decide_eq_true, E.
    - rewrite (analyze_round_uninformative ds r' E). exact Hk. }
  intros ds r fb Hlen Hr Hfb Hother.
  unfold informative_round in Hr. rewrite Hfb in Hr. apply bool_decide_eq_true in Hr.
  rewrite (analyze_round_monochromatic ds r fb Hr Hfb).
  destruct (lookup_lt_is_Some_2 ds (digit_val (c0 (guess r)))) as [k0 Hk0].
  { rewrite Hlen. apply digit_val_lt. }
  exists (set_confirmed fb k0). split; [| repeat split].
  apply Hkeep.
  - intros r' Hin Hinf Heq. apply (Hother r' Hin Hinf). apply digit_val_inj, Heq.
  - rewrite list_lookup_alter_eq, Hk0. reflexivity.
Qed.

Lemma rounds_length h : forall ds, length (foldl analyze_round ds h) = length ds.
Proof.
  intros ds. rewrite <- (length_fmap digit), rounds_digit, length_fmap. reflexivity.
Qed.

(** X14. The confirmed count of a digit is the feedback of the last
    informative round that guessed it: after such a round, followed only by
    rounds that are uninformative or about other digits, the entry of the digit
    in the result carries that feedback as its count and as both bounds. *)
Theorem X14_analyzeKnowledge_last_round_wins :
  forall (h h' : list GameRound) (r : GameRound) (fb : Z),
    informative_round r = true -> feedback r = Some fb ->
    (forall r', In r' h' -> informative_round r' = true ->
                c0 (guess r') <> c0 (guess r)) ->
    exists k,
      digits (analyzeKnowledge (h ++ r :: h')) !! digit_val (c0 (guess r)) = Some k
      /\ confirmedCount k = Some fb /\ minCount k = fb /\ maxCount k = fb.
Proof.
  intros h h' r fb Hr Hfb Hother.
  destruct (rounds_last_wins h' (foldl analyze_round initial_table h) r fb)
    as (k & Hk & Hc & Hmin & Hmax); try assumption.
  { rewrite rounds_length. reflexivity. }
  exists k. split; [| repeat split; assumption].
  apply analyzeKnowledge_confirmed_entry; [| rewrite Hc; eexists; reflexivity].
  rewrite foldl_app. exact Hk.
Qed.

Lemma X14_analyzeKnowledge_last_round_wins_witness :
  exists k,
    digits (analyzeKnowledge
              ([mkGameRound 0 (mkCode D3 D3 D3 D3) (Some 2%Z) false]
               ++ mkGameRound 1 (mkCode D3 D3 D3 D3) (Some 1%Z) false
               :: [mkGameRound 2 (mkCode D0 D1 D2 D3) (Some 1%Z) false]))
      !! digit_val (c0 (guess (mkGameRound 1 (mkCode D3 D3 D3 D3) (Some 1%Z) false)))
    = Some k
    /\ confirmedCount k = Some 1%Z /\ minCount k = 1%Z /\ maxCount k = 1%Z.
Proof.
  apply (X14_analyzeKnowledge_last_round_wins
           [mkGameRound 0 (mkCode D3 D3 D3 D3) (Some 2%Z) false]
           [mkGameRound 2 (mkCode D0 D1 D2 D3) (Some 1%Z) false]
           (mkGameRound 1 (mkCode D3 D3 D3 D3) (Some 1%Z) false) 1%Z).
  - reflexivity.
  - reflexivity.
  - intros r' [<-|[]] H. vm_compute in H. discriminate H.
Defined.

(** ** Partition tables *)

Lemma record_incr_sum fb parts :
  sum_list (snd <$> record_incr fb parts) = S (sum_list (snd <$> parts)).
Proof.
  induction parts as [|[k v] parts IH]; [reflexivity |].
  cbn [record_incr]. destruct (fb =? k); [| destruct (fb <? k)];
    rewrite ?fmap_cons; cbn [sum_list sum_list_with snd];
    fold (sum_list (snd <$> record_incr fb parts)); rewrite ?IH;
    fold (sum_list (snd <$> parts)); unfold id; lia.
Qed.

Lemma map_incr_sum fb parts :
  sum_list (snd <$> map_incr fb parts) = S (sum_list (snd <$> parts)).
Proof.
  induction parts as [|[k v] parts IH]; [reflexivity |].
  cbn [map_incr]. destruct (fb =? k);
    rewrite ?fmap_cons; cbn [sum_list sum_list_with snd];
    fold (sum_list (snd <$> map_incr fb parts)); rewrite ?IH;
    fold (sum_list (snd <$> parts)); unfold id; lia.
Qed.

Lemma record_incr_positive fb parts :
  Forall (fun p => 0 < snd p) parts -> Forall (fun p => 0 < snd p) (record_incr fb parts).
Proof.
  induction parts as [|[k v] parts IH]; intros H; simpl.
  - repeat constructor.
  - inversion H as [|? ? Hv H']; subst. simpl in Hv.
    destruct (fb =? k); [constructor; [simpl; lia | exact H'] |].
    destruct (fb <? k); [constructor; [simpl; lia | exact H] |].
    constructor; [exact Hv | apply IH, H'].
Qed.

Lemma map_incr_positive fb parts :
  Forall (fun p => 0 < snd p) parts -> Forall (fun p => 0 < snd p) (map_incr fb parts).
Proof.
  induction parts as [|[k v] parts IH]; intros H; simpl.
  - repeat constructor.
  - inversion H as [|? ? Hv H']; subst. simpl in Hv.
    destruct (fb =? k); [constructor; [simpl; lia | exact H'] |].
    constructor; [exact Hv | apply IH, H'].
Qed.

Lemma engine_partitions_sum_positive g cs :
  sum_list (snd <$> Engine.computePartitions g cs) = length cs
  /\ Forall (fun p => 0 < snd p) (Engine.computePartitions g cs).
Proof.
  unfold Engine.computePartitions. induction cs as [|c cs [IH1 IH2]] using rev_ind.
  - split; [reflexivity | constructor].
  - rewrite foldl_snoc, record_incr_sum, IH1, length_app. simpl.
    split; [lia | apply record_incr_positive, IH2].
Qed.

Lemma bench_partitions_sum_positive g cs :
  sum_list (snd <$> Benchmark.computePartitions g cs) = length cs
  /\ Forall (fun p => 0 < snd p) (Benchmark.computePartitions g cs).
Proof.
  unfold Benchmark.computePartitions. induction cs as [|c cs [IH1 IH2]] using rev_ind.
  - split; [reflexivity | constructor].
  - rewrite foldl_snoc, map_incr_sum, IH1, length_app. simpl.
    split; [lia | apply map_incr_positive, IH2].
Qed.

Lemma record_get_positive_entry parts k :
  0 < record_get k parts -> In (k, record_get k parts) parts.
Proof.
  unfold record_get. induction parts as [|[k0 v0] parts IH]; simpl; [lia |].
  destruct (k0 =? k) eqn:E; simpl.
  - apply Nat.eqb_eq in E. subst k0. intros _. left. reflexivity.
  - intros H. right. apply IH, H.
Qed.

(** The entries of a table that represents the classes of a guess. *)
Lemma table_entries parts g cs :
  NoDup (fst <$> parts) ->
  (forall k, record_get k parts = partition_size g cs k) ->
  Forall (fun p => 0 < snd p) parts ->
  forall k v, In (k, v) parts <-> v = partition_size g cs k /\ 0 < v.
Proof.
  intros Hnd Hget Hpos k v. split.
  - intros Hin. split.
    + rewrite <- Hget. symmetry. apply record_get_entry; assumption.
    + rewrite Forall_forall in Hpos. apply (Hpos (k, v)), list_elem_of_In, Hin.
  - intros [-> Hv]. rewrite <- Hget in *. apply record_get_positive_entry, Hv.
Qed.

(** X15. The partition table of a guess, in either module, gives for each
    feedback value the number of candidates that answer it (0 for a value
    without entry); its entries are positive, at keys 0..4, and add up to
    the number of candidates. The table of [engine.ts] lists the keys in
    ascending order, and the two tables hold the same entries. *)
Theorem X15_partition_tables :
  forall (g : Code) (cs : list Code),
    (forall fb, record_get fb (Engine.computePartitions g cs) = partition_size g cs fb)
    /\ (forall fb, record_get fb (Benchmark.computePartitions g cs) = partition_size g cs fb)
    /\ (forall fb n, In (fb, n) (Engine.computePartitions g cs)
                     <-> n = partition_size g cs fb /\ 0 < n)
    /\ sum_list (snd <$> Engine.computePartitions g cs) = length cs
    /\ sum_list (snd <$> Benchmark.computePartitions g cs) = length cs
    /\ StronglySorted lt (fst <$> Engine.computePartitions g cs)
    /\ Forall (fun fb => fb <= 4) (fst <$> Engine.computePartitions g cs)
    /\ Engine.computePartitions g cs ≡ₚ Benchmark.computePartitions g cs.
Proof.
  intros g cs.
  destruct (engine_partitions_represent g cs) as (E1 & E2 & E3).
  destruct (bench_partitions_represent g cs) as (B1 & B2 & B3).
  destruct (engine_partitions_sum_positive g cs) as (E4 & E5).
  destruct (bench_partitions_sum_positive g cs) as (B4 & B5).
  pose proof (keys_ascending_NoDup _ E1) as E6.
  pose proof (table_entries _ g cs E6 E2 E5) as E7.
  pose proof (table_entries _ g cs B1 B2 B5) as B7.
  repeat (split; [assumption |]).
  split.
  - apply Forall_forall. intros k Hk. apply list_elem_of_In, E3 in Hk. lia.
  - apply NoDup_Permutation.
    + apply (NoDup_fmap_1 fst), E6.
    + apply (NoDup_fmap_1 fst), B1.
    + intros [k v]. rewrite !list_elem_of_In, E7, B7. reflexivity.
Qed.

Lemma partition_size_cons g c cs k :
  partition_size g (c :: cs) k
  = (if computeFeedback g c =? k then 1 else 0) + partition_size g cs k.
Proof. unfold partition_size. simpl. destruct (_ =? _); reflexivity. Qed.

Lemma partition_sizes_total g cs :
  sum_list ((fun fb => partition_size g cs fb) <$> seq 0 5) = length cs.
Proof.
  induction cs as [|c cs IH]; [reflexivity |].
  cbn [seq fmap list_fmap sum_list sum_list_with] in *.
  rewrite !partition_size_cons. pose proof (computeFeedback_le g c) as Hle.
  unfold id in *. simpl length.
  destruct (computeFeedback g c) as [|[|[|[|[|n]]]]]; simpl; lia.
Qed.

(** X16. The worst case of a guess, as either module computes it, is the
    size of the largest class of candidates; it does not exceed the number of
    candidates and is at least a fifth of it. *)
Theorem X16_worst_case_bounds :
  forall (g : Code) (cs : list Code),
    worstPartition (Benchmark.computePartitions g cs) = max_partition g cs
    /\ worst_of (Engine.computePartitions g cs) = max_partition g cs
    /\ max_partition g cs <= length cs
    /\ length cs <= 5 * max_partition g cs.
Proof.
  intros g cs. split; [apply bench_worst |]. split; [apply engine_worst |].
  split; [apply max_partition_le |].
  pose proof (partition_sizes_total g cs) as Hsum. unfold max_partition.
  cbn [seq fmap list_fmap sum_list sum_list_with max_list max_list_with] in *.
  unfold id in *. lia.
Qed.

Lemma preview_loop (sz : nat -> nat) (l : list nat) :
  forall acc,
    foldl (fun result fb =>
             let remaining := sz fb in
             if remaining =? 0 then result else result ++ [(fb, remaining)]) acc l
    = acc ++ List.filter (fun p => negb (snd p =? 0)) (map (fun fb => (fb, sz fb)) l).
Proof.
  induction l as [|fb l IH]; intros acc; simpl; [rewrite app_nil_r; reflexivity |].
  rewrite IH. destruct (sz fb =? 0); simpl; [reflexivity |].
  rewrite <- app_assoc. reflexivity.
Qed.

Lemma keys_ascending_entries parts :
  keys_ascending parts -> StronglySorted (fun p q : nat * nat => fst p < fst q) parts.
Proof.
  unfold keys_ascending. induction parts as [|p parts IH]; intros H; [constructor |].
  simpl in H. inversion H as [|? ? Hs Hall]; subst. constructor; [apply IH, Hs |].
  rewrite Forall_fmap in Hall. exact Hall.
Qed.

Lemma StronglySorted_list_filter {A} (R : A -> A -> Prop) (f : A -> bool) (l : list A) :
  StronglySorted R l -> StronglySorted R (List.filter f l).
Proof.
  induction 1 as [|x l Hs IH Hall]; simpl; [constructor |].
  destruct (f x); [| exact IH]. constructor; [exact IH |].
  apply Forall_forall. intros y Hy. apply list_elem_of_In, filter_In in Hy as [Hy _].
  rewrite Forall_forall in Hall. apply Hall, list_elem_of_In, Hy.
Qed.

(** X17. The feedback preview of a guess lists, in ascending order of the
    feedback value, the values 0..4 that some candidate answers, each with the
    number of candidates that answer it; it is the partition table of the
    guess. *)
Theorem X17_buildFeedbackPreview_lists_nonempty_classes :
  forall (g : Code) (cs : list Code),
    buildFeedbackPreview g cs
    = List.filter (fun p => negb (snd p =? 0))
                  (map (fun fb => (fb, partition_size g cs fb)) (seq 0 5))
    /\ buildFeedbackPreview g cs = Engine.computePartitions g cs.
Proof.
  intros g cs.
  destruct (engine_partitions_represent g cs) as (E1 & E2 & E3).
  destruct (engine_partitions_sum_positive g cs) as (_ & E5).
  pose proof (table_entries _ g cs (keys_ascending_NoDup _ E1) E2 E5) as E7.
  assert (buildFeedbackPreview g cs
          = List.filter (fun p => negb (snd p =? 0))
                        (map (fun fb => (fb, partition_size g cs fb)) (seq 0 5))) as Hpre.
  { unfold buildFeedbackPreview. cbv zeta.
    rewrite (preview_loop (fun fb => record_get fb (Engine.computePartitions g cs))).
    rewrite app_nil_l. f_equal. apply map_ext. intros fb. rewrite E2. reflexivity. }
  split; [exact Hpre |].
  assert (StronglySorted (fun p q : nat * nat => fst p < fst q) (buildFeedbackPreview g cs))
    as Hsorted.
  { rewrite Hpre. apply StronglySorted_list_filter.
    cbn [seq map]. repeat constructor; simpl; lia. }
  assert (AntiSymm eq (fun p q : nat * nat => fst p < fst q)) as Hanti
    by (intros p q H1 H2; lia).
  apply (@StronglySorted_unique _ (fun p q : nat * nat => fst p < fst q) Hanti).
  - exact Hsorted.
  - apply keys_ascending_entries, E1.
  - apply NoDup_Permutation.
    + apply (NoDup_fmap_1 fst). apply (keys_ascending_NoDup (buildFeedbackPreview g cs)).
      unfold keys_ascending.
      apply (StronglySorted_fmap fst (fun p q : nat * nat => fst p < fst q));
        [intros x y H; exact H | exact Hsorted].
    + apply (NoDup_fmap_1 fst), keys_ascending_NoDup, E1.
    + intros [k v]. rewrite !list_elem_of_In, E7, Hpre, filter_In, in_map_iff. simpl.
      rewrite negb_true_iff, Nat.eqb_neq. split.
      * intros [(fb & Heq & Hfb) Hv]. injection Heq as -> <-. split; [reflexivity | lia].
      * intros [-> Hv]. split; [| lia]. exists k. split; [reflexivity |].
        assert (k < 5) as Hk; [| lia].
        apply E3, in_map_iff. exists (k, partition_size g cs k). split; [reflexivity |].
        apply E7. split; [reflexivity | exact Hv].
Qed.

(** ** Sampling *)

Lemma strided_from_beyond {A} step (l : list A) :
  forall skip, length l <= skip -> strided_from skip step l = [].
Proof.
  induction l as [|x l IH]; intros skip H; [reflexivity |].
  destruct skip as [|skip]; simpl in *; [lia |]. apply IH. lia.
Qed.

Lemma strided_from_length {A} step (l : list A) :
  1 <= step ->
  forall skip, step * length (strided_from skip step l) <= (length l - skip) + (step - 1).
Proof.
  intros Hstep. induction l as [|x l IH]; intros skip; [simpl; lia |].
  destruct skip as [|skip].
  - cbn [strided_from length]. rewrite Nat.mul_succ_r.
    destruct (Nat.le_gt_cases (length l) (step - 1)) as [Hle|Hgt].
    + rewrite (strided_from_beyond step l _ Hle). simpl. lia.
    + specialize (IH (step - 1)). lia.
  - cbn [strided_from length]. specialize (IH skip). lia.
Qed.

Lemma strided_one {A} (l : list A) : strided 1 l = l.
Proof.
  unfold strided. induction l as [|x l IH]; [reflexivity |].
  simpl. f_equal. exact IH.
Qed.

(** X18. The strided sample of a search pool under an evaluation limit
    holds the elements at the indices 0, step, 2*step, ... for
    step = max(1, floor(length / min(length, limit))); it is the whole pool
    when the pool is within the limit, and it always has fewer than twice
    the limit elements. *)
Theorem X18_strided_sample_budget :
  forall (pool : list Code) (limit : nat),
    1 <= limit ->
    (forall k,
       strided (stride_of (length pool) (Nat.min (length pool) limit)) pool !! k
       = pool !! (k * stride_of (length pool) (Nat.min (length pool) limit)))
    /\ (length pool <= limit ->
        strided (stride_of (length pool) (Nat.min (length pool) limit)) pool = pool)
    /\ length (strided (stride_of (length pool) (Nat.min (length pool) limit)) pool)
       < 2 * limit.
Proof.
  intros pool limit Hlimit.
  set (step := stride_of _ _).
  assert (1 <= step) as Hstep by apply stride_of_positive.
  split; [intros k; apply strided_lookup, Hstep |].
  assert (length pool <= limit -> step = 1) as Hone.
  { intros Hle. unfold step, stride_of. rewrite Nat.min_l by exact Hle.
    destruct (length pool) as [|n]; [reflexivity |].
    rewrite Nat.div_same by lia. reflexivity. }
  split.
  - intros Hle. rewrite (Hone Hle). apply strided_one.
  - pose proof (strided_from_length step pool Hstep 0) as Hlen.
    fold (strided step pool) in Hlen. rewrite Nat.sub_0_r in Hlen.
    destruct (Nat.le_gt_cases (length pool) limit) as [Hle|Hgt].
    + rewrite (Hone Hle) in *. lia.
    + assert (step = length pool / limit) as Hq.
      { unfold step, stride_of. rewrite Nat.min_r by lia.
        assert (1 <= length pool / limit) by (apply Nat.div_le_lower_bound; lia). lia. }
      pose proof (Nat.div_mod_eq (length pool) limit) as Hdiv.
      pose proof (Nat.mod_upper_bound (length pool) limit ltac:(lia)) as Hmod.
      rewrite <- Hq in Hdiv. nia.
Qed.

Lemma X18_strided_sample_budget_witness :
  (forall k,
     strided (stride_of (length generateAllCodes) (Nat.min (length generateAllCodes) 3000))
             generateAllCodes !! k
     = generateAllCodes
         !! (k * stride_of (length generateAllCodes) (Nat.min (length generateAllCodes) 3000)))
  /\ (length generateAllCodes <= 3000 ->
      strided (stride_of (length generateAllCodes) (Nat.min (length generateAllCodes) 3000))
              generateAllCodes = generateAllCodes)
  /\ length (strided (stride_of (length generateAllCodes)
                                (Nat.min (length generateAllCodes) 3000))
                     generateAllCodes)
     < 2 * 3000.
Proof. apply (X18_strided_sample_budget generateAllCodes 3000). lia. Defined.

(** ** The benchmark strategies *)

Lemma probe_invariant_step cs first seen g best :
  probe_invariant cs first seen best ->
  probe_invariant cs first (seen ++ [g]) (probe_body cs best g).
Proof.
  destruct best as [bg bw]. intros (r & Hr & Hfrom & Hle & Hmin). simpl in *.
  unfold probe_body. rewrite bench_worst.
  destruct (max_partition g cs <? bw) eqn:E.
  - apply Nat.ltb_lt in E. exists g. simpl.
    split; [reflexivity |]. split; [left; apply in_app_iff; right; left; reflexivity |].
    split; [lia |].
    intros g' Hg'. apply in_app_iff in Hg' as [Hg'|[<-|[]]]; [| lia].
    specialize (Hmin g' Hg'). lia.
  - apply Nat.ltb_ge in E. exists r. simpl. split; [exact Hr |].
    split; [destruct Hfrom; [left; apply in_app_iff; left; assumption | right; assumption] |].
    split; [exact Hle |].
    intros g' Hg'. apply in_app_iff in Hg' as [Hg'|[<-|[]]]; [apply Hmin, Hg' | lia].
Qed.

Lemma frequencyProbeGuess_selection :
  forall (cs allCodes : list Code) (round : nat),
    cs <> [] ->
    exists r,
      frequencyProbeGuess cs allCodes round = Some r
      /\ (round < 5 /\ 100 < length cs -> probeSequence !! round = Some r)
      /\ (~ (round < 5 /\ 100 < length cs) ->
          In r cs
          /\ (2 < length cs ->
              forall g, In g (probe_sample cs) ->
                        max_partition r cs <= max_partition g cs)).
Proof.
  intros cs allCodes round Hcs. unfold frequencyProbeGuess. cbv zeta.
  change (length probeSequence) with 5.
  destruct ((round <? 5) && (100 <? length cs)) eqn:E.
  - apply andb_true_iff in E as [E1 E2]. apply Nat.ltb_lt in E1, E2.
    destruct (lookup_lt_is_Some_2 probeSequence round E1) as [r Hr].
    exists r. split; [exact Hr |]. split; [intros _; exact Hr |].
    intros Hnot. exfalso. apply Hnot. split; assumption.
  - assert (~ (round < 5 /\ 100 < length cs)) as Hnot.
    { intros [H1 H2]. apply Nat.ltb_lt in H1, H2. rewrite H1, H2 in E. discriminate E. }
    destruct cs as [|first rest] eqn:Ecs; [congruence |]. rewrite <- Ecs in *.
    assert (head cs = Some first) as Hfirst by (rewrite Ecs; reflexivity).
    assert (In first cs) as Hin by (rewrite Ecs; left; reflexivity).
    destruct (length cs <=? 2) eqn:E2.
    + apply Nat.leb_le in E2. exists first. split; [exact Hfirst |].
      split; [intros H; contradiction |]. intros _. split; [exact Hin | lia].
    + rewrite Hfirst.
      assert (probe_invariant cs first (probe_sample cs)
                (foldl (probe_body cs) (Some first, length cs) (probe_sample cs))) as Hinv.
      { apply (foldl_prefix_invariant (probe_invariant cs first)).
        - exists first. simpl. split; [reflexivity |]. split; [right; reflexivity |].
          split; [apply max_partition_le | intros g []].
        - intros seen x s. apply probe_invariant_step. }
      destruct Hinv as (r & Hr & Hfrom & Hle & Hmin).
      exists r. split; [exact Hr |]. split; [intros H; contradiction |].
      intros _. split.
      * destruct Hfrom as [H| ->]; [apply (strided_In _ _ _ H) | exact Hin].
      * intros _ g Hg. specialize (Hmin g Hg). lia.
Qed.

(** X19. With at least one candidate, [frequencyProbeGuess] returns one of
    its five probes while it is probing (a round below 5 and more than 100
    candidates), and otherwise a candidate; for more than two candidates this
    candidate has, among the sampled candidates, the smallest worst case. *)
Theorem X19_frequencyProbeGuess_probe_or_best_candidate :
  forall (cs allCodes : list Code) (round : nat),
    cs <> [] ->
    exists r,
      frequencyProbeGuess cs allCodes round = Some r
      /\ (round < 5 /\ 100 < length cs -> probeSequence !! round = Some r)
      /\ (~ (round < 5 /\ 100 < length cs) ->
          In r cs
          /\ (2 < length cs ->
              forall g, In g (probe_sample cs) ->
                        max_partition r cs <= max_partition g cs)).
Proof. exact frequencyProbeGuess_selection. Qed.

Lemma X19_frequencyProbeGuess_witness :
  exists r,
    frequencyProbeGuess [mkCode D0 D0 D1 D2; mkCode D3 D4 D5 D6; mkCode D7 D8 D9 D9]
      generateAllCodes 0 = Some r
    /\ (0 < 5 /\ 100 < length [mkCode D0 D0 D1 D2; mkCode D3 D4 D5 D6; mkCode D7 D8 D9 D9]
        -> probeSequence !! 0 = Some r)
    /\ (~ (0 < 5 /\ 100 < length [mkCode D0 D0 D1 D2; mkCode D3 D4 D5 D6; mkCode D7 D8 D9 D9])
        -> In r [mkCode D0 D0 D1 D2; mkCode D3 D4 D5 D6; mkCode D7 D8 D9 D9]
           /\ (2 < length [mkCode D0 D0 D1 D2; mkCode D3 D4 D5 D6; mkCode D7 D8 D9 D9] ->
               forall g,
                 In g (probe_sample [mkCode D0 D0 D1 D2; mkCode D3 D4 D5 D6; mkCode D7 D8 D9 D9])
                 -> max_partition r [mkCode D0 D0 D1 D2; mkCode D3 D4 D5 D6; mkCode D7 D8 D9 D9]
                    <= max_partition g
                         [mkCode D0 D0 D1 D2; mkCode D3 D4 D5 D6; mkCode D7 D8 D9 D9])).
Proof.
  apply (X19_frequencyProbeGuess_probe_or_best_candidate
           [mkCode D0 D0 D1 D2; mkCode D3 D4 D5 D6; mkCode D7 D8 D9 D9] generateAllCodes 0).
  discriminate.
Defined.

Section GuessOrigin.
Context {N : JSNumber}.

Lemma maxEntropyGuess_origin cs allCodes round r :
  maxEntropyGuess cs allCodes round = Some r ->
  (In r cs \/ In r allCodes) /\ (500 < length cs -> In r cs).
Proof.
  unfold maxEntropyGuess. cbv zeta.
  assert (forall x, head cs = Some x -> In x cs) as Hhead.
  { intros x H. destruct cs; [discriminate H |]. injection H as ->. left. reflexivity. }
  destruct (length cs <=? 2) eqn:E2.
  { intros H. apply Hhead in H. split; [left; exact H | intros _; exact H]. }
  destruct (length cs <=? 500) eqn:E500.
  - apply Nat.leb_le in E500.
    destruct (bench_entropy_loop_from cs
                (strided (stride_of (length allCodes)
                            (Nat.min (length allCodes)
                               (if length cs <=? 200 then 5000 else 2000))) allCodes)
                (head cs, num_of_Z (-1))) as [->|(g & -> & Hin)]; simpl.
    + intros H. apply Hhead in H. split; [left; exact H | intros _; exact H].
    + intros H. injection H as <-. split; [right; apply (strided_In _ _ _ Hin) | lia].
  - destruct (bench_entropy_loop_from cs
                (strided (stride_of (length cs)
                            (Nat.min (length cs)
                               (if length cs <=? 200 then 5000 else 2000))) cs)
                (head cs, num_of_Z (-1))) as [->|(g & -> & Hin)]; simpl.
    + intros H. apply Hhead in H. split; [left; exact H | intros _; exact H].
    + intros H. injection H as <-. apply strided_In in Hin.
      split; [left; exact Hin | intros _; exact Hin].
Qed.

Lemma minimaxGuess_origin cs allCodes round r :
  minimaxGuess cs allCodes round = Some r ->
  (In r cs \/ In r allCodes) /\ (50 < length cs -> In r cs).
Proof.
  assert (forall x, head cs = Some x -> In x cs) as Hhead.
  { intros x Hx. destruct cs; [discriminate Hx |]. injection Hx as ->. left. reflexivity. }
  unfold minimaxGuess. cbv zeta.
  destruct (length cs <=? 2) eqn:E2.
  { intros H. apply Hhead in H. split; [left; exact H | intros _; exact H]. }
  destruct cs as [|first rest] eqn:Ecs; [discriminate E2 |]. rewrite <- Ecs in *.
  assert (head cs = Some first) as Hfirst by (rewrite Ecs; reflexivity).
  rewrite Hfirst.
  rewrite (foldl_same _ (minimax_next cs)) by apply bench_minimax_body_next.
  set (sample := strided _ _).
  destruct (minimax_loop_selection cs first sample false Hfirst) as (r' & -> & [Hfrom _]).
  intros H. injection H as <-.
  destruct Hfrom as [Hin|Hin]; [| apply Hhead in Hin; split; [left; exact Hin | intros _; exact Hin]].
  unfold sample in Hin. apply strided_In in Hin.
  destruct (length cs <=? 50) eqn:E50.
  - apply Nat.leb_le in E50. split; [right; exact Hin | lia].
  - split; [left; exact Hin | intros _; exact Hin].
Qed.

Lemma hybrid_probe_origin round r :
  [mkCode D0 D1 D2 D3; mkCode D4 D5 D6 D7; mkCode D8 D9 D0 D1] !! round = Some r ->
  In r probeSequence.
Proof.
  destruct round as [|[|[|n]]]; intros H; try discriminate H; injection H as <-;
    unfold probeSequence; simpl; tauto.
Qed.

End GuessOrigin.

(** X20. A benchmark strategy never makes up a code: the guess it returns is
    one of the fixed probes, one of the candidates, or one of the codes of the
    search space it was given. *)
Theorem X20_getGuess_origin :
  forall (N : JSNumber) (strategy : StrategyName) (cs allCodes : list Code) (round : nat)
         (r : Code),
    getGuess strategy cs allCodes round = Some r ->
    In r probeSequence \/ In r cs \/ In r allCodes.
Proof.
  intros N strategy cs allCodes round r H. destruct strategy; simpl in H.
  - destruct cs as [|c cs'] eqn:Ecs.
    + unfold frequencyProbeGuess in H. cbv zeta in H. rewrite andb_false_r in H.
      discriminate H.
    + rewrite <- Ecs in *.
      destruct (frequencyProbeGuess_selection cs allCodes round) as (r' & Hr' & Hp & Hc).
      { rewrite Ecs. discriminate. }
      rewrite Hr' in H. injection H as <-.
      destruct (Nat.lt_ge_cases round 5) as [H5|H5];
        [destruct (Nat.lt_ge_cases 100 (length cs)) as [H100|H100] |].
      * left. apply list_elem_of_In, list_elem_of_lookup. exists round. apply Hp. split; assumption.
      * right. left. apply Hc. lia.
      * right. left. apply Hc. lia.
  - right. apply (maxEntropyGuess_origin cs allCodes round r H).
  - right. apply (minimaxGuess_origin cs allCodes round r H).
  - unfold hybridGuess in H. cbv zeta in H.
    destruct (_ && _); [left; apply (hybrid_probe_origin round r H) |].
    destruct (_ <=? 200).
    + right. apply (minimaxGuess_origin cs allCodes round r H).
    + right. apply (maxEntropyGuess_origin cs allCodes round r H).
Qed.

Lemma X20_getGuess_origin_witness :
  In (mkCode D0 D0 D1 D2) probeSequence
  \/ In (mkCode D0 D0 D1 D2) [mkCode D0 D0 D1 D2; mkCode D3 D4 D5 D6]
  \/ In (mkCode D0 D0 D1 D2) generateAllCodes.
Proof.
  apply (X20_getGuess_origin Q_number minimax [mkCode D0 D0 D1 D2; mkCode D3 D4 D5 D6]
           generateAllCodes 4 (mkCode D0 D0 D1 D2)).
  reflexivity.
Defined.

(** ** The simulator *)

Section GameShape.
Context {N : JSNumber}.

Lemma simulate_round_shape strategy target allCodes maxSteps st :
  sim_round st = length (sim_guesses st) ->
  match simulate_round strategy target allCodes maxSteps st with
  | Returned ExactMatch result =>
      Benchmark.target result = codeToString target
      /\ steps result = sim_round st + 1
      /\ length (guesses result) = sim_round st + 1
      /\ last (guesses result) = Some (codeToString target)
  | Returned EmptyCandidates result =>
      Benchmark.target result = codeToString target
      /\ steps result = maxSteps
      /\ length (guesses result) = sim_round st + 1
  | Returned StepCap _ => False
  | Continue st' =>
      sim_round st' = sim_round st + 1
      /\ sim_round st' = length (sim_guesses st')
      /\ sublist (sim_candidates st') (sim_candidates st)
  | Thrown => sim_candidates st = []
  end.
Proof.
  intros Hround. unfold simulate_round.
  destruct (getGuess _ _ _ _) as [guess|] eqn:Eg.
  - destruct (isExactMatch guess target) eqn:Em.
    + apply isExactMatch_eq in Em. subst guess.
      simpl. rewrite length_app, last_snoc. simpl. repeat split; lia.
    + destruct (_ =? 0); simpl; rewrite length_app; simpl.
      * repeat split; lia.
      * split; [reflexivity |]. split; [lia | apply filterCandidates_sublist].
  - destruct (sim_candidates st) as [|c cs]; [reflexivity |].
    destruct (getGuess_some strategy c cs allCodes (sim_round st)) as [g Hg].
    rewrite Hg in Eg. discriminate Eg.
Qed.

Lemma simulate_rounds_shape strategy target allCodes maxSteps remaining :
  forall st exit result,
    sim_round st = length (sim_guesses st) ->
    sim_round st + remaining = maxSteps ->
    simulate_rounds strategy target allCodes maxSteps remaining st = Some (exit, result) ->
    Benchmark.target result = codeToString target
    /\ steps result <= maxSteps
    /\ length (guesses result) <= maxSteps
    /\ match exit with
       | ExactMatch =>
           1 <= steps result
           /\ length (guesses result) = steps result
           /\ last (guesses result) = Some (codeToString target)
       | EmptyCandidates => steps result = maxSteps /\ 1 <= length (guesses result)
       | StepCap => steps result = maxSteps /\ length (guesses result) = maxSteps
       end.
Proof.
  induction remaining as [|remaining IH]; intros st exit result Hlen Hround; simpl.
  - intros H. injection H as <- <-. simpl. repeat split; lia.
  - pose proof (simulate_round_shape strategy target allCodes maxSteps st Hlen) as Hshape.
    destruct (simulate_round _ _ _ _ st) as [exit' result'|st'|]; [| | discriminate].
    + intros H. injection H as -> ->.
      destruct exit; [| | contradiction];
        destruct Hshape as (H1 & H2 & H3); try destruct H3 as (H3 & H4);
        simpl; repeat split; try assumption; lia.
    + destruct Hshape as (H1 & H2 & _). apply IH; [exact H2 | lia].
Qed.

End GameShape.

(** X21. A result of [simulateGame] names the target; its step count and its
    number of guesses do not exceed the step cap. A game won has taken at
    least one step, has made as many guesses as steps, and its last guess is
    the target; a game stopped at the cap reports the cap as its step count
    and has made that many guesses. *)
Theorem X21_simulateGame_result_shape :
  forall (N : JSNumber) (strategy : StrategyName) (target : Code) (allCodes : list Code)
         (maxSteps : nat) (exit : Exit) (result : GameResult),
    simulateGame strategy target allCodes maxSteps = Some (exit, result) ->
    Benchmark.target result = codeToString target
    /\ steps result <= maxSteps
    /\ length (guesses result) <= maxSteps
    /\ match exit with
       | ExactMatch =>
           1 <= steps result
           /\ length (guesses result) = steps result
           /\ last (guesses result) = Some (codeToString target)
       | EmptyCandidates => steps result = maxSteps /\ 1 <= length (guesses result)
       | StepCap => steps result = maxSteps /\ length (guesses result) = maxSteps
       end.
Proof.
  intros N strategy target allCodes maxSteps exit result H.
  apply (simulate_rounds_shape strategy target allCodes maxSteps maxSteps
           {| sim_round := 0; sim_candidates := allCodes; sim_guesses := [] |});
    [reflexivity | reflexivity | exact H].
Qed.

Lemma X21_simulateGame_result_shape_witness :
  let result := {| target := "3456"; steps := 1; guesses := ["3456"] |} in
  Benchmark.target result = codeToString (mkCode D3 D4 D5 D6)
  /\ steps result <= 20
  /\ length (guesses result) <= 20
  /\ 1 <= steps result
     /\ length (guesses result) = steps result
     /\ last (guesses result) = Some (codeToString (mkCode D3 D4 D5 D6)).
Proof.
  apply (X21_simulateGame_result_shape Q_number minimax (mkCode D3 D4 D5 D6)
           [mkCode D0 D0 D1 D2; mkCode D3 D4 D5 D6; mkCode D7 D8 D9 D9; mkCode D6 D5 D4 D3]
           20 ExactMatch).
  vm_compute. reflexivity.
Defined.

(** ** Arrangements of the target *)

Lemma feedback_arrangement (g c t : Code) :
  computeFeedback c t = 4 -> computeFeedback g c = computeFeedback g t.
Proof.
  intros H. rewrite !computeFeedback_spec. unfold multiset_intersection.
  f_equal. apply list_fmap_ext. intros _ d _.
  rewrite (proj1 (feedback_four_occurrences c t) H d). reflexivity.
Qed.

Lemma filter_all {A} (f : A -> bool) (l : list A) :
  (forall x, In x l -> f x = true) -> List.filter f l = l.
Proof.
  induction l as [|a l IH]; intros H; [reflexivity |]. simpl.
  rewrite (H a (or_introl eq_refl)). f_equal. apply IH. intros x Hx. apply H. right. exact Hx.
Qed.

(** X22. The feedback does not tell the arrangements of a code apart: a code
    that scores 4 against the target gets, from every guess, the feedback the
    target gets, so filtering by the feedback of any guess against the target
    keeps every candidate that is an arrangement of the target. *)
Theorem X22_feedback_blind_to_arrangement :
  forall (g t : Code) (cs : list Code),
    (forall c, In c cs -> computeFeedback c t = 4) ->
    (forall c, In c cs -> computeFeedback g c = computeFeedback g t)
    /\ filterCandidates cs g (Z.of_nat (computeFeedback g t)) = cs.
Proof.
  intros g t cs H. split.
  - intros c Hc. apply feedback_arrangement, H, Hc.
  - unfold filterCandidates. apply filter_all. intros c Hc.
    rewrite (feedback_arrangement g c t (H c Hc)). apply Z.eqb_refl.
Qed.

Lemma X22_feedback_blind_to_arrangement_witness :
  (forall c, In c [mkCode D3 D4 D5 D6; mkCode D6 D5 D4 D3] ->
             computeFeedback (mkCode D0 D3 D3 D4) c
             = computeFeedback (mkCode D0 D3 D3 D4) (mkCode D6 D5 D4 D3))
  /\ filterCandidates [mkCode D3 D4 D5 D6; mkCode D6 D5 D4 D3] (mkCode D0 D3 D3 D4)
       (Z.of_nat (computeFeedback (mkCode D0 D3 D3 D4) (mkCode D6 D5 D4 D3)))
     = [mkCode D3 D4 D5 D6; mkCode D6 D5 D4 D3].
Proof.
  apply (X22_feedback_blind_to_arrangement (mkCode D0 D3 D3 D4) (mkCode D6 D5 D4 D3)
           [mkCode D3 D4 D5 D6; mkCode D6 D5 D4 D3]).
  intros c [<- | [<- | []]]; reflexivity.
Defined.

Section Stall.
Context {N : JSNumber}.

Lemma getGuess_empty strategy allCodes round : getGuess strategy [] allCodes round = None.
Proof.
  destruct strategy; simpl; try reflexivity.
  - unfold frequencyProbeGuess. simpl. rewrite andb_false_r. reflexivity.
  - unfold hybridGuess. simpl. rewrite andb_false_r. reflexivity.
Qed.

Lemma getGuess_round strategy cs allCodes round round' :
  length cs <= 100 ->
  getGuess strategy cs allCodes round = getGuess strategy cs allCodes round'.
Proof.
  intros Hn. destruct strategy; simpl; try reflexivity.
  - unfold frequencyProbeGuess.
    replace (100 <? length cs) with false by (symmetry; apply Nat.ltb_ge; exact Hn).
    rewrite !andb_false_r. reflexivity.
  - unfold hybridGuess.
    replace (5000 <? length cs) with false
      by (symmetry; apply Nat.ltb_ge; etransitivity; [exact Hn | apply Nat.leb_le; reflexivity]).
    rewrite !andb_false_r. reflexivity.
Qed.

Lemma stalled_rounds strategy target allCodes maxSteps g cs remaining :
  forall round gs,
    length cs <= 100 ->
    getGuess strategy cs allCodes round = Some g ->
    g <> target ->
    filterCandidates cs g (Z.of_nat (computeFeedback g target)) = cs ->
    simulate_rounds strategy target allCodes maxSteps remaining
      {| sim_round := round; sim_candidates := cs; sim_guesses := gs |}
    = Some (StepCap,
            {| target := codeToString target; steps := maxSteps;
               guesses := gs ++ replicate remaining (codeToString g) |}).
Proof.
  induction remaining as [|remaining IH]; intros round gs Hn Hg Hne Hf.
  - simpl. rewrite app_nil_r. reflexivity.
  - cbn [simulate_rounds]. unfold simulate_round.
    cbn [sim_round sim_candidates sim_guesses]. rewrite Hg.
    destruct (isExactMatch g target) eqn:Em; [apply isExactMatch_eq in Em; contradiction |].
    rewrite Hf.
    destruct cs as [|c cs]; [rewrite getGuess_empty in Hg; discriminate Hg |].
    cbn [length Nat.eqb].
    rewrite (IH (round + 1) (gs ++ [codeToString g]) Hn); try assumption.
    + rewrite <- app_assoc. reflexivity.
    + rewrite <- Hg. apply getGuess_round. exact Hn.
Qed.

End Stall.

(** X23. A game can stall. In a loop state of [simulateGame] with at most 100
    candidates, if the guess the strategy returns is not the target and
    filtering by its feedback removes no candidate, then every later round
    makes the same guess and the game ends at the step cap without finding
    the target. *)
Theorem X23_simulateGame_stalls_on_unchanged_candidates :
  forall (N : JSNumber) (strategy : StrategyName) (target : Code) (allCodes : list Code)
         (maxSteps remaining : nat) (st : SimState) (g : Code),
    length (sim_candidates st) <= 100 ->
    getGuess strategy (sim_candidates st) allCodes (sim_round st) = Some g ->
    g <> target ->
    filterCandidates (sim_candidates st) g (Z.of_nat (computeFeedback g target))
    = sim_candidates st ->
    simulate_rounds strategy target allCodes maxSteps remaining st
    = Some (StepCap,
            {| target := codeToString target; steps := maxSteps;
               guesses := sim_guesses st ++ replicate remaining (codeToString g) |}).
Proof.
  intros N strategy target allCodes maxSteps remaining [round cs gs] g. simpl.
  apply stalled_rounds.
Qed.

Lemma X23_simulateGame_stalls_witness :
  simulate_rounds (N := Q_number) frequency_probe (mkCode D6 D5 D4 D3) generateAllCodes 20 3
    {| sim_round := 6; sim_candidates := [mkCode D3 D4 D5 D6; mkCode D6 D5 D4 D3];
       sim_guesses := [] |}
  = Some (StepCap,
          {| target := codeToString (mkCode D6 D5 D4 D3); steps := 20;
             guesses := [] ++ replicate 3 (codeToString (mkCode D3 D4 D5 D6)) |}).
Proof.
  apply (X23_simulateGame_stalls_on_unchanged_candidates Q_number frequency_probe
           (mkCode D6 D5 D4 D3) generateAllCodes 20 3
           {| sim_round := 6; sim_candidates := [mkCode D3 D4 D5 D6; mkCode D6 D5 D4 D3];
              sim_guesses := [] |} (mkCode D3 D4 D5 D6)).
  - simpl. lia.
  - reflexivity.
  - discriminate.
  - reflexivity.
Defined.

(** ** The analysis that accompanies a smart guess *)

Section SmartAnalysis.
Context {N : JSNumber}.

Lemma engine_minimax_fold cs pool (first : option Code) n :
  forall bg bw bp bc,
    foldl (Engine.minimax_body cs) (first, n, [], true) pool = (bg, bw, bp, bc) ->
    (bg = first /\ bp = [])
    \/ exists g, bg = Some g /\ bp = Engine.computePartitions g cs /\ In g pool.
Proof.
  pose (P := fun s : option Code * nat * list (nat * nat) * bool =>
               (fst (fst (fst s)) = first /\ snd (fst s) = [])
               \/ exists g, fst (fst (fst s)) = Some g
                            /\ snd (fst s) = Engine.computePartitions g cs /\ In g pool).
  assert (P (foldl (Engine.minimax_body cs) (first, n, [], true) pool)) as H.
  { apply foldl_invariant.
    - left. split; reflexivity.
    - intros [[[bg bw] bp] bc] x Hx Hs. unfold Engine.minimax_body.
      destruct (_ || _); [| exact Hs].
      right. exists x. repeat split. exact Hx. }
  intros bg bw bp bc E. rewrite E in H. exact H.
Qed.

Lemma engine_entropy_fold cs pool (first : option Code) n :
  forall bg be bp,
    foldl (Engine.entropy_body cs n) (first, num_of_Z (-1), []) pool = (bg, be, bp) ->
    (bg = first /\ bp = [])
    \/ exists g, bg = Some g /\ bp = Engine.computePartitions g cs /\ In g pool.
Proof.
  pose (P := fun s : option Code * num * list (nat * nat) =>
               (fst (fst s) = first /\ snd s = [])
               \/ exists g, fst (fst s) = Some g
                            /\ snd s = Engine.computePartitions g cs /\ In g pool).
  assert (P (foldl (Engine.entropy_body cs n) (first, num_of_Z (-1), []) pool)) as H.
  { apply foldl_invariant.
    - left. split; reflexivity.
    - intros [[bg be] bp] x Hx Hs. unfold Engine.entropy_body.
      destruct (num_gt _ _); [| exact Hs].
      right. exists x. repeat split. exact Hx. }
  intros bg be bp E. rewrite E in H. exact H.
Qed.

Lemma smart_probe_origin round r : probes !! round = Some r -> In r probes.
Proof. intros H. apply list_elem_of_In, list_elem_of_lookup. exists round. exact H. Qed.

End SmartAnalysis.

(** X24. With two candidates or more, [getSmartGuess] returns a guess that
    is one of its three probes, a candidate or a code of the search space;
    the analysis reports the number of candidates, the knowledge drawn from
    the history and the feedback preview of the returned guess. Its partition
    table is that of the returned guess, unless a search kept its starting
    guess, the first candidate: the table is then empty. *)
Theorem X24_getSmartGuess_analysis :
  forall (N : JSNumber) (cs allCodes : list Code) (round : nat) (h : list GameRound),
    2 <= length cs ->
    let r := getSmartGuess cs allCodes round h in
    candidatesRemaining (analysis r) = length cs
    /\ knowledge (analysis r) = analyzeKnowledge h
    /\ exists g,
         smart_guess r = Some g
         /\ (In g probes \/ In g cs \/ In g allCodes)
         /\ feedbackPreview (analysis r) = buildFeedbackPreview g cs
         /\ (partitions (analysis r) = Engine.computePartitions g cs
             \/ (partitions (analysis r) = [] /\ head cs = Some g)).
Proof.
  intros N cs allCodes round h Hn. cbv zeta. unfold getSmartGuess. cbv zeta.
  assert ((length cs <=? 1) = false) as -> by (apply Nat.leb_gt; lia).
  destruct cs as [|first rest] eqn:Ecs; [simpl in Hn; lia |]. rewrite <- Ecs in *.
  assert (head cs = Some first) as Hfirst by (rewrite Ecs; reflexivity).
  assert (In first cs) as Hin by (rewrite Ecs; left; reflexivity).
  rewrite Hfirst.
  destruct (length cs =? 2).
  { simpl. repeat split. exists first. repeat split; [right; left; exact Hin | left; reflexivity]. }
  destruct (_ && _) eqn:Ep.
  { apply andb_true_iff in Ep as [Ep _]. apply Nat.ltb_lt in Ep.
    destruct (lookup_lt_is_Some_2 probes round Ep) as [g Hg]. rewrite Hg. simpl.
    repeat split. exists g.
    repeat split; [left; apply (smart_probe_origin round g Hg) | left; reflexivity]. }
  destruct (length cs <=? 200).
  { destruct (foldl _ _ _) as [[[bg bw] bp] bc] eqn:F. simpl. repeat split.
    destruct (engine_minimax_fold _ _ _ _ _ _ _ _ F) as [[-> ->]|(g & -> & -> & Hg)].
    - exists first. repeat split; [right; left; exact Hin | right; split; reflexivity].
    - exists g. repeat split; [| left; reflexivity].
      apply strided_In in Hg. destruct (length cs <=? 50); tauto. }
  destruct (length cs <=? 1000).
  { destruct (foldl _ _ _) as [[bg be] bp] eqn:F. simpl. repeat split.
    destruct (engine_entropy_fold _ _ _ _ _ _ _ F) as [[-> ->]|(g & -> & -> & Hg)].
    - exists first. repeat split; [right; left; exact Hin | right; split; reflexivity].
    - exists g. repeat split; [| left; reflexivity].
      apply strided_In in Hg. destruct (length cs <=? 500); tauto. }
  destruct (foldl _ _ _) as [[bg be] bp] eqn:F. simpl. repeat split.
  destruct (engine_entropy_fold _ _ _ _ _ _ _ F) as [[-> ->]|(g & -> & -> & Hg)].
  - exists first. repeat split; [right; left; exact Hin | right; split; reflexivity].
  - exists g. repeat split; [| left; reflexivity].
    apply strided_In in Hg. tauto.
Qed.

Lemma X24_getSmartGuess_analysis_witness :
  let cs := [mkCode D3 D4 D5 D6; mkCode D4 D3 D5 D6; mkCode D6 D5 D4 D3] in
  let r := getSmartGuess (N := Q_number) cs generateAllCodes 5 [] in
  candidatesRemaining (analysis r) = length cs
  /\ knowledge (analysis r) = analyzeKnowledge []
  /\ exists g,
       smart_guess r = Some g
       /\ (In g probes \/ In g cs \/ In g generateAllCodes)
       /\ feedbackPreview (analysis r) = buildFeedbackPreview g cs
       /\ (partitions (analysis r) = Engine.computePartitions g cs
           \/ (partitions (analysis r) = [] /\ head cs = Some g)).
Proof.
  apply (X24_getSmartGuess_analysis Q_number
           [mkCode D3 D4 D5 D6; mkCode D4 D3 D5 D6; mkCode D6 D5 D4 D3] generateAllCodes 5 []).
  simpl. lia.
Defined.

(** ** The pseudo-random generator *)

Lemma toInt32_range x : (- 2 ^ 31 <= toInt32 x < 2 ^ 31)%Z.
Proof. unfold toInt32. pose proof (Z.mod_pos_bound (x + 2 ^ 31) (2 ^ 32)). lia. Qed.

Lemma toInt32_congruent x k : toInt32 (x + k * 2 ^ 32) = toInt32 x.
Proof.
  unfold toInt32. replace (x + k * 2 ^ 32 + 2 ^ 31)%Z with (x + 2 ^ 31 + k * 2 ^ 32)%Z by lia.
  rewrite Z_mod_plus_full. reflexivity.
Qed.

Lemma rand_congruent s k : rand (s + k * 2 ^ 32) = rand s.
Proof. unfold rand, or32. rewrite toInt32_congruent. reflexivity. Qed.

Lemma rand_range s : (0 <= snd (rand s) < 2 ^ 32)%Z /\ (- 2 ^ 31 <= fst (rand s) < 2 ^ 31)%Z.
Proof.
  unfold rand. cbv zeta. cbn [fst snd]. split.
  - unfold ushr32 at 1. rewrite Z.shiftr_0_r. unfold toUint32. apply Z.mod_pos_bound. lia.
  - apply toInt32_range.
Qed.

Lemma floor10_val u :
  (0 <= u < 2 ^ 32)%Z ->
  digit_of_nat (Z.to_nat (u * 10 / 4294967296)) = Some (floor10 u)
  /\ Z.of_nat (digit_val (floor10 u)) = (u * 10 / 4294967296)%Z.
Proof.
  intros Hu. unfold floor10.
  assert (0 <= u * 10 / 4294967296 < 10)%Z as Hq.
  { split; [apply Z.div_pos; lia | apply Z.div_lt_upper_bound; lia]. }
  assert (Z.to_nat (u * 10 / 4294967296) < 10) as Hlt by lia.
  destruct (digit_of_nat (Z.to_nat (u * 10 / 4294967296))) as [d|] eqn:E.
  - split; [reflexivity |]. simpl.
    assert (digit_val d = Z.to_nat (u * 10 / 4294967296)) as ->; [| lia].
    unfold digit_of_nat in E.
    destruct (Z.to_nat (u * 10 / 4294967296)) as [|[|[|[|[|[|[|[|[|[|n]]]]]]]]]];
      simpl in E; try (injection E as <-; reflexivity). lia.
  - unfold digit_of_nat in E. apply lookup_ge_None in E. simpl in E. lia.
Qed.

(** X25. Every call of [rand] leaves a signed 32-bit state and returns a
    number in [0, 1): a numerator [u] with [0 <= u < 2^32] over 4294967296.
    The digit drawn from it, [Math.floor(rand() * 10)], is the quotient of
    [10 u] by 4294967296, hence one of 0..9. *)
Theorem X25_rand_draws_a_digit :
  forall s : Z,
    (- 2 ^ 31 <= fst (rand s) < 2 ^ 31)%Z
    /\ (0 <= snd (rand s) < 2 ^ 32)%Z
    /\ Z.of_nat (digit_val (floor10 (snd (rand s)))) = (snd (rand s) * 10 / 4294967296)%Z
    /\ digit_val (floor10 (snd (rand s))) < 10.
Proof.
  intros s. destruct (rand_range s) as [Hu Hs].
  split; [exact Hs |]. split; [exact Hu |].
  split; [apply floor10_val, Hu | apply digit_val_lt].
Qed.

Lemma generate_loop_length fuel count :
  forall st r,
    (Z.of_nat (length (gen_targets st)) <= Z.max 0 count)%Z ->
    generate_loop fuel count st = Some r ->
    Z.of_nat (length (gen_targets r)) = Z.max 0 count.
Proof.
  assert (forall st, (Z.of_nat (length (gen_targets st)) <? count)%Z = true ->
                     (Z.of_nat (length (gen_targets (generate_body st))) <= Z.max 0 count)%Z)
    as Hbody.
  { intros st Hlt. apply Z.ltb_lt in Hlt. unfold generate_body.
    destruct (rand (gen_s st)) as [s1 u1]. destruct (rand s1) as [s2 u2].
    destruct (rand s2) as [s3 u3]. destruct (rand s3) as [s4 u4].
    destruct (bool_decide _); simpl; [lia |]. rewrite length_app. simpl. lia. }
  induction fuel as [|fuel IH]; intros st r Hle; simpl;
    destruct (_ <? _)%Z eqn:E.
  - discriminate.
  - intros H. injection H as <-. apply Z.ltb_ge in E. lia.
  - apply IH, Hbody, E.
  - intros H. injection H as <-. apply Z.ltb_ge in E. lia.
Qed.

(** X26. When [generateRandomTargets] returns, it returns exactly [count]
    targets, and none for a count of zero or less: a non-positive count
    returns the empty list at once, without a call of the generator. *)
Theorem X26_generateRandomTargets_count :
  forall (fuel : nat) (now count : Z) (seed : option Z),
    (forall ts, generateRandomTargets fuel now count seed = Some ts ->
                Z.of_nat (length ts) = Z.max 0 count)
    /\ ((count <= 0)%Z -> generateRandomTargets fuel now count seed = Some []).
Proof.
  intros fuel now count seed. split.
  - intros ts. unfold generateRandomTargets.
    destruct (generate_loop _ _ _) as [r|] eqn:E; [| discriminate].
    simpl. intros H. injection H as <-.
    eapply generate_loop_length; [| exact E]. simpl. lia.
  - intros Hc. unfold generateRandomTargets.
    assert ((Z.of_nat (length (@nil Code)) <? count)%Z = false) as Hlt
      by (apply Z.ltb_ge; simpl; lia).
    destruct fuel; simpl; simpl in Hlt; rewrite Hlt; reflexivity.
Qed.

Lemma generate_loop_congruent fuel count s k ts seen :
  gen_targets <$> generate_loop fuel count
                    {| gen_s := s + k * 2 ^ 32; gen_targets := ts; gen_seen := seen |}
  = gen_targets <$> generate_loop fuel count
                      {| gen_s := s; gen_targets := ts; gen_seen := seen |}.
Proof.
  destruct fuel as [|fuel]; cbn [generate_loop gen_targets];
    destruct (_ <? _)%Z; try reflexivity.
  unfold generate_body. cbn [gen_s gen_targets gen_seen].
  rewrite rand_congruent. reflexivity.
Qed.

(** X27. The targets depend on an integer seed only through its residue
    modulo 2^32: two seeds that differ by a multiple of 2^32 give the same
    list. *)
Theorem X27_generateRandomTargets_seed_modulo :
  forall (fuel : nat) (now now' count seed k : Z),
    generateRandomTargets fuel now count (Some (seed + k * 2 ^ 32)%Z)
    = generateRandomTargets fuel now' count (Some seed).
Proof.
  intros fuel now now' count seed k. unfold generateRandomTargets. simpl.
  apply generate_loop_congruent.
Qed.

(** ** The benchmark harness *)

Section Harness.
Context {N : JSNumber}.

Lemma simulateGame_steps strategy target allCodes e r :
  simulateGame strategy target allCodes 20 = Some (e, r) -> 1 <= steps r <= 20.
Proof.
  intros H. unfold simulateGame in H.
  apply simulate_rounds_shape in H; [| reflexivity | reflexivity].
  destruct H as (_ & H1 & _ & H2). destruct e; lia.
Qed.

Lemma chunk_games_invariant config allCodes strategy i :
  forall st st1,
    bench_invariant config st ->
    chunk_games allCodes strategy i st = Some st1 ->
    bench_invariant config st1
    /\ bench_targets st1 = bench_targets st
    /\ strategyIdx st1 = strategyIdx st
    /\ bench_results st1 = bench_results st.
Proof.
  induction i as [|i IH]; intros st st1 Hinv; cbn [chunk_games].
  - intros H. injection H as <-. auto.
  - destruct (bench_targets st !! gameIdx st) as [target|] eqn:Et;
      [| intros H; injection H as <-; auto].
    destruct (strategy ≫= _) as [[e result]|] eqn:Eg; [| discriminate].
    intros H. apply IH in H; [exact H |].
    destruct strategy as [name|]; [| discriminate Eg]. simpl in Eg.
    apply simulateGame_steps in Eg. apply lookup_lt_Some in Et.
    destruct Hinv as (H1 & H2 & H3 & H4 & H5 & H6 & H7).
    unfold bench_invariant. cbn [bench_targets bench_results strategyIdx gameIdx
                                  stepResults sampleGames distribution].
    split; [exact H1 |]. split; [exact H2 |].
    split; [rewrite length_app; simpl; lia |].
    split; [apply Forall_app; split; [exact H4 | constructor; [lia | constructor]] |].
    split; [rewrite record_incr_sum; lia |].
    split; [| lia].
    destruct (_ && _) eqn:Ek; [| exact H6].
    apply andb_true_iff in Ek as [_ Ek]. apply Nat.ltb_lt in Ek.
    rewrite length_app. simpl. lia.
Qed.

Lemma codeToString_nonempty c : codeToString c <> EmptyString.
Proof. destruct c. discriminate. Qed.

Lemma processNextChunk_consistent config cancelled st events next :
  bench_invariant config st ->
  processNextChunk config generateAllCodes cancelled st = (events, next) ->
  (forall st', next = Reschedule st' ->
               bench_invariant config st' /\ bench_targets st' = bench_targets st)
  /\ (forall i e, events !! i = Some e ->
                  callback_consistent config (length (bench_targets st)) events i e
                  /\ (forall results, e = OnComplete results -> next = Stop)).
Proof.
  intros Hinv. unfold processNextChunk.
  destruct cancelled.
  { intros H. injection H as <- <-. split; [discriminate |]. intros i e H. discriminate H. }
  cbv zeta.
  destruct (chunk_games _ _ _ _) as [st1|] eqn:Ec.
  2:{ intros H. injection H as <- <-. split; [discriminate |]. intros i e H. discriminate H. }
  destruct (chunk_games_invariant _ _ _ _ _ _ Hinv Ec) as (Hinv1 & Ht & Hi & Hr).
  pose proof Hinv1 as (H1 & H2 & H3 & H4 & H5 & H6 & H7).
  set (p := {| progress_strategy := strategies config !! strategyIdx st;
               strategyIndex := strategyIdx st1 |}).
  assert (progress_consistent (strategies config) (length (bench_targets st)) p) as Hp.
  { unfold progress_consistent, p. cbn [totalGames gamesCompleted totalStrategies
                                        progress_strategy strategyIndex currentTarget].
    rewrite <- Ht, Hi. repeat split; try lia.
    - destruct (bench_targets st1 !! gameIdx st1) as [c|] eqn:El; simpl.
      + intros H. destruct (codeToString_nonempty c H).
      + intros _. apply lookup_ge_None in El. lia.
    - intros H. rewrite H, lookup_ge_None_2 by lia. reflexivity. }
  assert (forall i e, [OnProgress p] !! i = Some e ->
                      callback_consistent config (length (bench_targets st)) [OnProgress p] i e
                      /\ (forall results, e = OnComplete results -> next = Stop)) as Hone.
  { intros [|i] e H; [| discriminate H]. injection H as <-.
    split; [exact Hp | discriminate]. }
  destruct (length (bench_targets st1) <=? gameIdx st1) eqn:Edone.
  2:{ intros H. injection H as <- <-. split; [| exact Hone].
      intros st' H. injection H as <-. split; assumption. }
  apply Nat.leb_le in Edone.
  destruct (strategies config !! strategyIdx st) as [name|] eqn:En.
  2:{ intros H. injection H as <- <-. split; [discriminate | exact Hone]. }
  set (r := {| result_strategy := name; result_steps := stepResults st1 |}).
  assert (result_consistent (length (bench_targets st)) r) as Hres.
  { unfold result_consistent, r. cbn [result_totalGames result_steps result_distribution
                                       result_sampleGames].
    rewrite <- Ht. repeat split; try lia. exact H4. }
  assert (result_strategy <$> bench_results st1 ++ [r]
          = take (strategyIdx st1 + 1) (strategies config)) as Hnames.
  { rewrite fmap_app, H1, Hi, Nat.add_1_r. rewrite (take_S_r _ _ name En). reflexivity. }
  assert (Forall (result_consistent (length (bench_targets st))) (bench_results st1 ++ [r]))
    as Hall.
  { apply Forall_app. split; [rewrite <- Ht; exact H2 | constructor; [exact Hres | constructor]]. }
  cbn [strategyIdx].
  destruct (length (strategies config) <=? strategyIdx st1 + 1) eqn:Elast.
  - apply Nat.leb_le in Elast. intros H. injection H as <- <-.
    split; [discriminate |].
    intros [|[|i]] e H; try discriminate H; injection H as <-.
    + split; [exact Hp | discriminate].
    + split; [| reflexivity].
      split; [reflexivity |]. split; [| exact Hall].
      rewrite Hnames. apply take_ge. exact Elast.
  - intros H. injection H as <- <-. split; [| exact Hone].
    intros st' H. injection H as <-.
    split; [| exact Ht]. unfold bench_invariant.
    cbn [bench_targets bench_results strategyIdx gameIdx stepResults sampleGames distribution].
    rewrite Ht. repeat split; try (simpl; lia); try constructor; assumption.
Qed.

Lemma run_frames_consistent config cancels :
  forall st,
    bench_invariant config st ->
    forall i e,
      run_frames config cancels st !! i = Some e ->
      callback_consistent config (length (bench_targets st))
        (run_frames config cancels st) i e.
Proof.
  induction cancels as [|cancelled cancels IH]; intros st Hinv i e; cbn [run_frames].
  - intros H. discriminate H.
  - destruct (processNextChunk _ _ _ _) as [events next] eqn:Ep.
    destruct (processNextChunk_consistent _ _ _ _ _ Hinv Ep) as [Hnext Hev].
    intros H. apply lookup_app_Some in H as [H|[Hlen H]].
    + destruct (Hev i e H) as [Hc Hstop]. destruct e as [p|results]; [exact Hc |].
      rewrite (Hstop results eq_refl), app_nil_r. exact Hc.
    + destruct next as [st'| |]; [| discriminate H | discriminate H].
      destruct (Hnext st' eq_refl) as [Hinv' Ht].
      pose proof (IH st' Hinv' _ _ H) as Hc. rewrite Ht in Hc.
      destruct e as [p|results]; [exact Hc |].
      destruct Hc as (Hc1 & Hc2 & Hc3). split; [| split; assumption].
      rewrite length_app. lia.
Qed.

Lemma run_frames_cancelled config pre rest :
  forall st, run_frames config (pre ++ true :: rest) st = run_frames config pre st.
Proof.
  induction pre as [|c pre IH]; intros st; [reflexivity |].
  rewrite <- app_comm_cons. cbn [run_frames].
  destruct (processNextChunk _ _ _ _) as [events [st'| |]]; [| reflexivity | reflexivity].
  rewrite IH. reflexivity.
Qed.

End Harness.

(** X28. The callbacks of a benchmark run are consistent with its
    configuration. A progress report shows the number of targets as its
    total, no more games completed than that, the number of configured
    strategies, the strategy at the reported index, and an empty current
    target exactly when all games of the strategy are completed. A call of
    [onComplete] is the last callback of the run; it lists one result per
    configured strategy, in the configured order, and each result reports the
    number of targets, that many step counts, each between 1 and 20, a
    histogram whose counts add up to it and at most 30 sample games. *)
Theorem X28_benchmark_callbacks_consistent :
  forall (N : JSNumber) (fuel : nat) (now : Z) (config : BenchmarkConfig)
         (cancels : list bool) (i : nat) (e : Event),
    callbacks_invoked fuel now config cancels !! i = Some e ->
    callback_consistent config (Z.to_nat (Z.max 0 (numTargets config)))
      (callbacks_invoked fuel now config cancels) i e.
Proof.
  intros N fuel now config cancels i e. unfold callbacks_invoked, runBenchmarkAsync.
  cbv zeta.
  destruct (generateRandomTargets _ _ _ _) as [ts|] eqn:Eg; simpl; [| discriminate].
  assert (Z.to_nat (Z.max 0 (numTargets config)) = length ts) as ->.
  { unfold generateRandomTargets in Eg.
    destruct (generate_loop _ _ _) as [r|] eqn:E; [| discriminate Eg].
    simpl in Eg. injection Eg as <-.
    eapply generate_loop_length in E; [| simpl; lia]. lia. }
  intros H.
  apply (run_frames_consistent config cancels
           {| bench_targets := ts; bench_results := []; strategyIdx := 0; gameIdx := 0;
              stepResults := []; sampleGames := []; distribution := [] |}); [| exact H].
  unfold bench_invariant. simpl. repeat split; try lia; constructor.
Qed.

Lemma X28_benchmark_callbacks_witness :
  let config := {| numTargets := 1; strategies := [frequency_probe]; seed := Some 42%Z |} in
  exists e,
    callbacks_invoked (N := Q_number) 5 0 config [false] !! 1 = Some e
    /\ callback_consistent config 1 (callbacks_invoked (N := Q_number) 5 0 config [false]) 1 e.
Proof.
  eexists. split; [vm_compute; reflexivity |].
  apply (X28_benchmark_callbacks_consistent Q_number 5 0
           {| numTargets := 1; strategies := [frequency_probe]; seed := Some 42%Z |}
           [false] 1).
  vm_compute. reflexivity.
Defined.

(** X29. Once [cancel] has been called, the frame that follows does
    nothing and requests no other frame: the run invokes the callbacks of
    the frames before the call, and no other. *)
Theorem X29_cancel_stops_callbacks :
  forall (N : JSNumber) (fuel : nat) (now : Z) (config : BenchmarkConfig)
         (pre rest : list bool),
    callbacks_invoked fuel now config (pre ++ true :: rest)
    = callbacks_invoked fuel now config pre.
Proof.
  intros N fuel now config pre rest. unfold callbacks_invoked.
  destruct (runBenchmarkAsync _ _ _); [apply run_frames_cancelled | reflexivity].
Qed.

(** X30. With an empty list of strategies the run never completes: it
    invokes no callback, or a single progress report, and never
    [onComplete]. *)
Theorem X30_no_strategy_never_completes :
  forall (N : JSNumber) (fuel : nat) (now : Z) (config : BenchmarkConfig)
         (cancels : list bool),
    strategies config = [] ->
    callbacks_invoked fuel now config cancels = []
    \/ exists p, callbacks_invoked fuel now config cancels = [OnProgress p].
Proof.
  intros N fuel now config cancels Hs. unfold callbacks_invoked, runBenchmarkAsync.
  cbv zeta.
  destruct (generateRandomTargets _ _ _ _) as [ts|]; simpl; [| left; reflexivity].
  destruct cancels as [|[|] cancels]; cbn [run_frames]; [left; reflexivity | |].
  { unfold processNextChunk. left. reflexivity. }
  unfold processNextChunk. cbv zeta. cbn [strategyIdx]. rewrite Hs.
  change (@nil StrategyName !! 0) with (@None StrategyName).
  cbn [chunk_games bench_targets gameIdx].
  destruct (ts !! 0) as [t|] eqn:Et.
  - left. reflexivity.
  - cbn [bench_targets gameIdx]. apply lookup_ge_None in Et.
    assert (ts = []) as -> by (destruct ts; [reflexivity | simpl in Et; lia]).
    right. eexists. reflexivity.
Qed.

Lemma X30_no_strategy_witness :
  let config := {| numTargets := 0; strategies := []; seed := Some 42%Z |} in
  callbacks_invoked (N := Q_number) 5 0 config [false] = []
  \/ exists p, callbacks_invoked (N := Q_number) 5 0 config [false] = [OnProgress p].
Proof.
  apply (X30_no_strategy_never_completes Q_number 5 0
           {| numTargets := 0; strategies := []; seed := Some 42%Z |} [false]).
  reflexivity.
Defined.
